(** * agent-slack: the LevelDB reader and the cookie token extraction

    A shallow embedding of [src/lib/leveldb-reader.ts] and of the token
    extraction of [src/auth/desktop.ts], with the properties the
    specification states about them.

    Buffers are lists of bytes.  Offsets and decoded lengths are [Z]: the
    readers compute them with JavaScript's 32-bit operators, so a decoded
    length can be negative, and an index outside a buffer reads [undefined].
    Both behaviours are kept.  A [while] loop of the source is a body
    function run under a step budget. *)

From Stdlib Require Import String Ascii.
From Stdlib Require Import ZArith List Lia Bool.
From Stdlib.Strings Require Import Byte.
Import ListNotations.
Open Scope Z_scope.

(** ** Outcomes of a run *)

(** A run returns a value, throws a JavaScript exception, or exhausts the
    step budget given to its loops. *)
Inductive Res (A : Type) : Type :=
| Ok (a : A)
| Throw (msg : string)
| OutOfFuel.
Arguments Ok {A} a.
Arguments Throw {A} msg.
Arguments OutOfFuel {A}.

Definition bind {A B} (c : Res A) (k : A -> Res B) : Res B :=
  match c with
  | Ok a => k a
  | Throw m => Throw m
  | OutOfFuel => OutOfFuel
  end.

Notation "x <- c ;; k" := (bind c (fun x => k))
  (at level 61, c at next level, right associativity).
Notation "' pat <- c ;; k" := (bind c (fun x => match x with pat => k end))
  (at level 61, pat pattern, c at next level, right associativity).

(** [try { c } catch { h }]: only a thrown exception reaches the handler. *)
Definition try_catch {A} (c : Res A) (h : Res A) : Res A :=
  match c with
  | Throw _ => h
  | r => r
  end.

(** [await p] of a promise that resolves ([Some]) or rejects ([None]). *)
Definition await {A} (p : option A) : Res A :=
  match p with
  | Some a => Ok a
  | None => Throw "rejected"
  end.

(** A call of a library function that returns ([Some]) or throws ([None]). *)
Definition call {A} (r : option A) : Res A :=
  match r with
  | Some a => Ok a
  | None => Throw "library error"
  end.

(** [try { x = c } catch { return h }; k x] *)
Definition try_or_return {A B} (c : Res A) (h : Res B) (k : A -> Res B) : Res B :=
  match c with
  | Ok a => k a
  | Throw _ => h
  | OutOfFuel => OutOfFuel
  end.

(** [for (const a of l) { s = body a s }] *)
Fixpoint for_of {A S} (l : list A) (body : A -> S -> Res S) (s : S) : Res S :=
  match l with
  | [] => Ok s
  | a :: l' => s' <- body a s ;; for_of l' body s'
  end.

(** [entries.push(...xs)]: the elements of [xs] become the arguments of one
    call.  A call with more arguments than the runtime accepts throws a
    RangeError and leaves [entries] as it was; how many it accepts is the
    runtime's affair, and [spreadable n] says whether a call with [n]
    arguments goes through. *)
Definition push_spread {A} (spreadable : nat -> bool) (entries xs : list A)
    : Res (list A) :=
  if spreadable (List.length xs) then Ok (entries ++ xs)
  else Throw "RangeError: Maximum call stack size exceeded".

(** A runtime that accepts calls with up to [limit] arguments. *)
Definition accepts (limit n : nat) : bool := Nat.leb n limit.

(** What one iteration of a loop body asks for. *)
Inductive Step (S : Type) : Type :=
| Continue (s : S)
| Break (s : S).
Arguments Continue {S} s.
Arguments Break {S} s.

(** [while (cond) { body }] run for at most [fuel] iterations; the result is
    the state after the loop. *)
Fixpoint while {S} (fuel : nat) (cond : S -> bool) (body : S -> Res (Step S))
    (s : S) : Res S :=
  match fuel with
  | O => OutOfFuel
  | Datatypes.S fuel' =>
      if cond s then
        match body s with
        | Ok (Continue s') => while fuel' cond body s'
        | Ok (Break s') => Ok s'
        | Throw m => Throw m
        | OutOfFuel => OutOfFuel
        end
      else Ok s
  end.

(** ** Buffers *)

Definition Buffer := list byte.

Definition blen (b : Buffer) : Z := Z.of_nat (length b).

Definition byteZ (b : byte) : Z := Z.of_N (Byte.to_N b).

(** [Buffer.from([n])]: a number is stored modulo 256. *)
Definition byte_of_Z (z : Z) : byte :=
  match Byte.of_N (Z.to_N (z mod 256)) with
  | Some b => b
  | None => x00
  end.

(** [buf[i]]: [undefined] outside the buffer. *)
Definition at_ (buf : Buffer) (i : Z) : option byte :=
  if i <? 0 then None else nth_error buf (Z.to_nat i).

(** [buf.at(i)]: a negative index counts from the end. *)
Definition at_rel (buf : Buffer) (i : Z) : option byte :=
  at_ buf (if i <? 0 then blen buf + i else i).

(** The number a bitwise operator sees: [undefined] converts to 0. *)
Definition num (o : option byte) : Z :=
  match o with
  | Some b => byteZ b
  | None => 0
  end.

(** [o === n] for a byte or [undefined] and a number. *)
Definition strict_eq (o : option byte) (n : Z) : bool :=
  match o with
  | Some b => byteZ b =? n
  | None => false
  end.

(** Index clamping of [subarray]: negative indices are relative to the end. *)
Definition clampIndex (len i : Z) : Z :=
  if i <? 0 then Z.max (len + i) 0 else Z.min i len.

(** [buf.subarray(s, e)] *)
Definition subarray (buf : Buffer) (s e : Z) : Buffer :=
  let s' := clampIndex (blen buf) s in
  let e' := clampIndex (blen buf) e in
  firstn (Z.to_nat (e' - s')) (skipn (Z.to_nat s') buf).

(** [buf.subarray(s)] *)
Definition subarray_from (buf : Buffer) (s : Z) : Buffer :=
  subarray buf s (blen buf).

Definition byte_eq_dec : forall a b : byte, {a = b} + {a <> b} :=
  Byte.byte_eq_dec.

(** [a.equals(b)] *)
Definition equals (a b : Buffer) : bool :=
  if list_eq_dec byte_eq_dec a b then true else false.

(** [value] occurs in [buf] at its very start. *)
Fixpoint starts_with (value buf : Buffer) : bool :=
  match value, buf with
  | [], _ => true
  | _ :: _, [] => false
  | v :: value', b :: buf' =>
      if byte_eq_dec v b then starts_with value' buf' else false
  end.

(** [buf.indexOf(value)] for a buffer [value]: the scan reached index [i],
    [buf] is what lies from there on; -1 when there is no occurrence. *)
Fixpoint indexOf_from (buf value : Buffer) (i : Z) : Z :=
  if starts_with value buf then i
  else
    match buf with
    | [] => -1
    | _ :: buf' => indexOf_from buf' value (i + 1)
    end.

Definition indexOf (buf value : Buffer) : Z := indexOf_from buf value 0.

(** [buf.includes(value)] *)
Definition includes (buf value : Buffer) : bool :=
  negb (indexOf buf value =? -1).

(** [s.endsWith(suffix)] *)
Definition endsWith (s suffix : string) : bool :=
  let n := String.length s in
  let m := String.length suffix in
  (m <=? n)%nat && String.eqb (String.substring (n - m) m s) suffix.

(** [buf.readUInt16LE(off)] and [buf.readUInt32LE(off)] throw a range error
    when the field does not lie inside the buffer. *)
Definition readUInt16LE (buf : Buffer) (off : Z) : Res Z :=
  if (off <? 0) || (off + 2 >? blen buf) then Throw "ERR_OUT_OF_RANGE"
  else Ok (num (at_ buf off) + 256 * num (at_ buf (off + 1))).

Definition readUInt32LE (buf : Buffer) (off : Z) : Res Z :=
  if (off <? 0) || (off + 4 >? blen buf) then Throw "ERR_OUT_OF_RANGE"
  else Ok (num (at_ buf off) + 256 * num (at_ buf (off + 1))
           + 65536 * num (at_ buf (off + 2))
           + 16777216 * num (at_ buf (off + 3))).

(** ** JavaScript's 32-bit operators *)

Definition toInt32 (z : Z) : Z := (z + 2 ^ 31) mod 2 ^ 32 - 2 ^ 31.

Definition toUint32 (z : Z) : Z := z mod 2 ^ 32.

(** [a & b], [a | b], [a << s] and [a >>> 0] *)
Definition and32 (a b : Z) : Z := Z.land (toInt32 a) (toInt32 b).
Definition or32 (a b : Z) : Z := Z.lor (toInt32 a) (toInt32 b).
Definition shl32 (a s : Z) : Z :=
  toInt32 (Z.shiftl (toInt32 a) (Z.land s 31)).
Definition ushr0 (a : Z) : Z := toUint32 a.

(** ** The reader *)

Module LevelDB.

Definition LEVELDB_MAGIC : Buffer :=
  [x57; xfb; x80; x8b; x24; x75; x47; xdb].

Definition COMPRESSION_NONE : Z := 0.
Definition COMPRESSION_SNAPPY : Z := 1.

Definition LOG_RECORD_FULL : Z := 1.
Definition LOG_RECORD_FIRST : Z := 2.
Definition LOG_RECORD_MIDDLE : Z := 3.
Definition LOG_RECORD_LAST : Z := 4.

Record LevelDBEntry : Type := mkEntry { key : Buffer; value : Buffer }.

(** The loop of [readVarint].  The counter bounds the iterations by 5; the
    fifth one either returns or throws on [shift >= 35], so the counter never
    decides (see [readVarint_counter]). *)
Fixpoint readVarint_loop (n : nat) (buf : Buffer)
    (offset result shift bytesRead : Z) : Res (Z * Z) :=
  match n with
  | O => Throw "Varint too long"
  | S n' =>
      if offset + bytesRead <? blen buf then
        let byte := at_ buf (offset + bytesRead) in
        let bytesRead := bytesRead + 1 in
        let result := or32 result (shl32 (and32 (num byte) 127) shift) in
        if and32 (num byte) 128 =? 0 then Ok (result, bytesRead)
        else
          let shift := shift + 7 in
          if shift >=? 35 then Throw "Varint too long"
          else readVarint_loop n' buf offset result shift bytesRead
      else Throw "Unexpected end of buffer reading varint"
  end.

Definition readVarint (buf : Buffer) (offset : Z) : Res (Z * Z) :=
  readVarint_loop 5 buf offset 0 0 0.

(** The loop of [readVarint64]: the counter is [10 - bytesRead], and the loop
    is left, into the final [throw], when it reaches 0. *)
Fixpoint readVarint64_loop (n : nat) (buf : Buffer)
    (offset result shift bytesRead : Z) : Res (Z * Z) :=
  match n with
  | O => Throw "Unexpected end of buffer reading varint64"
  | S n' =>
      if (offset + bytesRead <? blen buf) && (bytesRead <? 10) then
        let byte := at_ buf (offset + bytesRead) in
        let bytesRead := bytesRead + 1 in
        let result :=
          if shift <? 32 then or32 result (shl32 (and32 (num byte) 127) shift)
          else result in
        if and32 (num byte) 128 =? 0 then Ok (ushr0 result, bytesRead)
        else readVarint64_loop n' buf offset result (shift + 7) bytesRead
      else Throw "Unexpected end of buffer reading varint64"
  end.

Definition readVarint64 (buf : Buffer) (offset : Z) : Res (Z * Z) :=
  readVarint64_loop 10 buf offset 0 0 0.

Record BlockHandle : Type :=
  mkHandle { h_offset : Z; h_size : Z; h_bytesRead : Z }.

Definition parseBlockHandle (buf : Buffer) (offset : Z) : Res BlockHandle :=
  '(blockOffset, n1) <- readVarint64 buf offset ;;
  '(blockSize, n2) <- readVarint64 buf (offset + n1) ;;
  Ok {| h_offset := blockOffset; h_size := blockSize; h_bytesRead := n1 + n2 |}.

(** State of the loop of [parseDataBlock]. *)
Record BlockState : Type :=
  mkBlockState {
    bs_offset : Z;
    bs_prevKey : Buffer;
    bs_entries : list LevelDBEntry
  }.

(** One iteration of the [while] of [parseDataBlock]: the [try] block, and
    [catch { break }]. *)
Definition parseDataBlock_body (block : Buffer) (restartsStart : Z)
    (st : BlockState) : Res (Step BlockState) :=
  try_catch
    ('(shared, n1) <- readVarint block (bs_offset st) ;;
     let offset := bs_offset st + n1 in
     '(nonShared, n2) <- readVarint block offset ;;
     let offset := offset + n2 in
     '(valueLen, n3) <- readVarint block offset ;;
     let offset := offset + n3 in
     if offset + nonShared + valueLen >? restartsStart then Ok (Break st)
     else
       let keyDelta := subarray block offset (offset + nonShared) in
       let offset := offset + nonShared in
       let key := concat [subarray (bs_prevKey st) 0 shared; keyDelta] in
       let value := subarray block offset (offset + valueLen) in
       let offset := offset + valueLen in
       Ok (Continue {| bs_offset := offset;
                       bs_prevKey := key;
                       bs_entries := bs_entries st ++ [mkEntry key value] |}))
    (Ok (Break st)).

Definition parseDataBlock (fuel : nat) (block : Buffer)
    : Res (list LevelDBEntry) :=
  let entries := [] in
  if blen block <? 4 then Ok entries
  else
    numRestarts <- readUInt32LE block (blen block - 4) ;;
    let restartsStart := blen block - 4 - numRestarts * 4 in
    if restartsStart <? 0 then Ok entries
    else
      st <- while fuel (fun st => bs_offset st <? restartsStart)
              (parseDataBlock_body block restartsStart)
              {| bs_offset := 0; bs_prevKey := []; bs_entries := entries |} ;;
      Ok (bs_entries st).

(** State of the loop of [parseLogBatch]; [entries] is the caller's array. *)
Record BatchState : Type :=
  mkBatchState { ba_offset : Z; ba_entries : list LevelDBEntry }.

Definition parseLogBatch_body (batch : Buffer) (st : BatchState)
    : Res (Step BatchState) :=
  try_catch
    (let recordType := at_ batch (ba_offset st) in
     let offset := ba_offset st + 1 in
     if strict_eq recordType 1 then
       '(keyLen, n1) <- readVarint batch offset ;;
       let offset := offset + n1 in
       let key := subarray batch offset (offset + keyLen) in
       let offset := offset + keyLen in
       '(valueLen, n2) <- readVarint batch offset ;;
       let offset := offset + n2 in
       let value := subarray batch offset (offset + valueLen) in
       let offset := offset + valueLen in
       Ok (Continue {| ba_offset := offset;
                       ba_entries := ba_entries st ++ [mkEntry key value] |})
     else if strict_eq recordType 0 then
       '(keyLen, n1) <- readVarint batch offset ;;
       Ok (Continue {| ba_offset := offset + (n1 + keyLen);
                       ba_entries := ba_entries st |})
     else Ok (Break st))
    (Ok (Break st)).

Definition parseLogBatch (fuel : nat) (batch : Buffer)
    (entries : list LevelDBEntry) : Res (list LevelDBEntry) :=
  if blen batch <? 12 then Ok entries
  else
    st <- while fuel (fun st => ba_offset st <? blen batch)
            (parseLogBatch_body batch)
            {| ba_offset := 12; ba_entries := entries |} ;;
    Ok (ba_entries st).

Definition BLOCK_SIZE : Z := 32768.

(** State of the loop of [parseLogFile]. *)
Record LogState : Type :=
  mkLogState {
    lg_offset : Z;
    lg_pendingRecord : list Buffer;
    lg_entries : list LevelDBEntry
  }.

Definition parseLogFile_body (fuel : nat) (data : Buffer) (st : LogState)
    : Res (Step LogState) :=
  let offset := lg_offset st in
  let pendingRecord := lg_pendingRecord st in
  let entries := lg_entries st in
  let blockOffset := Z.rem offset BLOCK_SIZE in
  let remaining := BLOCK_SIZE - blockOffset in
  if remaining <? 7 then
    Ok (Continue (mkLogState (offset + remaining) pendingRecord entries))
  else if offset + 7 >? blen data then Ok (Break st)
  else
    length <- readUInt16LE data (offset + 4) ;;
    let type := at_ data (offset + 6) in
    if (length =? 0) || (offset + 7 + length >? blen data) then
      Ok (Continue (mkLogState (offset + remaining) [] entries))
    else
      let recordData := subarray data (offset + 7) (offset + 7 + length) in
      let offset := offset + 7 + length in
      if strict_eq type LOG_RECORD_FULL then
        entries <- parseLogBatch fuel recordData entries ;;
        Ok (Continue (mkLogState offset [] entries))
      else if strict_eq type LOG_RECORD_FIRST then
        Ok (Continue (mkLogState offset [recordData] entries))
      else if strict_eq type LOG_RECORD_MIDDLE then
        if (0 <? Z.of_nat (List.length pendingRecord)) then
          Ok (Continue (mkLogState offset (pendingRecord ++ [recordData]) entries))
        else Ok (Continue (mkLogState offset pendingRecord entries))
      else if strict_eq type LOG_RECORD_LAST then
        if (0 <? Z.of_nat (List.length pendingRecord)) then
          let pendingRecord := pendingRecord ++ [recordData] in
          let fullRecord := concat pendingRecord in
          entries <- parseLogBatch fuel fullRecord entries ;;
          Ok (Continue (mkLogState offset [] entries))
        else Ok (Continue (mkLogState offset [] entries))
      else Ok (Continue (mkLogState offset pendingRecord entries)).

(** The log reader on the bytes of a file. *)
Definition parseLogData (fuel : nat) (data : Buffer)
    : Res (list LevelDBEntry) :=
  st <- while fuel (fun st => lg_offset st <? blen data)
          (parseLogFile_body fuel data)
          (mkLogState 0 [] []) ;;
  Ok (lg_entries st).

(** The file system, the path library and the decompressor are the
    collaborators of the reader: a read or a listing resolves or rejects,
    [snappyUncompress] returns or throws.  [spreadable] is the limit of
    the runtime on the arguments of one call of [push]. *)
Section Reader.

Variable readFile : string -> option Buffer.
Variable readdir : string -> option (list string).
Variable join : string -> string -> string.
Variable snappyUncompress : Buffer -> Z -> option Buffer.
Variable spreadable : nat -> bool.

Definition getSnappyUncompressedLength (compressed : Buffer) : Res Z :=
  '(length, _) <- readVarint compressed 0 ;;
  Ok length.

Definition decompressBlock (blockData : Buffer) (compressionType : option byte)
    : Res Buffer :=
  if strict_eq compressionType COMPRESSION_NONE then Ok blockData
  else if strict_eq compressionType COMPRESSION_SNAPPY then
    uncompressedLength <- getSnappyUncompressedLength blockData ;;
    result <- call (snappyUncompress blockData uncompressedLength) ;;
    Ok result
  else Throw "Unknown compression type".

(** The body of [for (const indexEntry of indexEntries)] in [parseSSTable]:
    [continue] and the [catch] both leave [entries] as it was; the [catch]
    is also where a block ends that has too many entries for one [push]. *)
Definition parseSSTable_block (fuel : nat) (data : Buffer)
    (indexEntry : LevelDBEntry) (entries : list LevelDBEntry)
    : Res (list LevelDBEntry) :=
  try_catch
    (blockHandle <- parseBlockHandle (value indexEntry) 0 ;;
     let blockStart := h_offset blockHandle in
     let blockEnd := h_offset blockHandle + h_size blockHandle + 5 in
     if blockEnd >? blen data then Ok entries
     else
       let blockRaw := subarray data blockStart blockEnd in
       let compressionType := at_rel blockRaw (-5) in
       let blockData := subarray blockRaw 0 (-5) in
       block <- decompressBlock blockData compressionType ;;
       blockEntries <- parseDataBlock fuel block ;;
       push_spread spreadable entries blockEntries)
    (Ok entries).

(** [parseSSTable].  The outer [catch] can only be reached before the [for]
    loop starts, when [entries] is still empty. *)
Definition parseSSTable (fuel : nat) (filePath : string)
    : Res (list LevelDBEntry) :=
  let entries := [] in
  try_or_return (await (readFile filePath)) (Ok entries) (fun data =>
    if blen data <? 48 then Ok entries
    else
      let footer := subarray_from data (-48) in
      let magic := subarray footer 40 48 in
      if negb (equals magic LEVELDB_MAGIC) then Ok entries
      else
        try_catch
          (metaHandle <- parseBlockHandle footer 0 ;;
           let metaBytes := h_bytesRead metaHandle in
           indexHandle <- parseBlockHandle footer metaBytes ;;
           let indexBlockStart := h_offset indexHandle in
           let indexBlockEnd := h_offset indexHandle + h_size indexHandle + 5 in
           if indexBlockEnd >? blen data - 48 then Ok entries
           else
             let indexBlockRaw := subarray data indexBlockStart indexBlockEnd in
             let indexCompressionType := at_rel indexBlockRaw (-5) in
             let indexBlockData := subarray indexBlockRaw 0 (-5) in
             indexBlock <- decompressBlock indexBlockData indexCompressionType ;;
             indexEntries <- parseDataBlock fuel indexBlock ;;
             for_of indexEntries (parseSSTable_block fuel data) entries)
          (Ok entries)).

Definition parseLogFile (fuel : nat) (filePath : string)
    : Res (list LevelDBEntry) :=
  let entries := [] in
  try_or_return (await (readFile filePath)) (Ok entries) (fun data =>
    parseLogData fuel data).

Definition readChromiumLevelDB (fuel : nat) (dir : string)
    : Res (list LevelDBEntry) :=
  let entries := [] in
  try_or_return (await (readdir dir)) (Ok entries) (fun files =>
    let sstFiles :=
      filter (fun f => endsWith f ".ldb" || endsWith f ".sst") files in
    entries <- for_of sstFiles (fun file entries =>
                 fileEntries <- parseSSTable fuel (join dir file) ;;
                 push_spread spreadable entries fileEntries) entries ;;
    let logFiles := filter (fun f => endsWith f ".log") files in
    entries <- for_of logFiles (fun file entries =>
                 fileEntries <- parseLogFile fuel (join dir file) ;;
                 push_spread spreadable entries fileEntries) entries ;;
    Ok entries).

Definition findKeysContaining (fuel : nat) (dir : string) (substring : Buffer)
    : Res (list LevelDBEntry) :=
  allEntries <- readChromiumLevelDB fuel dir ;;
  Ok (filter (fun entry => includes (key entry) substring) allEntries).

End Reader.

End LevelDB.


(** ** The builders of the test suite

    [tests/leveldb-reader.test.ts] builds tables and logs with these helpers;
    they give the well-formed inputs of the properties below.  Keys and
    values are taken as buffers. *)

Module Fixtures.

Import LevelDB.

(** [encodeVarint]: the [while (value > 0x7f)] loop shifts [value] down with
    [>>>= 7], so it runs at most four times. *)
Fixpoint encodeVarint_loop (n : nat) (value : Z) : Buffer :=
  match n with
  | O => [byte_of_Z value]
  | S n' =>
      if value >? 127 then
        byte_of_Z (or32 (and32 value 127) 128)
          :: encodeVarint_loop n' (Z.shiftr (toUint32 value) 7)
      else [byte_of_Z value]
  end.

Definition encodeVarint (value : Z) : Buffer := encodeVarint_loop 4 value.

(** [b.writeUInt32LE(v, 0)] and [b.writeUInt16LE(v, 0)] on a fresh buffer *)
Definition uint32LE (v : Z) : Buffer :=
  [byte_of_Z v; byte_of_Z (v / 256); byte_of_Z (v / 65536);
   byte_of_Z (v / 16777216)].

Definition uint16LE (v : Z) : Buffer := [byte_of_Z v; byte_of_Z (v / 256)].

(** [Buffer.alloc(n)] *)
Definition alloc (n : Z) : Buffer := repeat x00 (Z.to_nat n).

Record TestEntry : Type := mkTest { t_key : Buffer; t_value : Buffer }.

(** The length of the common prefix, as the [while] of [createTestSSTable]
    counts it. *)
Fixpoint sharedLength (prevKey keyBuf : Buffer) : Z :=
  match prevKey, keyBuf with
  | p :: prevKey', k :: keyBuf' =>
      if byte_eq_dec p k then 1 + sharedLength prevKey' keyBuf' else 0
  | _, _ => 0
  end.

Fixpoint dataBlockEntries (prevKey : Buffer) (entries : list TestEntry)
    : list Buffer :=
  match entries with
  | [] => []
  | e :: entries' =>
      let keyBuf := t_key e in
      let valueBuf := t_value e in
      let shared := sharedLength prevKey keyBuf in
      let nonShared := blen keyBuf - shared in
      concat [encodeVarint shared; encodeVarint nonShared;
              encodeVarint (blen valueBuf);
              subarray_from keyBuf shared; valueBuf]
        :: dataBlockEntries keyBuf entries'
  end.

Definition createTestSSTable (entries : list TestEntry) : Buffer :=
  let restarts := uint32LE 0 ++ uint32LE 1 in
  let dataBlockContent := concat (dataBlockEntries [] entries ++ [restarts]) in
  let dataBlock := concat [dataBlockContent; [x00; x00; x00; x00; x00]] in
  let dataBlockOffset := 0 in
  let dataBlockSize := blen dataBlockContent in
  let lastKey := match rev entries with e :: _ => t_key e | [] => [] end in
  let blockHandle :=
    concat [encodeVarint dataBlockOffset; encodeVarint dataBlockSize] in
  let indexEntry :=
    concat [encodeVarint 0; encodeVarint (blen lastKey);
            encodeVarint (blen blockHandle); lastKey; blockHandle] in
  let indexRestarts := uint32LE 0 ++ uint32LE 1 in
  let indexBlockContent := concat [indexEntry; indexRestarts] in
  let indexBlock := concat [indexBlockContent; [x00; x00; x00; x00; x00]] in
  let indexBlockOffset := blen dataBlock in
  let indexBlockSize := blen indexBlockContent in
  let metaindexRestarts := uint32LE 0 ++ uint32LE 1 in
  let metaindexBlockContent := metaindexRestarts in
  let metaindexBlock :=
    concat [metaindexBlockContent; [x00; x00; x00; x00; x00]] in
  let metaindexBlockOffset := blen dataBlock + blen indexBlock in
  let metaindexBlockSize := blen metaindexBlockContent in
  let metaindexHandle :=
    concat [encodeVarint metaindexBlockOffset;
            encodeVarint metaindexBlockSize] in
  let indexHandle :=
    concat [encodeVarint indexBlockOffset; encodeVarint indexBlockSize] in
  let footerContent := concat [metaindexHandle; indexHandle] in
  let padding := alloc (40 - blen footerContent) in
  let magic := [x57; xfb; x80; x8b; x24; x75; x47; xdb] in
  let footer := concat [footerContent; padding; magic] in
  concat [dataBlock; indexBlock; metaindexBlock; footer].

(** One put record of a write batch, as [createTestLogFile] writes it. *)
Definition putRecord (keyBuf valueBuf : Buffer) : Buffer :=
  concat [[x01]; encodeVarint (blen keyBuf); keyBuf;
          encodeVarint (blen valueBuf); valueBuf].

(** A log record: the 7-byte header [[crc32: 4][length: 2][type: 1]] and the
    payload.  [createTestLogFile] writes a zero checksum and type 1. *)
Definition logRecord (crc : Buffer) (type : Z) (payload : Buffer) : Buffer :=
  concat [crc; uint16LE (blen payload); [byte_of_Z type]; payload].

Definition createTestLogFile (entries : list TestEntry) : Buffer :=
  let records := map (fun e => putRecord (t_key e) (t_value e)) entries in
  let sequence := [x01; x00; x00; x00; x00; x00; x00; x00] in
  let count := uint32LE (Z.of_nat (List.length entries)) in
  let batchData := concat (sequence :: count :: records) in
  logRecord (uint32LE 0) 1 batchData.

End Fixtures.


(** ** The cookie token extraction of [src/auth/desktop.ts] *)

Module Desktop.

(** The [while (end < plain.length)] of [decryptChromiumCookieValue]: [rest]
    is the plaintext from index [end_] on. *)
Fixpoint scanToken (rest : Buffer) (end_ : Z) : Z :=
  match rest with
  | [] => end_
  | b :: rest' =>
      if (byteZ b <? 33) || (byteZ b >? 126) then end_
      else scanToken rest' (end_ + 1)
  end.

(** The key derivation, the cipher, the UTF-8 decoder and the URI decoder
    are library functions: [decipher key iv data] stands for
    [Buffer.concat([d.update(data), d.final()])] of the AES-128-CBC
    decipher [d] with automatic padding, which throws on invalid padding;
    [decodeURIComponent] throws on a malformed escape. *)
Section Decrypt.

Variable pbkdf2Sync : string -> Buffer -> Z -> Z -> string -> Buffer.
Variable decipher : Buffer -> Buffer -> Buffer -> option Buffer.
Variable toString_utf8 : Buffer -> string.
Variable decodeURIComponent : string -> option string.

(** The ciphertext proper: the input without its version prefix. *)
Definition ciphertext (encrypted : Buffer) : Buffer :=
  let prefix := toString_utf8 (subarray encrypted 0 3) in
  if String.eqb prefix "v10" || String.eqb prefix "v11"
  then subarray_from encrypted 3
  else encrypted.

Definition derivedKey (password : string) : Buffer :=
  let salt := list_byte_of_string "saltysalt" in
  pbkdf2Sync password salt 1003 16 "sha1".

Definition iv : Buffer := repeat " "%byte 16.

Definition decryptChromiumCookieValue (encrypted : Buffer) (password : string)
    : Res string :=
  if blen encrypted =? 0 then Ok ""%string
  else
    let data := ciphertext encrypted in
    let key := derivedKey password in
    plain <- call (decipher key iv data) ;;
    let marker := list_byte_of_string "xoxd-" in
    let idx := indexOf plain marker in
    if idx =? -1 then Ok (toString_utf8 plain)
    else
      let end_ := scanToken (skipn (Z.to_nat idx) plain) idx in
      let rawToken := toString_utf8 (subarray plain idx end_) in
      try_catch (call (decodeURIComponent rawToken)) (Ok rawToken).

End Decrypt.

End Desktop.

(** ** Vocabulary of the specification *)

Module Spec.

Import LevelDB Fixtures.

(** The value a varint encodes: 7 bits per byte, least significant group
    first, with no bound on its size. *)
Fixpoint varint_value (bs : list byte) : Z :=
  match bs with
  | [] => 0
  | b :: bs' => Z.land (byteZ b) 127 + 128 * varint_value bs'
  end.

(** The continuation bit of a byte. *)
Definition continues (b : byte) : bool := negb (Z.land (byteZ b) 128 =? 0).

(** [bs] is one complete varint: every byte but the last continues. *)
Fixpoint terminated (bs : list byte) : bool :=
  match bs with
  | [] => false
  | [b] => negb (continues b)
  | b :: bs' => continues b && terminated bs'
  end.

(** The last [n] bytes of a buffer. *)
Definition lastn (n : nat) (buf : Buffer) : Buffer :=
  skipn (List.length buf - n) buf.

(** [pat] lies in [buf] as a contiguous run of bytes. *)
Definition contains_run (pat buf : Buffer) : Prop :=
  exists pre post, buf = pre ++ pat ++ post.

(** [pat] lies in [buf] at index [i]. *)
Definition occurs_at (pat buf : Buffer) (i : nat) : Prop :=
  exists pre post, buf = pre ++ pat ++ post /\ List.length pre = i.

Definition first_occurrence (pat buf : Buffer) (i : nat) : Prop :=
  occurs_at pat buf i /\ forall j, (j < i)%nat -> ~ occurs_at pat buf j.

(** The printable ASCII range 0x21..0x7E. *)
Definition printable (b : byte) : Prop := 33 <= byteZ b <= 126.

(** The operations of a write batch. *)
Inductive BatchOp : Type :=
| Put (k v : Buffer)
| Delete (k : Buffer).

(** The record of an operation: a put as [createTestLogFile] writes it, a
    delete as tag 0, the key length and the key. *)
Definition encode_op (op : BatchOp) : Buffer :=
  match op with
  | Put k v => putRecord k v
  | Delete k => concat [[x00]; encodeVarint (blen k); k]
  end.

Definition encode_ops (ops : list BatchOp) : Buffer :=
  concat (map encode_op ops).

(** The entries of the put operations, in order. *)
Fixpoint puts_of (ops : list BatchOp) : list LevelDBEntry :=
  match ops with
  | [] => []
  | Put k v :: ops' => mkEntry k v :: puts_of ops'
  | Delete _ :: ops' => puts_of ops'
  end.

Definition is_put (op : BatchOp) : bool :=
  match op with
  | Put _ _ => true
  | Delete _ => false
  end.

(** What ends the decoding of a batch, seen from the first byte that is not
    part of a decoded record: the end of the buffer, a tag other than 0 and
    1, a tag whose key length cannot be decoded, or a put whose value length
    cannot be decoded behind its key. *)
Inductive stops_decoding : Buffer -> Prop :=
| stop_exhausted : stops_decoding []
| stop_unknown_tag t rest :
    byteZ t <> 0 -> byteZ t <> 1 -> stops_decoding (t :: rest)
| stop_key_error t rest msg :
    readVarint (t :: rest) 1 = Throw msg -> stops_decoding (t :: rest)
| stop_value_error rest keyLen n1 msg :
    readVarint (x01 :: rest) 1 = Ok (keyLen, n1) ->
    0 <= 1 + n1 + keyLen ->
    readVarint (x01 :: rest) (1 + n1 + keyLen) = Throw msg ->
    stops_decoding (x01 :: rest).

(** The entries a block decodes to from offset [o] on, [prev] being the key
    before: each entry is described by the three varints at its offset, its
    key being the slice [prev[0:shared]] followed by the [nonShared] bytes
    behind the varints. *)
Inductive key_chain (block : Buffer)
    : Z -> Buffer -> list LevelDBEntry -> Prop :=
| chain_end o prev : key_chain block o prev []
| chain_entry o prev shared n1 nonShared n2 valueLen n3 es :
    readVarint block o = Ok (shared, n1) ->
    readVarint block (o + n1) = Ok (nonShared, n2) ->
    readVarint block (o + n1 + n2) = Ok (valueLen, n3) ->
    let o3 := o + n1 + n2 + n3 in
    let k := subarray prev 0 shared ++ subarray block o3 (o3 + nonShared) in
    let v := subarray block (o3 + nonShared) (o3 + nonShared + valueLen) in
    key_chain block (o3 + nonShared + valueLen) k es ->
    key_chain block o prev (mkEntry k v :: es).

(** The table and log readers as the scanner applies them to a name. *)
Definition is_table (f : string) : bool :=
  endsWith f ".ldb" || endsWith f ".sst".

Definition is_log (f : string) : bool := endsWith f ".log".

End Spec.
(** ** The selection of the local configuration in [src/auth/desktop.ts] *)

Module Teams.

Import LevelDB.

Definition localConfigV : Buffer := list_byte_of_string "localConfig_v".
Definition localConfigV2 : Buffer := list_byte_of_string "localConfig_v2".
Definition localConfigV3 : Buffer := list_byte_of_string "localConfig_v3".

(** The [for (const entry of entries)] of [extractTeamsFromSlackLevelDb]
    that picks [configBuf]: the value of the first entry whose key names
    one of the two configurations and whose value is not empty. *)
Fixpoint findConfigBuf (entries : list LevelDBEntry) : option Buffer :=
  match entries with
  | [] => None
  | entry :: entries' =>
      if (includes (key entry) localConfigV2
          || includes (key entry) localConfigV3)
         && (blen (value entry) >? 0)
      then Some (value entry)
      else findConfigBuf entries'
  end.

End Teams.

(** ** The package version of [src/lib/version.ts] *)

Module Version.

(** What one call of [getPackageVersion] sees around it: the build-time
    constant when it is a string, the two environment variables, the path
    of the module ([None] when it cannot be resolved), and the file system
    and JSON functions of the search for [package.json].  [JSON_version]
    stands for [JSON.parse(raw)] followed by the read of [version]: [None]
    when the parse throws, [Some None] when the version is not a string. *)
Record World : Type :=
  mkWorld {
    AGENT_SLACK_BUILD_VERSION : option string;
    env_AGENT_SLACK_VERSION : option string;
    env_npm_package_version : option string;
    modulePath : option string;
    dirname : string -> string;
    join : string -> string -> string;
    existsSync : string -> bool;
    readFileSync : string -> option string;
    JSON_version : string -> option (option string)
  }.

(** A string in a condition: the empty string is false. *)
Definition truthy (s : string) : bool := negb (String.eqb s "").

(** [a || b] on strings *)
Definition or_else (a b : string) : string := if truthy a then a else b.

Section PackageVersion.

Variable trim : string -> string.

(** [process.env.X?.trim()], with [undefined] read as a falsy string. *)
Definition trimmed (v : option string) : string :=
  match v with
  | Some s => trim s
  | None => ""%string
  end.

(** The [for (let i = 0; i < 6; i++)] of the search: [Some v] is a
    [return] from inside the loop, [None] its end. *)
Fixpoint searchPackage (w : World) (n : nat) (dir : string)
    : Res (option string) :=
  match n with
  | O => Ok None
  | S n' =>
      let candidate := join w dir "package.json" in
      if existsSync w candidate then
        raw <- call (readFileSync w candidate) ;;
        version <- call (JSON_version w raw) ;;
        let v := match version with
                 | Some s => trim s
                 | None => ""%string
                 end in
        Ok (Some (or_else v "0.0.0"))
      else
        let next := dirname w dir in
        if String.eqb next dir then Ok None
        else searchPackage w n' next
  end.

(** [getPackageVersion]: the result and the cache after the call. *)
Definition getPackageVersion (cachedVersion : option string) (w : World)
    : string * option string :=
  match cachedVersion with
  | Some v => (v, cachedVersion)
  | None =>
      let build := match AGENT_SLACK_BUILD_VERSION w with
                   | Some s => s
                   | None => ""%string
                   end in
      if truthy build then (build, Some build)
      else
        let envVersion :=
          or_else (trimmed (env_AGENT_SLACK_VERSION w))
            (trimmed (env_npm_package_version w)) in
        if truthy envVersion then (envVersion, Some envVersion)
        else
          match
            try_catch
              (dir <- call (option_map (dirname w) (modulePath w)) ;;
               searchPackage w 6 dir)
              (Ok None)
          with
          | Ok (Some v) => (v, Some v)
          | _ => ("0.0.0"%string, Some "0.0.0"%string)
          end
  end.

Definition getUserAgent (cachedVersion : option string) (w : World)
    : string * option string :=
  let '(v, cache) := getPackageVersion cachedVersion w in
  (("agent-slack/" ++ v)%string, cache).

End PackageVersion.

End Version.

(** ** Vocabulary of the further properties *)

Module SpecExtra.

Import LevelDB Fixtures Spec.

(** A write batch in a log: the checksum of its record, its 12-byte header
    and its operations. *)
Record LogBatch : Type :=
  mkLogBatch { lb_crc : Buffer; lb_header : Buffer; lb_ops : list BatchOp }.

Definition batch_payload (b : LogBatch) : Buffer :=
  lb_header b ++ encode_ops (lb_ops b).

(** The FULL record of a batch. *)
Definition full_record (b : LogBatch) : Buffer :=
  logRecord (lb_crc b) 1 (batch_payload b).

Definition well_formed_batch (b : LogBatch) : Prop :=
  List.length (lb_crc b) = 4%nat /\ List.length (lb_header b) = 12%nat.

(** Any record of a log: checksum, type and payload. *)
Record LogRec : Type :=
  mkLogRec { lr_crc : Buffer; lr_type : Z; lr_payload : Buffer }.

Definition any_record (r : LogRec) : Buffer :=
  logRecord (lr_crc r) (lr_type r) (lr_payload r).

(** The end of a log file that a write did not complete: fewer bytes than
    a header, or a header that declares no payload or more payload than
    the file holds. *)
Inductive torn_tail : Buffer -> Prop :=
| torn_header (t : Buffer) : blen t < 7 -> torn_tail t
| torn_payload (crc : Buffer) (declared : Z) (type : byte)
    (partial : Buffer) :
    List.length crc = 4%nat ->
    0 <= declared < 65536 ->
    declared = 0 \/ blen partial < declared ->
    torn_tail (crc ++ uint16LE declared ++ [type] ++ partial).

(** The names the scanner reads. *)
Definition is_scanned (f : string) : bool := is_table f || is_log f.

(** A directory with a file too large for the scanner: a table or a log
    of the listing that its reader decodes into more entries than one call
    of [push] accepts. *)
Definition oversized_file (readFile : string -> option Buffer)
    (readdir : string -> option (list string))
    (join : string -> string -> string)
    (snappyUncompress : Buffer -> Z -> option Buffer)
    (spreadable : nat -> bool) (fuel : nat) (dir : string) : Prop :=
  exists files file fileEntries,
    readdir dir = Some files /\ In file files /\
    (is_table file = true /\
     parseSSTable readFile snappyUncompress spreadable fuel (join dir file)
     = Ok fileEntries \/
     is_log file = true /\
     parseLogFile readFile fuel (join dir file) = Ok fileEntries) /\
    spreadable (List.length fileEntries) = false.

(** An entry whose key names one of the two local configurations, and one
    the selection of the configuration passes over. *)
Definition names_config (e : LevelDBEntry) : Prop :=
  contains_run Teams.localConfigV2 (key e) \/
  contains_run Teams.localConfigV3 (key e).

Definition passed_over (e : LevelDBEntry) : Prop :=
  ~ names_config e \/ value e = [].

End SpecExtra.

(** * Properties *)

Import LevelDB Fixtures Spec SpecExtra.

(** ** Arithmetic of the 32-bit operators *)

Section Int32.

Lemma byteZ_range (b : byte) : 0 <= byteZ b < 256.
Proof.
  unfold byteZ. pose proof (Byte.to_N_bounded b) as H.
  split; [apply N2Z.is_nonneg|].
  apply N2Z.inj_le in H. simpl in H. lia.
Qed.

Lemma num_range (o : option byte) : 0 <= num o < 256.
Proof. destruct o; simpl; [apply byteZ_range | lia]. Qed.

Lemma toInt32_unique (z r q : Z) :
  z = r + 2 ^ 32 * q -> - 2 ^ 31 <= r < 2 ^ 31 -> toInt32 z = r.
Proof.
  intros -> Hr. unfold toInt32.
  replace (r + 2 ^ 32 * q + 2 ^ 31) with (r + 2 ^ 31 + q * 2 ^ 32) by ring.
  rewrite Z_mod_plus_full, Z.mod_small; lia.
Qed.

Lemma toInt32_small (z : Z) : - 2 ^ 31 <= z < 2 ^ 31 -> toInt32 z = z.
Proof. intros H. apply (toInt32_unique z z 0); lia. Qed.

Lemma toInt32_range (z : Z) : - 2 ^ 31 <= toInt32 z < 2 ^ 31.
Proof.
  unfold toInt32.
  pose proof (Z.mod_pos_bound (z + 2 ^ 31) (2 ^ 32) ltac:(lia)). lia.
Qed.

Lemma toInt32_decomp (z : Z) : exists q, toInt32 z = z - 2 ^ 32 * q.
Proof.
  exists ((z + 2 ^ 31) / 2 ^ 32). unfold toInt32.
  rewrite Z.mod_eq by lia. ring.
Qed.

Lemma toInt32_mod (z : Z) : toInt32 z mod 2 ^ 32 = z mod 2 ^ 32.
Proof.
  destruct (toInt32_decomp z) as [q ->].
  replace (z - 2 ^ 32 * q) with (z + (- q) * 2 ^ 32) by ring.
  apply Z_mod_plus_full.
Qed.

Lemma toInt32_add_high (a b : Z) : toInt32 (a + b * 2 ^ 32) = toInt32 a.
Proof.
  destruct (toInt32_decomp a) as [q Hq].
  apply (toInt32_unique _ _ (q + b)); [rewrite Hq; ring | apply toInt32_range].
Qed.

(** Bits below [2^s] and a multiple of [2^s] do not overlap. *)
Lemma lor_disjoint (v m s : Z) :
  0 <= s -> 0 <= v < 2 ^ s -> Z.lor v (m * 2 ^ s) = v + m * 2 ^ s.
Proof.
  intros Hs Hv.
  rewrite <- (Z.add_lor_land v (m * 2 ^ s)).
  assert (Z.land v (m * 2 ^ s) = 0) as ->; [|lia].
  apply Z.bits_inj'. intros i Hi.
  rewrite Z.land_spec, Z.bits_0.
  destruct (Z.lt_ge_cases i s) as [Hlt | Hge].
  - rewrite (Z.mul_pow2_bits_low m s i) by lia. apply andb_false_r.
  - destruct (Z.eq_dec v 0) as [-> | Hnz]; [now rewrite Z.bits_0|].
    rewrite (Z.bits_above_log2 v i); [reflexivity | lia |].
    apply Z.lt_le_trans with s; [|lia].
    apply Z.log2_lt_pow2; lia.
Qed.

Lemma and32_byte (o : option byte) (m : Z) :
  0 <= m < 256 -> and32 (num o) m = Z.land (num o) m.
Proof.
  intros Hm. pose proof (num_range o). unfold and32.
  rewrite !toInt32_small; lia.
Qed.

Lemma land_127_range (x : Z) : 0 <= Z.land x 127 < 128.
Proof.
  change 127 with (Z.ones 7). rewrite Z.land_ones by lia.
  apply Z.mod_pos_bound. lia.
Qed.

(** [result |= x << s] adds the group [x] at bit [s] when [result] lies
    below [2^s]; the sum wraps to 32 bits. *)
Lemma or32_shl32_group (v x k : Z) :
  0 <= k <= 4 -> 0 <= v < 2 ^ (7 * k) -> 0 <= x < 128 ->
  or32 v (shl32 x (7 * k)) = toInt32 (v + x * 2 ^ (7 * k)).
Proof.
  intros Hk Hv Hx.
  assert (Hs : Z.land (7 * k) 31 = 7 * k).
  { change 31 with (Z.ones 5). rewrite Z.land_ones by lia.
    apply Z.mod_small. change (2 ^ 5) with 32. lia. }
  assert (Hpow : 0 < 2 ^ (7 * k) <= 2 ^ 28).
  { split; [apply Z.pow_pos_nonneg; lia | apply Z.pow_le_mono_r; lia]. }
  unfold or32, shl32. rewrite Hs.
  rewrite (toInt32_small v) by lia.
  rewrite (toInt32_small x) by lia.
  rewrite Z.shiftl_mul_pow2 by lia.
  rewrite (toInt32_small (toInt32 _)) by apply toInt32_range.
  pose proof (toInt32_range (x * 2 ^ (7 * k))) as Hr.
  destruct (toInt32_decomp (x * 2 ^ (7 * k))) as [q Hq].
  assert (Hsplit : 2 ^ 32 = 2 ^ (32 - 7 * k) * 2 ^ (7 * k)).
  { rewrite <- Z.pow_add_r by lia. f_equal. lia. }
  assert (Hm : toInt32 (x * 2 ^ (7 * k))
               = (x - 2 ^ (32 - 7 * k) * q) * 2 ^ (7 * k)).
  { rewrite Hq, Hsplit. ring. }
  rewrite Hm, lor_disjoint by lia. rewrite <- Hm.
  symmetry. apply (toInt32_unique _ _ q); [rewrite Hq; ring|].
  assert (H31 : 2 ^ 31 = 2 ^ (31 - 7 * k) * 2 ^ (7 * k)).
  { rewrite <- Z.pow_add_r by lia. f_equal. lia. }
  rewrite Hm in Hr |- *.
  set (m := x - 2 ^ (32 - 7 * k) * q) in *.
  set (p := 2 ^ (7 * k)) in *.
  set (h := 2 ^ (31 - 7 * k)) in *.
  rewrite H31 in *.
  assert (m < h) by nia.
  assert (- h <= m) by nia.
  nia.
Qed.

End Int32.

(** ** Buffers and indices *)

Section BufferFacts.

Lemma at_skipn (buf : Buffer) (offset : Z) (k : nat) :
  0 <= offset ->
  at_ buf (offset + Z.of_nat k) = nth_error (skipn (Z.to_nat offset) buf) k.
Proof.
  intros Ho. unfold at_.
  destruct (Z.ltb_spec (offset + Z.of_nat k) 0); [lia|].
  rewrite nth_error_skipn. f_equal. lia.
Qed.

Lemma blen_skipn (buf : Buffer) (offset : Z) (k : nat) :
  0 <= offset ->
  offset + Z.of_nat k < blen buf <->
  (k < List.length (skipn (Z.to_nat offset) buf))%nat.
Proof. intros Ho. unfold blen. rewrite length_skipn. lia. Qed.

Lemma firstn_snoc (bs : Buffer) (k : nat) (b : byte) :
  nth_error bs k = Some b -> firstn (S k) bs = firstn k bs ++ [b].
Proof.
  revert k. induction bs as [|a bs IH]; intros [|k] H; simpl in *;
    try discriminate.
  - now inversion H.
  - now rewrite (IH k H).
Qed.

End BufferFacts.

(** ** Varints *)

Section Varints.

Lemma varint_value_snoc (l : list byte) (b : byte) :
  varint_value (l ++ [b])
  = varint_value l + Z.land (byteZ b) 127 * 2 ^ (7 * Z.of_nat (List.length l)).
Proof.
  induction l as [|a l IH].
  - simpl. lia.
  - cbn [app varint_value List.length]. rewrite IH.
    replace (7 * Z.of_nat (S (List.length l)))
      with (7 + 7 * Z.of_nat (List.length l)) by lia.
    rewrite Z.pow_add_r by lia. change (2 ^ 7) with 128. ring.
Qed.

Lemma varint_value_range (l : list byte) :
  0 <= varint_value l < 2 ^ (7 * Z.of_nat (List.length l)).
Proof.
  induction l as [|a l IH].
  - simpl. lia.
  - cbn [varint_value List.length].
    replace (7 * Z.of_nat (S (List.length l)))
      with (7 + 7 * Z.of_nat (List.length l)) by lia.
    rewrite Z.pow_add_r by lia. change (2 ^ 7) with 128.
    pose proof (land_127_range (byteZ a)). lia.
Qed.

Lemma terminated_snoc (l : list byte) (b : byte) :
  forallb continues l = true -> continues b = false ->
  terminated (l ++ [b]) = true.
Proof.
  induction l as [|a l IH]; intros Hl Hb.
  - simpl. now rewrite Hb.
  - simpl in Hl. apply andb_prop in Hl as [Ha Hl].
    cbn [app terminated]. rewrite Ha, (IH Hl Hb).
    destruct (l ++ [b]) eqn:E; [now destruct l | reflexivity].
Qed.

(** The accumulator of [readVarint64] after [k] bytes is the value of these
    bytes wrapped to 32 bits: groups at bit 32 and above are left out. *)
Lemma readVarint64_accumulate (k : nat) (V x : Z) :
  0 <= V < 2 ^ (7 * Z.of_nat k) -> 0 <= x < 128 ->
  (if 7 * Z.of_nat k <? 32
   then or32 (toInt32 V) (shl32 x (7 * Z.of_nat k))
   else toInt32 V)
  = toInt32 (V + x * 2 ^ (7 * Z.of_nat k)).
Proof.
  intros HV Hx. destruct (Z.ltb_spec (7 * Z.of_nat k) 32) as [Hlt | Hge].
  - assert (2 ^ (7 * Z.of_nat k) <= 2 ^ 28) by (apply Z.pow_le_mono_r; lia).
    rewrite (toInt32_small V) by lia.
    apply or32_shl32_group; lia.
  - replace (7 * Z.of_nat k) with (7 * Z.of_nat k - 32 + 32) at 1 by lia.
    rewrite Z.pow_add_r by lia.
    rewrite Z.mul_assoc, toInt32_add_high. reflexivity.
Qed.

Lemma readVarint64_loop_spec (n : nat) (buf : Buffer) (offset : Z) :
  0 <= offset ->
  forall (k : nat) (v m : Z),
    let bs := skipn (Z.to_nat offset) buf in
    forallb continues (firstn k bs) = true ->
    (k <= List.length bs)%nat ->
    readVarint64_loop n buf offset (toInt32 (varint_value (firstn k bs)))
      (7 * Z.of_nat k) (Z.of_nat k) = Ok (v, m) ->
    exists j : nat,
      m = Z.of_nat j /\ (k < j <= 10)%nat /\ (j <= List.length bs)%nat /\
      terminated (firstn j bs) = true /\
      v = varint_value (firstn j bs) mod 2 ^ 32.
Proof.
  intros Ho. induction n as [|n IH]; intros k v m bs Hc Hk Hrun;
    [discriminate|].
  cbn [readVarint64_loop] in Hrun.
  destruct (Z.ltb_spec (offset + Z.of_nat k) (blen buf)) as [Hin|];
    [|discriminate].
  destruct (Z.ltb_spec (Z.of_nat k) 10) as [Hten|]; [|discriminate].
  cbn [andb] in Hrun.
  apply blen_skipn in Hin; [|assumption]. fold bs in Hin.
  rewrite at_skipn in Hrun by assumption. fold bs in Hrun.
  destruct (nth_error bs k) as [b|] eqn:Hb;
    [|apply nth_error_None in Hb; lia].
  cbn [num] in Hrun.
  pose proof (byteZ_range b) as Hbr.
  change (byteZ b) with (num (Some b)) in Hrun.
  rewrite !and32_byte in Hrun by lia. cbn [num] in Hrun.
  pose proof (varint_value_range (firstn k bs)) as HV.
  rewrite length_firstn, Nat.min_l in HV by lia.
  rewrite (readVarint64_accumulate k) in Hrun
    by (assumption || apply land_127_range).
  assert (Hsnoc : varint_value (firstn (S k) bs)
                  = varint_value (firstn k bs)
                    + Z.land (byteZ b) 127 * 2 ^ (7 * Z.of_nat k)).
  { rewrite (firstn_snoc bs k b Hb), varint_value_snoc.
    rewrite length_firstn, Nat.min_l by lia. reflexivity. }
  rewrite <- Hsnoc in Hrun.
  destruct (Z.eqb_spec (Z.land (byteZ b) 128) 0) as [Hstop | Hgo].
  - injection Hrun as <- <-. exists (S k).
    repeat split; try lia.
    + rewrite (firstn_snoc bs k b Hb). apply terminated_snoc; [assumption|].
      unfold continues. now rewrite Hstop.
    + unfold ushr0, toUint32. apply toInt32_mod.
  - replace (7 * Z.of_nat k + 7) with (7 * Z.of_nat (S k)) in Hrun by lia.
    replace (Z.of_nat k + 1) with (Z.of_nat (S k)) in Hrun by lia.
    apply IH in Hrun.
    + destruct Hrun as (j & Hm & Hj & Hlen & Hterm & Hv).
      exists j. repeat split; try assumption; lia.
    + fold bs. rewrite (firstn_snoc bs k b Hb), forallb_app, Hc. cbn.
      unfold continues. destruct (Z.eqb_spec (Z.land (byteZ b) 128) 0);
        [contradiction | reflexivity].
    + fold bs. lia.
Qed.

End Varints.

(** C8: [readVarint64] consumes one complete varint of at most 10 bytes and
    returns its value modulo 2^32: the full value, and so the value as a
    64-bit number, with only the low 32 bits kept. *)
Theorem readVarint64_low_32_bits (buf : Buffer) (offset v n : Z) :
  0 <= offset ->
  readVarint64 buf offset = Ok (v, n) ->
  let bs := firstn (Z.to_nat n) (skipn (Z.to_nat offset) buf) in
  1 <= n <= 10 /\
  blen bs = n /\
  terminated bs = true /\
  v = varint_value bs mod 2 ^ 32 /\
  v = (varint_value bs mod 2 ^ 64) mod 2 ^ 32.
Proof.
  intros Ho Hrun bs. unfold readVarint64 in Hrun.
  destruct (readVarint64_loop_spec 10 buf offset Ho 0 v n) as
    (j & Hn & Hj & Hlen & Hterm & Hv); try (reflexivity || assumption).
  { simpl. lia. }
  subst n. unfold bs. rewrite Nat2Z.id.
  assert (Hb : blen (firstn j (skipn (Z.to_nat offset) buf)) = Z.of_nat j).
  { unfold blen. rewrite length_firstn. lia. }
  repeat split; try assumption; try lia.
  rewrite Z.mod_mod_divide; [assumption|].
  exists (2 ^ 32). reflexivity.
Qed.

Lemma readVarint64_low_32_bits_witness :
  let buf := [x00; xff; xff; xff; xff; xff; x01; x07] in
  0 <= 1 /\
  readVarint64 buf 1 = Ok (4294967295, 6) /\
  4294967295 = (varint_value (firstn 6 (skipn 1 buf)) mod 2 ^ 64) mod 2 ^ 32.
Proof.
  intros buf. split; [lia|]. split; [reflexivity|].
  exact (proj2 (proj2 (proj2 (proj2
    (readVarint64_low_32_bits buf 1 4294967295 6 ltac:(lia) eq_refl))))).
Defined.

(** ** The varint writer against the varint reader *)

Section VarintRoundTrip.

Lemma byteZ_byte_of_Z (z : Z) : 0 <= z < 256 -> byteZ (byte_of_Z z) = z.
Proof.
  intros Hz. unfold byteZ, byte_of_Z. rewrite Z.mod_small by assumption.
  destruct (Byte.of_N (Z.to_N z)) as [b|] eqn:E.
  - apply Byte.to_of_N in E. rewrite E. lia.
  - apply Byte.of_N_None_iff in E. lia.
Qed.

Lemma blen_app (a b : Buffer) : blen (a ++ b) = blen a + blen b.
Proof. unfold blen. rewrite length_app. lia. Qed.

Lemma blen_nonneg (a : Buffer) : 0 <= blen a.
Proof. unfold blen. lia. Qed.

Lemma blen_cons (b : byte) (a : Buffer) : blen (b :: a) = 1 + blen a.
Proof. unfold blen. cbn [List.length]. lia. Qed.

Lemma at_app_r (pre buf : Buffer) (i : Z) :
  0 <= i -> at_ (pre ++ buf) (blen pre + i) = at_ buf i.
Proof.
  intros Hi. unfold at_, blen.
  destruct (Z.ltb_spec (Z.of_nat (List.length pre) + i) 0); [lia|].
  destruct (Z.ltb_spec i 0); [lia|].
  rewrite nth_error_app2 by lia. f_equal. lia.
Qed.

Lemma at_middle (pre : Buffer) (b : byte) (post : Buffer) :
  at_ (pre ++ b :: post) (blen pre) = Some b.
Proof.
  replace (blen pre) with (blen pre + 0) by lia.
  rewrite at_app_r by lia. reflexivity.
Qed.

(** The reader sees the same varint behind a prefix. *)
Lemma readVarint_loop_app_r (pre buf : Buffer) (o : Z) (n : nat) :
  0 <= o ->
  forall result shift bytesRead,
    0 <= bytesRead ->
    readVarint_loop n (pre ++ buf) (blen pre + o) result shift bytesRead
    = readVarint_loop n buf o result shift bytesRead.
Proof.
  intros Ho. induction n as [|n IH]; intros result shift bytesRead Hb;
    [reflexivity|].
  cbn [readVarint_loop].
  rewrite blen_app.
  replace (blen pre + o + bytesRead) with (blen pre + (o + bytesRead)) by lia.
  rewrite at_app_r by lia.
  destruct (Z.ltb_spec (blen pre + (o + bytesRead)) (blen pre + blen buf));
    destruct (Z.ltb_spec (o + bytesRead) (blen buf)); try lia;
    [|reflexivity].
  destruct (and32 (num (at_ buf (o + bytesRead))) 128 =? 0); [reflexivity|].
  destruct (shift + 7 >=? 35); [reflexivity|].
  apply IH. lia.
Qed.

Lemma readVarint_app_r (pre buf : Buffer) (o : Z) :
  0 <= o -> readVarint (pre ++ buf) (blen pre + o) = readVarint buf o.
Proof. intros Ho. apply readVarint_loop_app_r; lia. Qed.

(** The counter of [readVarint_loop] never decides: from a shift below 35,
    any two counters that allow the remaining iterations agree. *)
Lemma readVarint_counter (buf : Buffer) (offset : Z) (n m : nat) :
  forall (k : nat) result bytesRead,
    (k < 5)%nat -> (5 <= k + n)%nat -> (5 <= k + m)%nat ->
    readVarint_loop n buf offset result (7 * Z.of_nat k) bytesRead
    = readVarint_loop m buf offset result (7 * Z.of_nat k) bytesRead.
Proof.
  revert m. induction n as [|n IH]; intros m k result bytesRead Hk Hn Hm;
    [lia|].
  destruct m as [|m]; [lia|].
  cbn [readVarint_loop].
  destruct (offset + bytesRead <? blen buf); [|reflexivity].
  destruct (and32 _ 128 =? 0); [reflexivity|].
  destruct (Z.geb_spec (7 * Z.of_nat k + 7) 35); [reflexivity|].
  replace (7 * Z.of_nat k + 7) with (7 * Z.of_nat (S k)) by lia.
  apply IH; lia.
Qed.

Lemma land_disjoint (v m s : Z) :
  0 <= s -> 0 <= v < 2 ^ s -> Z.land v (m * 2 ^ s) = 0.
Proof.
  intros Hs Hv. pose proof (lor_disjoint v m s Hs Hv) as H.
  pose proof (Z.add_lor_land v (m * 2 ^ s)). lia.
Qed.

Lemma and32_small (x m : Z) :
  0 <= x < 2 ^ 31 -> 0 <= m < 2 ^ 31 -> and32 x m = Z.land x m.
Proof. intros Hx Hm. unfold and32. rewrite !toInt32_small; lia. Qed.

Lemma land_127_mod (v : Z) : Z.land v 127 = v mod 128.
Proof. change 127 with (Z.ones 7). now rewrite Z.land_ones by lia. Qed.

(** A byte the writer emits before the last one: the low group with the
    continuation bit. *)
Lemma continuation_byte (v : Z) :
  0 <= v < 2 ^ 31 ->
  let b := byte_of_Z (or32 (and32 v 127) 128) in
  Z.land (byteZ b) 127 = v mod 128 /\ Z.land (byteZ b) 128 <> 0.
Proof.
  intros Hv b.
  pose proof (land_127_range v) as Hx.
  assert (Hb : byteZ b = Z.lor (Z.land v 127) 128).
  { unfold b. rewrite and32_small by lia. unfold or32.
    rewrite !toInt32_small by lia.
    apply byteZ_byte_of_Z.
    change 128 with (1 * 2 ^ 7) at 1 2. rewrite lor_disjoint; lia. }
  rewrite Hb, !Z.land_lor_distr_l.
  rewrite <- Z.land_assoc. change (Z.land 127 127) with 127.
  change (Z.land 128 127) with 0. rewrite Z.lor_0_r.
  rewrite <- Z.land_assoc. change (Z.land 127 128) with 0.
  rewrite Z.land_0_r. change (Z.land 128 128) with 128.
  rewrite Z.lor_0_l. split; [apply land_127_mod | lia].
Qed.

(** The last byte the writer emits: a value of at most 7 bits. *)
Lemma final_byte (v : Z) :
  0 <= v <= 127 ->
  Z.land (byteZ (byte_of_Z v)) 127 = v /\
  Z.land (byteZ (byte_of_Z v)) 128 = 0.
Proof.
  intros Hv. rewrite byteZ_byte_of_Z by lia. split.
  - rewrite land_127_mod. apply Z.mod_small. lia.
  - change 128 with (1 * 2 ^ 7). apply land_disjoint; lia.
Qed.

Lemma encodeVarint_loop_nonempty (n : nat) (v : Z) :
  1 <= blen (encodeVarint_loop n v).
Proof.
  destruct n; cbn [encodeVarint_loop]; [|destruct (v >? 127)];
    rewrite blen_cons; match goal with |- 1 <= 1 + blen ?l =>
      pose proof (blen_nonneg l) end; lia.
Qed.

Lemma readVarint_loop_S (n : nat) (buf : Buffer)
    (offset result shift bytesRead : Z) :
  readVarint_loop (S n) buf offset result shift bytesRead
  = if offset + bytesRead <? blen buf then
      let byte := at_ buf (offset + bytesRead) in
      let result' := or32 result (shl32 (and32 (num byte) 127) shift) in
      if and32 (num byte) 128 =? 0 then Ok (result', bytesRead + 1)
      else if shift + 7 >=? 35 then Throw "Varint too long"
           else readVarint_loop n buf offset result' (shift + 7)
                  (bytesRead + 1)
    else Throw "Unexpected end of buffer reading varint".
Proof. reflexivity. Qed.

Lemma readVarint_loop_encode (ne : nat) :
  forall (k : nat) (r v : Z) (done post : Buffer),
    List.length done = k -> (ne + k = 4)%nat ->
    0 <= r < 2 ^ (7 * Z.of_nat k) -> 0 <= v ->
    r + v * 2 ^ (7 * Z.of_nat k) < 2 ^ 31 ->
    readVarint_loop (S ne) (done ++ encodeVarint_loop ne v ++ post) 0
      r (7 * Z.of_nat k) (Z.of_nat k)
    = Ok (r + v * 2 ^ (7 * Z.of_nat k),
          Z.of_nat k + blen (encodeVarint_loop ne v)).
Proof.
  assert (Hstep : forall (k : nat) (r x : Z) (b : byte) (done rest : Buffer),
    List.length done = k -> (k <= 4)%nat ->
    0 <= r < 2 ^ (7 * Z.of_nat k) -> 0 <= x < 128 ->
    r + x * 2 ^ (7 * Z.of_nat k) < 2 ^ 31 ->
    Z.land (byteZ b) 127 = x ->
    (0 + Z.of_nat k <? blen (done ++ b :: rest)) = true /\
    at_ (done ++ b :: rest) (0 + Z.of_nat k) = Some b /\
    or32 r (shl32 (and32 (num (Some b)) 127) (7 * Z.of_nat k))
    = r + x * 2 ^ (7 * Z.of_nat k)).
  { intros k r x b done rest Hd Hk Hr Hx HT Hb.
    rewrite Z.add_0_l.
    replace (Z.of_nat k) with (blen done) by (unfold blen; lia).
    rewrite at_middle, blen_app, blen_cons.
    pose proof (blen_nonneg rest).
    split; [apply Z.ltb_lt; lia|]. split; [reflexivity|].
    rewrite and32_byte by lia. cbn [num]. rewrite Hb.
    replace (blen done) with (Z.of_nat k) by (unfold blen; lia).
    rewrite or32_shl32_group by lia.
    apply toInt32_small.
    assert (0 <= x * 2 ^ (7 * Z.of_nat k)) by (apply Z.mul_nonneg_nonneg; lia).
    lia. }
  induction ne as [|ne IH]; intros k r v done post Hd Hk Hr Hv HT.
  - assert (k = 4)%nat by lia. revert Hd. subst k. intros Hd.
    assert (E : 2 ^ (7 * Z.of_nat 4) = 268435456) by reflexivity.
    assert (v < 8) by (rewrite E in HT, Hr; lia).
    destruct (final_byte v ltac:(lia)) as [H127 H128].
    destruct (Hstep 4%nat r v (byte_of_Z v) done post Hd ltac:(lia) Hr
                ltac:(lia) HT H127) as (Hc & Ha & Hres).
    cbn [encodeVarint_loop app]. rewrite readVarint_loop_S.
    cbv zeta. rewrite Hc, Ha, Hres.
    rewrite and32_byte by lia. cbn [num]. rewrite H128. reflexivity.
  - cbn [encodeVarint_loop].
    assert (Hpow : 0 < 2 ^ (7 * Z.of_nat k)) by (apply Z.pow_pos_nonneg; lia).
    destruct (Z.gtb_spec v 127) as [Hbig | Hsmall].
    + assert (Hv31 : v < 2 ^ 31) by nia.
      destruct (continuation_byte v ltac:(lia)) as [H127 H128].
      set (b := byte_of_Z (or32 (and32 v 127) 128)) in *.
      pose proof (Z.mod_pos_bound v 128 ltac:(lia)) as Hmod.
      pose proof (Z.div_mod v 128 ltac:(lia)) as Hdm.
      assert (Hsh : Z.shiftr (toUint32 v) 7 = v / 128).
      { unfold toUint32. rewrite Z.mod_small by lia.
        rewrite Z.shiftr_div_pow2 by lia. reflexivity. }
      rewrite Hsh.
      assert (Hp7 : 2 ^ (7 * Z.of_nat (S k)) = 128 * 2 ^ (7 * Z.of_nat k)).
      { replace (7 * Z.of_nat (S k)) with (7 + 7 * Z.of_nat k) by lia.
        rewrite Z.pow_add_r by lia. reflexivity. }
      assert (Hdiv : 1 <= v / 128) by (apply Z.div_le_lower_bound; lia).
      assert (HT' : r + v mod 128 * 2 ^ (7 * Z.of_nat k)
                    + v / 128 * 2 ^ (7 * Z.of_nat (S k))
                    = r + v * 2 ^ (7 * Z.of_nat k)).
      { rewrite Hp7. rewrite Hdm at 3. ring. }
      destruct (Hstep k r (v mod 128) b done
                  (encodeVarint_loop ne (v / 128) ++ post) Hd ltac:(lia) Hr
                  Hmod ltac:(nia) H127) as (Hc & Ha & Hres).
      cbn [app]. rewrite readVarint_loop_S. cbv zeta. rewrite Hc, Ha, Hres.
      rewrite and32_byte by lia. cbn [num].
      destruct (Z.eqb_spec (Z.land (byteZ b) 128) 0); [contradiction|].
      assert (Hk3 : (k <= 3)%nat) by lia.
      destruct (Z.geb_spec (7 * Z.of_nat k + 7) 35); [lia|].
      replace (7 * Z.of_nat k + 7) with (7 * Z.of_nat (S k)) by lia.
      replace (Z.of_nat k + 1) with (Z.of_nat (S k)) by lia.
      replace (done ++ b :: encodeVarint_loop ne (v / 128) ++ post)
        with ((done ++ [b]) ++ encodeVarint_loop ne (v / 128) ++ post)
        by (rewrite <- app_assoc; reflexivity).
      rewrite IH;
        [ rewrite HT', blen_cons; f_equal; f_equal; lia
        | rewrite length_app; cbn; lia
        | lia
        | rewrite Hp7; nia
        | lia
        | rewrite HT'; assumption ].
    + destruct (final_byte v ltac:(lia)) as [H127 H128].
      destruct (Hstep k r v (byte_of_Z v) done post Hd ltac:(lia) Hr
                  ltac:(lia) HT H127) as (Hc & Ha & Hres).
      cbn [app]. rewrite readVarint_loop_S. cbv zeta. rewrite Hc, Ha, Hres.
      rewrite and32_byte by lia. cbn [num]. rewrite H128. reflexivity.
Qed.

(** The reader finds behind any prefix the value the writer wrote there,
    and consumes exactly the bytes written. *)
Lemma readVarint_encodeVarint (pre post : Buffer) (v : Z) :
  0 <= v < 2 ^ 31 ->
  readVarint (pre ++ encodeVarint v ++ post) (blen pre)
  = Ok (v, blen (encodeVarint v)).
Proof.
  intros Hv.
  replace (blen pre) with (blen pre + 0) by lia.
  rewrite readVarint_app_r by lia.
  unfold readVarint, encodeVarint.
  pose proof (readVarint_loop_encode 4 0 0 v [] post eq_refl eq_refl) as H.
  cbn [app Z.of_nat Z.mul Z.pow Z.add] in H.
  rewrite H; [f_equal; f_equal; lia | lia | lia | lia].
Qed.

End VarintRoundTrip.

(** ** Slices and loops *)

Section Slices.

Lemma subarray_nonneg (buf : Buffer) (s e : Z) :
  0 <= s -> 0 <= e ->
  subarray buf s e
  = firstn (Z.to_nat (Z.min e (blen buf) - Z.min s (blen buf)))
      (skipn (Z.to_nat (Z.min s (blen buf))) buf).
Proof.
  intros Hs He. unfold subarray, clampIndex.
  destruct (Z.ltb_spec s 0); [lia|]. destruct (Z.ltb_spec e 0); [lia|].
  reflexivity.
Qed.

(** A slice that lies inside the buffer is the bytes written there. *)
Lemma subarray_middle (pre m post : Buffer) :
  subarray (pre ++ m ++ post) (blen pre) (blen pre + blen m) = m.
Proof.
  pose proof (blen_nonneg pre). pose proof (blen_nonneg m).
  pose proof (blen_nonneg post).
  rewrite subarray_nonneg by lia. rewrite !blen_app.
  rewrite !Z.min_l by lia.
  replace (Z.to_nat (blen pre)) with (List.length pre) by (unfold blen; lia).
  rewrite skipn_app, skipn_all, Nat.sub_diag. cbn [app skipn].
  replace (Z.to_nat (blen pre + blen m - blen pre)) with (List.length m)
    by (unfold blen; lia).
  rewrite firstn_app, firstn_all, Nat.sub_diag. cbn. apply app_nil_r.
Qed.

(** A slice whose end passes the end of the buffer is clamped to it. *)
Lemma subarray_clamped (pre m : Buffer) (e : Z) :
  blen pre + blen m <= e -> subarray (pre ++ m) (blen pre) e = m.
Proof.
  intros He. pose proof (blen_nonneg pre). pose proof (blen_nonneg m).
  rewrite subarray_nonneg by lia. rewrite !blen_app.
  rewrite Z.min_r, Z.min_l by lia.
  replace (Z.to_nat (blen pre)) with (List.length pre) by (unfold blen; lia).
  rewrite skipn_app, skipn_all, Nat.sub_diag. cbn [app skipn].
  replace (Z.to_nat (blen pre + blen m - blen pre)) with (List.length m)
    by (unfold blen; lia).
  apply firstn_all.
Qed.

Lemma subarray_at (whole pre m post : Buffer) (s e : Z) :
  whole = pre ++ m ++ post -> s = blen pre -> e = s + blen m ->
  subarray whole s e = m.
Proof. intros -> -> ->. apply subarray_middle. Qed.

Lemma readVarint_at (whole pre post : Buffer) (v o : Z) :
  whole = pre ++ encodeVarint v ++ post -> o = blen pre ->
  0 <= v < 2 ^ 31 ->
  readVarint whole o = Ok (v, blen (encodeVarint v)).
Proof. intros -> -> Hv. now apply readVarint_encodeVarint. Qed.

Lemma readVarint_past_end (buf : Buffer) (o : Z) :
  blen buf <= o ->
  readVarint buf o = Throw "Unexpected end of buffer reading varint".
Proof.
  intros Ho. unfold readVarint. rewrite readVarint_loop_S.
  destruct (Z.ltb_spec (o + 0) (blen buf)); [lia | reflexivity].
Qed.

Lemma while_S {S} (fuel : nat) (cond : S -> bool)
    (body : S -> Res (Step S)) (s : S) :
  while (Datatypes.S fuel) cond body s
  = if cond s then
      match body s with
      | Ok (Continue s') => while fuel cond body s'
      | Ok (Break s') => Ok s'
      | Throw m => Throw m
      | OutOfFuel => OutOfFuel
      end
    else Ok s.
Proof. reflexivity. Qed.

End Slices.

(** ** Write batches *)

Section Batches.

Ltac app_eq := repeat (rewrite <- ?app_assoc; cbn [app]); reflexivity.

Lemma encodeVarint_nonempty (v : Z) : 1 <= blen (encodeVarint v).
Proof. apply encodeVarint_loop_nonempty. Qed.

Lemma encode_op_put (k v : Buffer) :
  encode_op (Put k v)
  = x01 :: encodeVarint (blen k) ++ k ++ encodeVarint (blen v) ++ v.
Proof. cbn. now rewrite app_nil_r. Qed.

Lemma encode_op_delete (k : Buffer) :
  encode_op (Delete k) = x00 :: encodeVarint (blen k) ++ k.
Proof. cbn. now rewrite app_nil_r. Qed.

Lemma encode_op_nonempty (op : BatchOp) : 1 <= blen (encode_op op).
Proof.
  destruct op; [rewrite encode_op_put | rewrite encode_op_delete];
    rewrite blen_cons;
    match goal with |- 1 <= 1 + blen ?l => pose proof (blen_nonneg l) end;
    lia.
Qed.

Lemma encode_ops_cons (op : BatchOp) (ops : list BatchOp) :
  encode_ops (op :: ops) = encode_op op ++ encode_ops ops.
Proof. reflexivity. Qed.

(** One iteration of the decoder on a well-formed record: the offset moves
    past the record, a put appends its entry, a delete appends nothing. *)
Lemma parseLogBatch_body_op (pre post : Buffer) (op : BatchOp)
    (entries : list LevelDBEntry) :
  blen (encode_op op) < 2 ^ 31 ->
  parseLogBatch_body (pre ++ encode_op op ++ post)
    {| ba_offset := blen pre; ba_entries := entries |}
  = Ok (Continue {| ba_offset := blen pre + blen (encode_op op);
                    ba_entries := entries ++ puts_of [op] |}).
Proof.
  intros Hfit. pose proof (blen_nonneg pre) as Hpre.
  destruct op as [k v | k].
  - rewrite encode_op_put in *.
    pose proof (blen_nonneg k). pose proof (blen_nonneg v).
    pose proof (encodeVarint_nonempty (blen k)).
    pose proof (encodeVarint_nonempty (blen v)).
    rewrite blen_cons, !blen_app in Hfit.
    set (ek := encodeVarint (blen k)) in *.
    set (ev := encodeVarint (blen v)) in *.
    set (batch := pre ++ (x01 :: ek ++ k ++ ev ++ v) ++ post).
    unfold parseLogBatch_body. cbn [ba_offset ba_entries].
    assert (Ht : at_ batch (blen pre) = Some x01) by apply at_middle.
    rewrite Ht. cbn [strict_eq].
    change (byteZ x01 =? 1) with true. cbv iota.
    rewrite (readVarint_at batch (pre ++ [x01]) (k ++ ev ++ v ++ post)
               (blen k) (blen pre + 1));
      [ | unfold batch, ek; app_eq | rewrite blen_app; reflexivity | lia ].
    cbn [bind]. fold ek.
    rewrite (subarray_at batch (pre ++ x01 :: ek) k (ev ++ v ++ post));
      [ | unfold batch; app_eq | rewrite blen_app, blen_cons; lia | lia ].
    rewrite (readVarint_at batch (pre ++ x01 :: ek ++ k) (v ++ post)
               (blen v));
      [ | unfold batch, ev; app_eq
        | rewrite !blen_app, blen_cons, blen_app; lia | lia ].
    cbn [bind]. fold ev.
    rewrite (subarray_at batch (pre ++ x01 :: ek ++ k ++ ev) v post);
      [ | unfold batch; app_eq
        | rewrite !blen_app, blen_cons, !blen_app; lia | lia ].
    cbn [try_catch puts_of]. do 3 f_equal.
    rewrite blen_cons, !blen_app. lia.
  - rewrite encode_op_delete in *.
    pose proof (blen_nonneg k).
    pose proof (encodeVarint_nonempty (blen k)).
    rewrite blen_cons, !blen_app in Hfit.
    set (ek := encodeVarint (blen k)) in *.
    set (batch := pre ++ (x00 :: ek ++ k) ++ post).
    unfold parseLogBatch_body. cbn [ba_offset ba_entries].
    assert (Ht : at_ batch (blen pre) = Some x00) by apply at_middle.
    rewrite Ht. cbn [strict_eq].
    change (byteZ x00 =? 1) with false. change (byteZ x00 =? 0) with true.
    cbv iota.
    rewrite (readVarint_at batch (pre ++ [x00]) (k ++ post)
               (blen k) (blen pre + 1));
      [ | unfold batch, ek; app_eq | rewrite blen_app; reflexivity | lia ].
    cbn [bind try_catch puts_of]. fold ek. rewrite app_nil_r.
    do 3 f_equal. rewrite blen_cons, !blen_app. lia.
Qed.

(** The decoder runs through a sequence of well-formed records in as many
    iterations, whatever follows them. *)
Lemma parseLogBatch_loop_ops (ops : list BatchOp) :
  forall (fuel : nat) (pre post : Buffer) (entries : list LevelDBEntry),
    let batch := pre ++ encode_ops ops ++ post in
    blen batch < 2 ^ 31 ->
    while (List.length ops + fuel) (fun st => ba_offset st <? blen batch)
      (parseLogBatch_body batch)
      {| ba_offset := blen pre; ba_entries := entries |}
    = while fuel (fun st => ba_offset st <? blen batch)
        (parseLogBatch_body batch)
        {| ba_offset := blen pre + blen (encode_ops ops);
           ba_entries := entries ++ puts_of ops |}.
Proof.
  induction ops as [|op ops IH]; intros fuel pre post entries batch Hlen.
  - cbn [List.length encode_ops map concat puts_of Nat.add].
    change (blen []) with 0. now rewrite Z.add_0_r, app_nil_r.
  - pose proof (encode_op_nonempty op) as Hop.
    pose proof (blen_nonneg pre). pose proof (blen_nonneg post).
    pose proof (blen_nonneg (encode_ops ops)).
    assert (Hb : batch = pre ++ encode_op op ++ (encode_ops ops ++ post)).
    { unfold batch. rewrite encode_ops_cons. app_eq. }
    assert (Hb' : batch = (pre ++ encode_op op) ++ encode_ops ops ++ post).
    { rewrite Hb. app_eq. }
    assert (Hbl : blen batch
                  = blen pre + blen (encode_op op) + blen (encode_ops ops)
                    + blen post).
    { rewrite Hb, !blen_app. lia. }
    cbn [List.length Nat.add]. rewrite while_S. cbn [ba_offset].
    destruct (Z.ltb_spec (blen pre) (blen batch)); [|lia].
    rewrite Hb at 1. rewrite parseLogBatch_body_op by lia.
    specialize (IH fuel (pre ++ encode_op op) post
                  (entries ++ puts_of [op])).
    cbv zeta in IH. rewrite <- Hb' in IH. rewrite blen_app in IH.
    rewrite IH by lia. f_equal. f_equal.
    + rewrite encode_ops_cons, blen_app. lia.
    + rewrite <- app_assoc. f_equal. destruct op; reflexivity.
Qed.

(** Where decoding stops, the loop ends with the entries it has. *)
Lemma parseLogBatch_loop_stops (fuel : nat) (pre tail : Buffer)
    (entries : list LevelDBEntry) :
  stops_decoding tail ->
  exists o,
    while (S fuel) (fun st => ba_offset st <? blen (pre ++ tail))
      (parseLogBatch_body (pre ++ tail))
      {| ba_offset := blen pre; ba_entries := entries |}
    = Ok {| ba_offset := o; ba_entries := entries |}.
Proof.
  intros Hstop. pose proof (blen_nonneg pre).
  rewrite while_S. cbn [ba_offset].
  destruct Hstop as [| t rest H0 H1 | t rest msg Herr
                     | rest keyLen n1 msg Hkey Hpos Herr].
  - rewrite app_nil_r. destruct (Z.ltb_spec (blen pre) (blen pre)); [lia|].
    eexists. reflexivity.
  - rewrite blen_app, blen_cons. pose proof (blen_nonneg rest).
    destruct (Z.ltb_spec (blen pre) (blen pre + (1 + blen rest))); [|lia].
    unfold parseLogBatch_body. cbn [ba_offset]. rewrite at_middle.
    cbn [strict_eq].
    destruct (Z.eqb_spec (byteZ t) 1); [contradiction|].
    destruct (Z.eqb_spec (byteZ t) 0); [contradiction|].
    cbn [try_catch]. eexists. reflexivity.
  - rewrite blen_app, blen_cons. pose proof (blen_nonneg rest).
    destruct (Z.ltb_spec (blen pre) (blen pre + (1 + blen rest))); [|lia].
    unfold parseLogBatch_body. cbn [ba_offset]. rewrite at_middle.
    rewrite readVarint_app_r by lia. rewrite Herr.
    cbn [strict_eq bind try_catch].
    destruct (byteZ t =? 1); [eexists; reflexivity|].
    destruct (byteZ t =? 0); eexists; reflexivity.
  - rewrite blen_app, blen_cons. pose proof (blen_nonneg rest).
    destruct (Z.ltb_spec (blen pre) (blen pre + (1 + blen rest))); [|lia].
    unfold parseLogBatch_body. cbn [ba_offset]. rewrite at_middle.
    cbn [strict_eq]. change (byteZ x01 =? 1) with true. cbv iota.
    rewrite readVarint_app_r by lia. rewrite Hkey. cbn [bind].
    replace (blen pre + 1 + n1 + keyLen) with (blen pre + (1 + n1 + keyLen))
      by lia.
    rewrite readVarint_app_r by lia. rewrite Herr.
    cbn [bind try_catch]. eexists. reflexivity.
Qed.

(** A put whose declared value length passes the end of the batch: the
    entry is appended with the bytes that are there, and the offset lies
    behind the end. *)
Lemma parseLogBatch_body_value_overrun (pre k avail : Buffer) (declared : Z)
    (entries : list LevelDBEntry) :
  let batch :=
    pre ++ x01 :: encodeVarint (blen k) ++ k ++ encodeVarint declared ++ avail
  in
  blen k < 2 ^ 31 -> blen avail <= declared < 2 ^ 31 ->
  exists o,
    blen batch <= o /\
    parseLogBatch_body batch {| ba_offset := blen pre; ba_entries := entries |}
    = Ok (Continue {| ba_offset := o;
                      ba_entries := entries ++ [mkEntry k avail] |}).
Proof.
  intros batch Hk Hd. pose proof (blen_nonneg pre).
  pose proof (blen_nonneg k). pose proof (blen_nonneg avail).
  set (ek := encodeVarint (blen k)) in *.
  set (ev := encodeVarint declared) in *.
  unfold parseLogBatch_body. cbn [ba_offset ba_entries].
  assert (Ht : at_ batch (blen pre) = Some x01) by apply at_middle.
  rewrite Ht. cbn [strict_eq].
  change (byteZ x01 =? 1) with true. cbv iota.
  rewrite (readVarint_at batch (pre ++ [x01]) (k ++ ev ++ avail)
             (blen k) (blen pre + 1));
    [ | unfold batch, ek; app_eq | rewrite blen_app; reflexivity | lia ].
  cbn [bind]. fold ek.
  rewrite (subarray_at batch (pre ++ x01 :: ek) k (ev ++ avail));
    [ | unfold batch; app_eq | rewrite blen_app, blen_cons; lia | lia ].
  rewrite (readVarint_at batch (pre ++ x01 :: ek ++ k) avail declared);
    [ | unfold batch, ev; app_eq
      | rewrite !blen_app, blen_cons, blen_app; lia | lia ].
  cbn [bind]. fold ev.
  assert (Hb : batch = (pre ++ x01 :: ek ++ k ++ ev) ++ avail)
    by (unfold batch; app_eq).
  assert (Hl : blen (pre ++ x01 :: ek ++ k ++ ev)
               = blen pre + 1 + blen ek + blen k + blen ev).
  { rewrite !blen_app, blen_cons, !blen_app. lia. }
  assert (Hsub : subarray batch (blen pre + 1 + blen ek + blen k + blen ev)
                   (blen pre + 1 + blen ek + blen k + blen ev + declared)
                 = avail).
  { rewrite <- Hl, Hb. apply subarray_clamped. lia. }
  rewrite Hsub. cbn [try_catch]. eexists. split; [|reflexivity].
  rewrite Hb, blen_app. lia.
Qed.

(** The varint behind a key whose declared length reaches the end of the
    batch cannot be read. *)
Lemma key_overrun_stops (declared : Z) (avail : Buffer) :
  blen avail <= declared < 2 ^ 31 ->
  stops_decoding (x01 :: encodeVarint declared ++ avail).
Proof.
  intros Hd. pose proof (blen_nonneg avail).
  pose proof (encodeVarint_nonempty declared).
  apply (stop_value_error _ declared (blen (encodeVarint declared))
           "Unexpected end of buffer reading varint").
  - apply (readVarint_at _ [x01] avail); [reflexivity | reflexivity | lia].
  - lia.
  - apply readVarint_past_end. rewrite blen_cons, blen_app. lia.
Qed.


(** The decoder on a batch made of a 12-byte header, well-formed records and
    a tail at which decoding stops. *)
Lemma parseLogBatch_records (fuel : nat) (header tail : Buffer)
    (ops : list BatchOp) (entries : list LevelDBEntry) :
  List.length header = 12%nat ->
  blen (header ++ encode_ops ops ++ tail) < 2 ^ 31 ->
  stops_decoding tail ->
  (List.length ops < fuel)%nat ->
  parseLogBatch fuel (header ++ encode_ops ops ++ tail) entries
  = Ok (entries ++ puts_of ops).
Proof.
  intros Hh Hlen Hstop Hfuel.
  assert (Hh' : blen header = 12) by (unfold blen; lia).
  unfold parseLogBatch.
  pose proof (blen_nonneg (encode_ops ops ++ tail)).
  pose proof (blen_app header (encode_ops ops ++ tail)) as Hba.
  destruct (Z.ltb_spec (blen (header ++ encode_ops ops ++ tail)) 12);
    [lia|].
  rewrite <- Hh'.
  replace fuel with (List.length ops + S (fuel - S (List.length ops)))%nat
    by lia.
  rewrite parseLogBatch_loop_ops by assumption.
  rewrite <- blen_app.
  replace (header ++ encode_ops ops ++ tail)
    with ((header ++ encode_ops ops) ++ tail) by app_eq.
  destruct (parseLogBatch_loop_stops (fuel - S (List.length ops))
              (header ++ encode_ops ops) tail (entries ++ puts_of ops) Hstop)
    as [o ->].
  reflexivity.
Qed.

End Batches.

(** C4: a batch shorter than 12 bytes leaves the entries as they are.
    Otherwise the first 12 bytes are skipped, whatever sequence number and
    count they hold, and the records are decoded one by one until the buffer
    is exhausted, a tag is unknown or a length cannot be decoded: every put
    appends its entry, deletes append nothing and remove nothing, and what
    follows the stopping point is left out while the entries appended so far
    are kept. *)
Theorem parseLogBatch_decodes (fuel : nat) (batch : Buffer)
    (entries : list LevelDBEntry) :
  (blen batch < 12 -> parseLogBatch fuel batch entries = Ok entries) /\
  (forall (header tail : Buffer) (ops : list BatchOp),
      batch = header ++ encode_ops ops ++ tail ->
      List.length header = 12%nat ->
      blen batch < 2 ^ 31 ->
      stops_decoding tail ->
      (List.length ops < fuel)%nat ->
      parseLogBatch fuel batch entries = Ok (entries ++ puts_of ops)).
Proof.
  split.
  - intros Hshort. unfold parseLogBatch.
    destruct (Z.ltb_spec (blen batch) 12); [reflexivity | lia].
  - intros header tail ops -> Hh Hlen Hstop Hfuel.
    now apply parseLogBatch_records.
Qed.

Lemma parseLogBatch_decodes_witness :
  let header := [x07; x00; x00; x00; x00; x00; x00; x00;
                 x00; x00; x00; x00] in
  let ops := [Put ["k"%byte] ["1"%byte]; Delete ["k"%byte];
              Put ["k"%byte] ["2"%byte]] in
  let tail := [x09; x01; x01] in
  parseLogBatch 4 (header ++ encode_ops ops ++ tail) []
  = Ok [mkEntry ["k"%byte] ["1"%byte]; mkEntry ["k"%byte] ["2"%byte]].
Proof.
  intros header ops tail.
  refine (proj2 (parseLogBatch_decodes 4 (header ++ encode_ops ops ++ tail) [])
            header tail ops eq_refl eq_refl _ _ _).
  - vm_compute. reflexivity.
  - apply stop_unknown_tag; vm_compute; discriminate.
  - vm_compute. lia.
Defined.

(** ** Log records *)

Section LogRecords.

Ltac app_eq := repeat (rewrite <- ?app_assoc; cbn [app]); reflexivity.

Lemma byteZ_byte_of_Z_mod (z : Z) : byteZ (byte_of_Z z) = z mod 256.
Proof.
  pose proof (Z.mod_pos_bound z 256 ltac:(lia)) as Hm.
  unfold byteZ, byte_of_Z.
  destruct (Byte.of_N (Z.to_N (z mod 256))) as [b|] eqn:E.
  - apply Byte.to_of_N in E. rewrite E. lia.
  - apply Byte.of_N_None_iff in E. lia.
Qed.

Lemma logRecord_eq (crc : Buffer) (type : Z) (payload : Buffer) :
  logRecord crc type payload
  = crc ++ byte_of_Z (blen payload) :: byte_of_Z (blen payload / 256)
        :: byte_of_Z type :: payload.
Proof. unfold logRecord, uint16LE. cbn. now rewrite app_nil_r. Qed.

Lemma blen_logRecord (crc : Buffer) (type : Z) (payload : Buffer) :
  List.length crc = 4%nat ->
  blen (logRecord crc type payload) = 7 + blen payload.
Proof.
  intros Hc. rewrite logRecord_eq, blen_app, !blen_cons.
  unfold blen at 1. lia.
Qed.

Lemma readUInt16LE_at (pre rest : Buffer) (n : Z) :
  0 <= n < 65536 ->
  readUInt16LE (pre ++ byte_of_Z n :: byte_of_Z (n / 256) :: rest) (blen pre)
  = Ok n.
Proof.
  intros Hn. pose proof (blen_nonneg pre). pose proof (blen_nonneg rest).
  unfold readUInt16LE. rewrite blen_app, !blen_cons.
  destruct (Z.ltb_spec (blen pre) 0); [lia|].
  destruct (Z.gtb_spec (blen pre + 2) (blen pre + (1 + (1 + blen rest))));
    [lia|].
  cbn [orb]. rewrite at_middle.
  replace (pre ++ byte_of_Z n :: byte_of_Z (n / 256) :: rest)
    with ((pre ++ [byte_of_Z n]) ++ byte_of_Z (n / 256) :: rest) by app_eq.
  replace (blen pre + 1) with (blen (pre ++ [byte_of_Z n]))
    by (rewrite blen_app; reflexivity).
  rewrite at_middle. cbn [num]. rewrite !byteZ_byte_of_Z_mod.
  rewrite (Z.mod_small (n / 256)).
  - f_equal. pose proof (Z.div_mod n 256 ltac:(lia)). lia.
  - split; [apply Z.div_pos; lia | apply Z.div_lt_upper_bound; lia].
Qed.

(** One iteration of the reader at the header of a record that lies in the
    file, with room for a header in its block: the header is decoded, the
    payload is sliced out, and the type decides. *)
Lemma parseLogFile_body_record (fuel : nat) (pre crc payload post : Buffer)
    (type : Z) (pendingRecord : list Buffer) (entries : list LevelDBEntry) :
  let data := pre ++ logRecord crc type payload ++ post in
  let offset := blen pre + 7 + blen payload in
  let t := Some (byte_of_Z type) in
  List.length crc = 4%nat ->
  1 <= blen payload <= 65535 ->
  blen pre mod 32768 <= 32761 ->
  parseLogFile_body fuel data (mkLogState (blen pre) pendingRecord entries)
  = if strict_eq t LOG_RECORD_FULL then
      entries <- parseLogBatch fuel payload entries ;;
      Ok (Continue (mkLogState offset [] entries))
    else if strict_eq t LOG_RECORD_FIRST then
      Ok (Continue (mkLogState offset [payload] entries))
    else if strict_eq t LOG_RECORD_MIDDLE then
      if (0 <? Z.of_nat (List.length pendingRecord)) then
        Ok (Continue (mkLogState offset (pendingRecord ++ [payload]) entries))
      else Ok (Continue (mkLogState offset pendingRecord entries))
    else if strict_eq t LOG_RECORD_LAST then
      if (0 <? Z.of_nat (List.length pendingRecord)) then
        entries <- parseLogBatch fuel (concat (pendingRecord ++ [payload]))
                     entries ;;
        Ok (Continue (mkLogState offset [] entries))
      else Ok (Continue (mkLogState offset [] entries))
    else Ok (Continue (mkLogState offset pendingRecord entries)).
Proof.
  intros data offset t Hcrc Hp Hblock.
  pose proof (blen_nonneg pre). pose proof (blen_nonneg post).
  assert (Hc4 : blen crc = 4) by (unfold blen; lia).
  assert (Hd : data = pre ++ crc ++ byte_of_Z (blen payload)
                 :: byte_of_Z (blen payload / 256) :: byte_of_Z type
                 :: payload ++ post).
  { unfold data. rewrite logRecord_eq. app_eq. }
  assert (Hl : blen data = blen pre + 7 + blen payload + blen post).
  { rewrite Hd, !blen_app, !blen_cons, blen_app. lia. }
  unfold parseLogFile_body.
  cbn [lg_offset lg_pendingRecord lg_entries]. cbv zeta.
  rewrite Z.rem_mod_nonneg by (unfold BLOCK_SIZE; lia).
  unfold BLOCK_SIZE.
  pose proof (Z.mod_pos_bound (blen pre) 32768 ltac:(lia)).
  destruct (Z.ltb_spec (32768 - blen pre mod 32768) 7); [lia|].
  destruct (Z.gtb_spec (blen pre + 7) (blen data)); [lia|].
  assert (Hlen : readUInt16LE data (blen pre + 4) = Ok (blen payload)).
  { rewrite Hd, app_assoc, <- Hc4, <- blen_app.
    apply readUInt16LE_at. lia. }
  assert (Hty : at_ data (blen pre + 6) = Some (byte_of_Z type)).
  { rewrite Hd.
    replace (pre ++ crc ++ byte_of_Z (blen payload)
               :: byte_of_Z (blen payload / 256) :: byte_of_Z type
               :: payload ++ post)
      with ((pre ++ crc ++ [byte_of_Z (blen payload);
                            byte_of_Z (blen payload / 256)])
              ++ byte_of_Z type :: payload ++ post) by app_eq.
    replace (blen pre + 6)
      with (blen (pre ++ crc ++ [byte_of_Z (blen payload);
                                 byte_of_Z (blen payload / 256)]))
      by (rewrite !blen_app, Hc4; reflexivity).
    apply at_middle. }
  assert (Hrec : subarray data (blen pre + 7) (blen pre + 7 + blen payload)
                 = payload).
  { apply (subarray_at data
             (pre ++ crc ++ [byte_of_Z (blen payload);
                             byte_of_Z (blen payload / 256); byte_of_Z type])
             payload post).
    - rewrite Hd. app_eq.
    - rewrite !blen_app, Hc4. reflexivity.
    - reflexivity. }
  rewrite Hlen. cbn [bind]. rewrite Hty, Hrec.
  destruct (Z.eqb_spec (blen payload) 0); [lia|].
  destruct (Z.gtb_spec (blen pre + 7 + blen payload) (blen data)); [lia|].
  cbn [orb]. reflexivity.
Qed.


Lemma pending_nonempty (pendingRecord : list Buffer) :
  pendingRecord <> [] -> (0 <? Z.of_nat (List.length pendingRecord)) = true.
Proof. destruct pendingRecord; [contradiction | reflexivity]. Qed.

Section RecordAt.

Variables (fuel : nat) (data pre crc payload post : Buffer) (o : Z).
Variables (pendingRecord : list Buffer) (entries : list LevelDBEntry).
Hypothesis Hcrc : List.length crc = 4%nat.
Hypothesis Hpayload : 1 <= blen payload <= 65535.
Hypothesis Ho : o = blen pre.
Hypothesis Hblock : o mod 32768 <= 32761.

Lemma parseLogFile_body_FULL :
  data = pre ++ logRecord crc 1 payload ++ post ->
  parseLogFile_body fuel data (mkLogState o pendingRecord entries)
  = (entries <- parseLogBatch fuel payload entries ;;
     Ok (Continue (mkLogState (o + 7 + blen payload) [] entries))).
Proof.
  intros ->. subst o.
  now rewrite parseLogFile_body_record by assumption.
Qed.

Lemma parseLogFile_body_FIRST :
  data = pre ++ logRecord crc 2 payload ++ post ->
  parseLogFile_body fuel data (mkLogState o pendingRecord entries)
  = Ok (Continue (mkLogState (o + 7 + blen payload) [payload] entries)).
Proof.
  intros ->. subst o.
  now rewrite parseLogFile_body_record by assumption.
Qed.

Lemma parseLogFile_body_MIDDLE :
  data = pre ++ logRecord crc 3 payload ++ post ->
  pendingRecord <> [] ->
  parseLogFile_body fuel data (mkLogState o pendingRecord entries)
  = Ok (Continue (mkLogState (o + 7 + blen payload)
                    (pendingRecord ++ [payload]) entries)).
Proof.
  intros -> Hp. subst o.
  rewrite parseLogFile_body_record by assumption.
  change (strict_eq (Some (byte_of_Z 3)) LOG_RECORD_FULL) with false.
  change (strict_eq (Some (byte_of_Z 3)) LOG_RECORD_FIRST) with false.
  change (strict_eq (Some (byte_of_Z 3)) LOG_RECORD_MIDDLE) with true.
  cbv iota. now rewrite pending_nonempty.
Qed.

Lemma parseLogFile_body_LAST :
  data = pre ++ logRecord crc 4 payload ++ post ->
  pendingRecord <> [] ->
  parseLogFile_body fuel data (mkLogState o pendingRecord entries)
  = (entries <- parseLogBatch fuel (concat (pendingRecord ++ [payload]))
                  entries ;;
     Ok (Continue (mkLogState (o + 7 + blen payload) [] entries))).
Proof.
  intros -> Hp. subst o.
  rewrite parseLogFile_body_record by assumption.
  change (strict_eq (Some (byte_of_Z 4)) LOG_RECORD_FULL) with false.
  change (strict_eq (Some (byte_of_Z 4)) LOG_RECORD_FIRST) with false.
  change (strict_eq (Some (byte_of_Z 4)) LOG_RECORD_MIDDLE) with false.
  change (strict_eq (Some (byte_of_Z 4)) LOG_RECORD_LAST) with true.
  cbv iota. now rewrite pending_nonempty.
Qed.

End RecordAt.

End LogRecords.

(** C5: a log file that holds a write batch of [P] puts as one FULL record
    yields the [P] entries of these puts, and the file that holds the same
    payload cut into a FIRST, a MIDDLE and a LAST record yields the same
    entries in the same order.  The records are well framed: no fragment is
    empty, and every header starts where at least 7 bytes are left in its
    block. *)
Theorem parseLogData_fragmentation (fuel : nat) (header : Buffer)
    (ops : list BatchOp) (crc0 crc1 crc2 crc3 a b c : Buffer) :
  let payload := header ++ encode_ops ops in
  List.length header = 12%nat ->
  blen payload <= 65535 ->
  (List.length ops + 3 < fuel)%nat ->
  List.length crc0 = 4%nat -> List.length crc1 = 4%nat ->
  List.length crc2 = 4%nat -> List.length crc3 = 4%nat ->
  payload = a ++ b ++ c ->
  1 <= blen a -> 1 <= blen b -> 1 <= blen c ->
  (7 + blen a) mod 32768 <= 32761 ->
  (14 + blen a + blen b) mod 32768 <= 32761 ->
  parseLogData fuel (logRecord crc0 1 payload) = Ok (puts_of ops) /\
  List.length (puts_of ops) = List.length (filter is_put ops) /\
  parseLogData fuel
    (logRecord crc1 2 a ++ logRecord crc2 3 b ++ logRecord crc3 4 c)
  = Ok (puts_of ops).
Proof.
  intros payload Hh Hlen Hfuel H0 H1 H2 H3 Habc Ha Hb Hc Hpa Hpb.
  assert (Hh' : blen header = 12) by (unfold blen; lia).
  pose proof (blen_nonneg (encode_ops ops)) as Hops.
  assert (Hpl : blen payload = blen a + blen b + blen c)
    by (rewrite Habc, !blen_app; lia).
  assert (Hpl' : blen payload = 12 + blen (encode_ops ops))
    by (unfold payload; rewrite blen_app; lia).
  assert (Hbatch : parseLogBatch fuel payload [] = Ok (puts_of ops)).
  { unfold payload. rewrite <- (app_nil_r (encode_ops ops)).
    apply (parseLogBatch_records fuel header [] ops []);
      [assumption | rewrite app_nil_r; fold payload; lia
       | constructor | lia]. }
  destruct fuel as [|[|[|[|fuel]]]]; try lia.
  split; [|split].
  - unfold parseLogData. rewrite while_S. cbn [lg_offset].
    rewrite blen_logRecord by assumption.
    destruct (Z.ltb_spec 0 (7 + blen payload)); [|lia].
    rewrite (parseLogFile_body_FULL _ _ [] crc0 payload []);
      [ | assumption | lia | reflexivity | cbn; lia
        | now rewrite app_nil_r ].
    rewrite Hbatch. cbn [bind]. rewrite while_S. cbn [lg_offset].
    destruct (Z.ltb_spec (0 + 7 + blen payload) (7 + blen payload)); [lia|].
    reflexivity.
  - clear. induction ops as [|[k v|k] ops IH]; cbn; [reflexivity | | exact IH].
    now rewrite IH.
  - set (data := logRecord crc1 2 a ++ logRecord crc2 3 b
                   ++ logRecord crc3 4 c).
    assert (Hdl : blen data = 21 + blen payload).
    { unfold data. rewrite !blen_app, !blen_logRecord by assumption. lia. }
    unfold parseLogData. rewrite while_S. cbn [lg_offset].
    destruct (Z.ltb_spec 0 (blen data)); [|lia].
    rewrite (parseLogFile_body_FIRST _ _ [] crc1 a
               (logRecord crc2 3 b ++ logRecord crc3 4 c));
      [ | assumption | lia | reflexivity | cbn; lia | reflexivity ].
    rewrite while_S. cbn [lg_offset].
    destruct (Z.ltb_spec (0 + 7 + blen a) (blen data)); [|lia].
    rewrite (parseLogFile_body_MIDDLE _ _ (logRecord crc1 2 a) crc2 b
               (logRecord crc3 4 c));
      [ | assumption | lia | rewrite blen_logRecord by assumption; lia
        | rewrite Z.add_0_l; assumption | reflexivity | discriminate ].
    rewrite while_S. cbn [lg_offset].
    destruct (Z.ltb_spec (0 + 7 + blen a + 7 + blen b) (blen data)); [|lia].
    rewrite (parseLogFile_body_LAST _ _
               (logRecord crc1 2 a ++ logRecord crc2 3 b) crc3 c []);
      [ | assumption | lia
        | rewrite blen_app, !blen_logRecord by assumption; lia
        | replace (0 + 7 + blen a + 7 + blen b) with (14 + blen a + blen b)
            by lia; assumption
        | unfold data; rewrite app_nil_r, <- app_assoc; reflexivity
        | discriminate ].
    replace (concat (([a] ++ [b]) ++ [c])) with payload
      by (rewrite Habc; cbn; now rewrite app_nil_r).
    rewrite Hbatch. cbn [bind]. rewrite while_S. cbn [lg_offset].
    destruct (Z.ltb_spec (0 + 7 + blen a + 7 + blen b + 7 + blen c)
                (blen data)); [lia|].
    reflexivity.
Qed.

Lemma parseLogData_fragmentation_witness :
  let header := [x01; x00; x00; x00; x00; x00; x00; x00;
                 x02; x00; x00; x00] in
  let ops := [Put ["k"%byte; "1"%byte] ["v"%byte];
              Delete ["k"%byte; "1"%byte];
              Put ["k"%byte; "2"%byte] ["w"%byte]] in
  let a := firstn 10 (header ++ encode_ops ops) in
  let b := firstn 5 (skipn 10 (header ++ encode_ops ops)) in
  let c := skipn 15 (header ++ encode_ops ops) in
  let crc := [x00; x00; x00; x00] in
  parseLogData 7 (logRecord crc 1 (header ++ encode_ops ops))
  = Ok [mkEntry ["k"%byte; "1"%byte] ["v"%byte];
        mkEntry ["k"%byte; "2"%byte] ["w"%byte]] /\
  parseLogData 7 (logRecord crc 2 a ++ logRecord crc 3 b ++ logRecord crc 4 c)
  = Ok [mkEntry ["k"%byte; "1"%byte] ["v"%byte];
        mkEntry ["k"%byte; "2"%byte] ["w"%byte]].
Proof.
  intros header ops a b c crc.
  assert (Hle : forall x y : Z, (x <=? y) = true -> x <= y)
    by (intros x y H; now apply Z.leb_le).
  destruct (parseLogData_fragmentation 7 header ops crc crc crc crc a b c)
    as (Hfull & _ & Hfrag).
  - reflexivity.
  - apply Hle. vm_compute. reflexivity.
  - unfold ops. cbn [List.length]. lia.
  - reflexivity.
  - reflexivity.
  - reflexivity.
  - reflexivity.
  - vm_compute. reflexivity.
  - apply Hle. vm_compute. reflexivity.
  - apply Hle. vm_compute. reflexivity.
  - apply Hle. vm_compute. reflexivity.
  - apply Hle. vm_compute. reflexivity.
  - apply Hle. vm_compute. reflexivity.
  - split; [exact Hfull | exact Hfrag].
Defined.

(** C2 (amended): where fewer than 7 bytes remain before the next block
    boundary, the reader moves to the boundary and keeps the open fragment
    accumulator and the entries as they are; so a FIRST fragment that ends
    in the last bytes of a block is completed by the LAST fragment at the
    start of the next block, and the two decode as one write batch. *)
Theorem parseLogFile_trailer_skip :
  (forall (fuel : nat) (data : Buffer) (st : LogState),
      0 <= lg_offset st ->
      32768 - lg_offset st mod 32768 < 7 ->
      let boundary := lg_offset st + (32768 - lg_offset st mod 32768) in
      boundary mod 32768 = 0 /\
      parseLogFile_body fuel data st
      = Ok (Continue (mkLogState boundary (lg_pendingRecord st)
                        (lg_entries st)))) /\
  (forall (fuel : nat) (crc1 crc2 a pad c : Buffer),
      List.length crc1 = 4%nat -> List.length crc2 = 4%nat ->
      1 <= blen pad < 7 -> 7 + blen a + blen pad = 32768 ->
      1 <= blen c <= 65535 -> (4 <= fuel)%nat ->
      parseLogData fuel (logRecord crc1 2 a ++ pad ++ logRecord crc2 4 c)
      = parseLogBatch fuel (a ++ c) []).
Proof.
  assert (Hskip : forall (fuel : nat) (data : Buffer) (st : LogState),
      0 <= lg_offset st ->
      32768 - lg_offset st mod 32768 < 7 ->
      parseLogFile_body fuel data st
      = Ok (Continue (mkLogState
                        (lg_offset st + (32768 - lg_offset st mod 32768))
                        (lg_pendingRecord st) (lg_entries st)))).
  { intros fuel data st Ho Hrem. unfold parseLogFile_body. cbv zeta.
    rewrite Z.rem_mod_nonneg by (unfold BLOCK_SIZE; lia).
    unfold BLOCK_SIZE.
    destruct (Z.ltb_spec (32768 - lg_offset st mod 32768) 7); [|lia].
    reflexivity. }
  split.
  - intros fuel data st Ho Hrem boundary. split; [|now apply Hskip].
    unfold boundary.
    pose proof (Z.div_mod (lg_offset st) 32768 ltac:(lia)) as Hdm.
    replace (lg_offset st + (32768 - lg_offset st mod 32768))
      with ((lg_offset st / 32768 + 1) * 32768) by lia.
    apply Z_mod_mult.
  - intros fuel crc1 crc2 a pad c H1 H2 Hpad Hblock Hc Hfuel.
    set (data := logRecord crc1 2 a ++ pad ++ logRecord crc2 4 c).
    assert (Hdl : blen data = 32768 + 7 + blen c).
    { unfold data. rewrite !blen_app, !blen_logRecord by assumption. lia. }
    destruct fuel as [|[|[|[|fuel]]]]; try lia.
    remember (S (S (S (S fuel)))) as n eqn:Hn.
    unfold parseLogData. rewrite Hn at 1.
    rewrite while_S. cbn [lg_offset].
    destruct (Z.ltb_spec 0 (blen data)); [|lia].
    rewrite (parseLogFile_body_FIRST _ _ [] crc1 a
               (pad ++ logRecord crc2 4 c));
      [ | assumption | lia | reflexivity | cbn; lia | reflexivity ].
    rewrite while_S. cbn [lg_offset].
    destruct (Z.ltb_spec (0 + 7 + blen a) (blen data)); [|lia].
    assert (Hmod : (0 + 7 + blen a) mod 32768 = 32768 - blen pad).
    { replace (32768 - blen pad) with (0 + 7 + blen a) by lia.
      apply Z.mod_small. pose proof (blen_nonneg a). lia. }
    rewrite Hskip by (cbn [lg_offset]; lia).
    cbn [lg_offset lg_pendingRecord lg_entries]. rewrite Hmod.
    replace (0 + 7 + blen a + (32768 - (32768 - blen pad))) with 32768 by lia.
    rewrite while_S. cbn [lg_offset].
    destruct (Z.ltb_spec 32768 (blen data)); [|lia].
    rewrite (parseLogFile_body_LAST _ _ (logRecord crc1 2 a ++ pad) crc2 c []);
      [ | assumption | lia
        | rewrite blen_app, blen_logRecord by assumption; lia
        | vm_compute; discriminate
        | unfold data; rewrite app_nil_r, <- app_assoc; reflexivity
        | discriminate ].
    replace (concat ([a] ++ [c])) with (a ++ c)
      by (cbn; now rewrite app_nil_r).
    destruct (parseLogBatch n (a ++ c) []) as [es | m |]; cbn [bind];
      try reflexivity.
    rewrite while_S. cbn [lg_offset].
    destruct (Z.ltb_spec (32768 + 7 + blen c) (blen data)); [lia|].
    reflexivity.
Qed.

Lemma parseLogFile_trailer_skip_witness :
  let crc := alloc 4 in
  let a := alloc 12 ++ [x01; x01; "k"%byte; xe0; xff; x01] ++ alloc 32740 in
  let c := alloc 12 in
  parseLogData 4 (logRecord crc 2 a ++ alloc 3 ++ logRecord crc 4 c)
  = parseLogBatch 4 (a ++ c) [].
Proof.
  intros crc a c.
  apply (proj2 parseLogFile_trailer_skip 4%nat crc crc a (alloc 3) c);
    try reflexivity; try (vm_compute; split; discriminate || reflexivity);
    try lia.
Defined.

(** C2, as stated, fails: the FIRST record below ends 3 bytes before the
    block boundary, the reader skips these bytes, and the LAST record behind
    the boundary completes the batch; the key of the decoded entry starts in
    the FIRST fragment and ends in the LAST one. *)
Lemma parseLogData_trailer_skip_counterexample :
  let crc := alloc 4 in
  let first :=
    alloc 12 ++ [x00; xe3; xff; x01] ++ alloc 32739 ++ [x01; x02; "a"%byte] in
  let last := ["b"%byte; x01; "c"%byte] in
  blen (logRecord crc 2 first) = 32765 /\
  parseLogData 4 (logRecord crc 2 first ++ alloc 3 ++ logRecord crc 4 last)
  = Ok [mkEntry ["a"%byte; "b"%byte] ["c"%byte]].
Proof.
  intros crc first last. split; vm_compute; reflexivity.
Qed.

(** ** Tables and directories *)

Section Tables.

Lemma equals_false (a b : Buffer) : a <> b -> equals a b = false.
Proof.
  intros Hne. unfold equals.
  destruct (list_eq_dec byte_eq_dec a b); [contradiction | reflexivity].
Qed.

(** The magic the table reader compares is the last 8 bytes of the file. *)
Lemma footer_magic (data : Buffer) :
  48 <= blen data ->
  subarray (subarray_from data (-48)) 40 48 = lastn 8 data.
Proof.
  intros Hlen. unfold blen in Hlen.
  assert (Hfooter : subarray_from data (-48)
                    = skipn (List.length data - 48) data).
  { unfold subarray_from, subarray, clampIndex, blen.
    destruct (Z.ltb_spec (-48) 0); [|lia].
    destruct (Z.ltb_spec (Z.of_nat (List.length data)) 0); [lia|].
    rewrite Z.max_l, Z.min_l by lia.
    replace (Z.to_nat (Z.of_nat (List.length data) + -48))
      with (List.length data - 48)%nat by lia.
    apply firstn_all2. rewrite length_skipn. lia. }
  rewrite Hfooter. rewrite subarray_nonneg by lia.
  unfold blen. rewrite length_skipn.
  replace (Z.of_nat (List.length data - (List.length data - 48))) with 48
    by lia.
  rewrite Z.min_l, Z.min_l by lia.
  rewrite skipn_skipn. unfold lastn.
  replace (Z.to_nat 40 + (List.length data - 48))%nat
    with (List.length data - 8)%nat by lia.
  apply firstn_all2. rewrite length_skipn. lia.
Qed.


End Tables.

(** C7: a file whose last 8 bytes are not the magic constant gives no entry
    at all, and the reader returns normally. *)
Theorem parseSSTable_bad_magic (readFile : string -> option Buffer)
    (snappyUncompress : Buffer -> Z -> option Buffer)
    (spreadable : nat -> bool) (fuel : nat)
    (filePath : string) (data : Buffer) :
  readFile filePath = Some data ->
  lastn 8 data <> LEVELDB_MAGIC ->
  parseSSTable readFile snappyUncompress spreadable fuel filePath = Ok [].
Proof.
  intros Hread Hmagic. unfold parseSSTable.
  rewrite Hread. cbn [await try_or_return].
  destruct (Z.ltb_spec (blen data) 48) as [|Hlen]; [reflexivity|].
  rewrite footer_magic by assumption.
  now rewrite equals_false.
Qed.

Lemma parseSSTable_bad_magic_witness :
  let data := alloc 92 ++ [x57; xfb; x80; x8b; x24; x75; x47; xda] in
  parseSSTable (fun _ => Some data) (fun _ _ => None) (accepts 1000) 0
    "000001.ldb" = Ok [].
Proof.
  intros data.
  apply (parseSSTable_bad_magic (fun _ => Some data) (fun _ _ => None)
           (accepts 1000) 0 "000001.ldb" data).
  - reflexivity.
  - vm_compute. discriminate.
Defined.




(** ** Searching a buffer *)

Section Search.

Lemma starts_with_spec (v buf : Buffer) :
  starts_with v buf = true <-> exists post, buf = v ++ post.
Proof.
  revert buf. induction v as [|a v IH]; intros buf.
  - split; [intros _; now exists buf | reflexivity].
  - destruct buf as [|b buf]; cbn [starts_with].
    + split; [discriminate | intros [post H]; discriminate].
    + destruct (byte_eq_dec a b) as [-> | Hne].
      * rewrite IH. split; intros [post H]; exists post.
        -- now rewrite H.
        -- now inversion H.
      * split; [discriminate | intros [post H]; inversion H; congruence].
Qed.

Lemma occurs_at_0 (v buf : Buffer) :
  occurs_at v buf 0 <-> starts_with v buf = true.
Proof.
  rewrite starts_with_spec. split.
  - intros (pre & post & H & Hl). destruct pre; [|discriminate].
    now exists post.
  - intros [post H]. now exists [], post.
Qed.

Lemma occurs_at_S (v : Buffer) (b : byte) (buf : Buffer) (n : nat) :
  occurs_at v (b :: buf) (S n) <-> occurs_at v buf n.
Proof.
  split.
  - intros (pre & post & H & Hl). destruct pre as [|p pre]; [discriminate|].
    inversion H; subst. exists pre, post. split; [reflexivity|].
    cbn in Hl. lia.
  - intros (pre & post & H & Hl). exists (b :: pre), post.
    split; [now rewrite H | cbn; lia].
Qed.

(** [indexOf] returns -1 exactly when there is no occurrence, and the index
    of the first occurrence otherwise. *)
Lemma indexOf_from_spec (v buf : Buffer) (i : Z) :
  (indexOf_from buf v i = -1 /\ forall n, ~ occurs_at v buf n) \/
  (exists n, first_occurrence v buf n /\
             indexOf_from buf v i = i + Z.of_nat n).
Proof.
  revert i. induction buf as [|b buf IH]; intros i.
  - cbn [indexOf_from]. destruct (starts_with v []) eqn:E.
    + right. exists 0%nat. split; [|lia].
      split; [now apply occurs_at_0 | intros j Hj; lia].
    + left. split; [reflexivity|].
      intros n (pre & post & H & _).
      destruct pre; [|discriminate]. destruct v; discriminate.
  - cbn [indexOf_from]. destruct (starts_with v (b :: buf)) eqn:E.
    + right. exists 0%nat. split; [|lia].
      split; [now apply occurs_at_0 | intros j Hj; lia].
    + assert (H0 : ~ occurs_at v (b :: buf) 0)
        by (rewrite occurs_at_0, E; discriminate).
      destruct (IH (i + 1)) as [[Hr Hno] | (n & [Hocc Hfirst] & Hr)].
      * left. split; [assumption|].
        intros [|n]; [assumption | rewrite occurs_at_S; apply Hno].
      * right. exists (S n). split; [|lia].
        split; [now apply occurs_at_S|].
        intros [|j] Hj; [assumption|].
        rewrite occurs_at_S. apply Hfirst. lia.
Qed.

Lemma first_occurrence_unique (v buf : Buffer) (n m : nat) :
  first_occurrence v buf n -> first_occurrence v buf m -> n = m.
Proof.
  intros [Hn Hfn] [Hm Hfm].
  destruct (Nat.lt_trichotomy n m) as [Hlt | [-> | Hgt]];
    [exfalso; exact (Hfm n Hlt Hn) | reflexivity
     | exfalso; exact (Hfn m Hgt Hm)].
Qed.

Lemma includes_spec (buf v : Buffer) :
  includes buf v = true <-> contains_run v buf.
Proof.
  unfold includes, indexOf.
  destruct (indexOf_from_spec v buf 0) as [[Hr Hno] | (n & [Hocc _] & Hr)];
    rewrite Hr.
  - split; [discriminate|].
    intros (pre & post & H). exfalso.
    apply (Hno (List.length pre)). now exists pre, post.
  - split; [intros _ | intros _].
    + destruct Hocc as (pre & post & H & _). now exists pre, post.
    + destruct (Z.eqb_spec (0 + Z.of_nat n) (-1)); [lia | reflexivity].
Qed.

End Search.

(** C9: the query returns the entries of the scan whose key contains the
    pattern as a contiguous run of bytes, in the order of the scan, and no
    other entry. *)
Theorem findKeysContaining_subset (readFile : string -> option Buffer)
    (readdir : string -> option (list string))
    (join : string -> string -> string)
    (snappyUncompress : Buffer -> Z -> option Buffer)
    (spreadable : nat -> bool) (fuel : nat)
    (dir : string) (substring : Buffer) (allEntries : list LevelDBEntry) :
  readChromiumLevelDB readFile readdir join snappyUncompress spreadable fuel dir
  = Ok allEntries ->
  exists found,
    findKeysContaining readFile readdir join snappyUncompress spreadable fuel
      dir
      substring = Ok found /\
    found = filter (fun e => includes (key e) substring) allEntries /\
    (forall e, includes (key e) substring = true
               <-> contains_run substring (key e)) /\
    (forall e, In e found
               <-> In e allEntries /\ contains_run substring (key e)).
Proof.
  intros Hscan. unfold findKeysContaining. rewrite Hscan. cbn [bind].
  eexists. split; [reflexivity|]. split; [reflexivity|]. split.
  - intros e. apply includes_spec.
  - intros e. rewrite filter_In, includes_spec. reflexivity.
Qed.

Lemma findKeysContaining_subset_witness :
  let e1 := mkEntry (list_byte_of_string "localConfig_v2")
              (list_byte_of_string "a") in
  let e2 := mkEntry (list_byte_of_string "otherKey")
              (list_byte_of_string "b") in
  let e3 := mkEntry (list_byte_of_string "localConfig_v3")
              (list_byte_of_string "c") in
  let log := createTestLogFile
               (map (fun e => mkTest (key e) (value e)) [e1; e2; e3]) in
  let readFile := fun _ : string => Some log in
  let readdir := fun _ : string => Some ["000003.log"%string] in
  let join := fun _ f : string => f in
  exists found,
    findKeysContaining readFile readdir join (fun _ _ => None)
      (accepts 1000) 4 "db"
      (list_byte_of_string "localConfig_v") = Ok found /\
    found = [e1; e3].
Proof.
  intros e1 e2 e3 log readFile readdir join.
  destruct (findKeysContaining_subset readFile readdir join (fun _ _ => None)
              (accepts 1000)
              4 "db" (list_byte_of_string "localConfig_v") [e1; e2; e3])
    as (found & Hfind & Hfilter & _).
  - vm_compute. reflexivity.
  - exists found. split; [exact Hfind|]. rewrite Hfilter. reflexivity.
Defined.

(** ** Data blocks *)

Section DataBlocks.

(** A prefix length that is not negative takes that many bytes of the key
    before, and the whole key when it is shorter. *)
Lemma subarray_prefix (prevKey : Buffer) (shared : Z) :
  0 <= shared -> subarray prevKey 0 shared = firstn (Z.to_nat shared) prevKey.
Proof.
  intros Hs. pose proof (blen_nonneg prevKey).
  rewrite subarray_nonneg by lia. rewrite (Z.min_l 0) by lia.
  cbn [Z.to_nat skipn]. rewrite Z.sub_0_r.
  destruct (Z.le_ge_cases shared (blen prevKey)).
  - now rewrite Z.min_l by lia.
  - rewrite Z.min_r by lia. unfold blen in *.
    rewrite Nat2Z.id, firstn_all. symmetry. apply firstn_all2. lia.
Qed.

Lemma subarray_prefix_whole (prevKey : Buffer) (shared : Z) :
  blen prevKey <= shared -> subarray prevKey 0 shared = prevKey.
Proof.
  intros Hs. pose proof (blen_nonneg prevKey).
  rewrite subarray_prefix by lia. apply firstn_all2. unfold blen in *. lia.
Qed.

(** The entries one run of the loop appends are chained from its state. *)
Lemma parseDataBlock_loop_chain (block : Buffer) (restartsStart : Z)
    (fuel : nat) :
  forall st st',
    while fuel (fun st => bs_offset st <? restartsStart)
      (parseDataBlock_body block restartsStart) st = Ok st' ->
    exists new,
      bs_entries st' = bs_entries st ++ new /\
      key_chain block (bs_offset st) (bs_prevKey st) new.
Proof.
  induction fuel as [|fuel IH]; intros st st' Hrun; [discriminate|].
  rewrite while_S in Hrun.
  assert (Hstay : Ok st = Ok st' ->
                  exists new, bs_entries st' = bs_entries st ++ new /\
                    key_chain block (bs_offset st) (bs_prevKey st) new).
  { intros H. injection H as <-. exists []. split;
      [now rewrite app_nil_r | constructor]. }
  destruct (bs_offset st <? restartsStart); [|now apply Hstay].
  unfold parseDataBlock_body in Hrun.
  destruct (readVarint block (bs_offset st)) as [[shared n1] | m |] eqn:E1;
    cbn [bind try_catch] in Hrun; [ | now apply Hstay | discriminate ].
  destruct (readVarint block (bs_offset st + n1))
    as [[nonShared n2] | m |] eqn:E2;
    cbn [bind try_catch] in Hrun; [ | now apply Hstay | discriminate ].
  destruct (readVarint block (bs_offset st + n1 + n2))
    as [[valueLen n3] | m |] eqn:E3;
    cbn [bind try_catch] in Hrun; [ | now apply Hstay | discriminate ].
  destruct (bs_offset st + n1 + n2 + n3 + nonShared + valueLen
            >? restartsStart);
    cbn [try_catch] in Hrun; [now apply Hstay|].
  apply IH in Hrun. cbn [bs_offset bs_prevKey bs_entries concat] in Hrun.
  rewrite !app_nil_r in Hrun.
  destruct Hrun as (new & Hent & Hchain).
  eexists. split.
  - rewrite Hent, <- app_assoc. reflexivity.
  - exact (chain_entry block _ _ _ _ _ _ _ _ _ E1 E2 E3 Hchain).
Qed.

End DataBlocks.

(** C1 (amended): in the entries a block decodes to, every key is the slice
    [previousKey[0:shared]] followed by the new bytes of its entry.  The
    slice is clamped: a shared length that exceeds the length of the
    previous key takes the whole previous key.  Such an entry is appended
    like any other and parsing goes on behind it. *)
Theorem parseDataBlock_key_reconstruction :
  (forall fuel block entries,
      parseDataBlock fuel block = Ok entries -> key_chain block 0 [] entries)
  /\
  (forall prevKey shared,
      0 <= shared ->
      subarray prevKey 0 shared = firstn (Z.to_nat shared) prevKey) /\
  (forall prevKey shared,
      blen prevKey <= shared -> subarray prevKey 0 shared = prevKey) /\
  (forall block restartsStart st shared n1 nonShared n2 valueLen n3,
      readVarint block (bs_offset st) = Ok (shared, n1) ->
      readVarint block (bs_offset st + n1) = Ok (nonShared, n2) ->
      readVarint block (bs_offset st + n1 + n2) = Ok (valueLen, n3) ->
      let o3 := bs_offset st + n1 + n2 + n3 in
      o3 + nonShared + valueLen <= restartsStart ->
      blen (bs_prevKey st) < shared ->
      let k := bs_prevKey st ++ subarray block o3 (o3 + nonShared) in
      let v := subarray block (o3 + nonShared) (o3 + nonShared + valueLen) in
      parseDataBlock_body block restartsStart st
      = Ok (Continue {| bs_offset := o3 + nonShared + valueLen;
                        bs_prevKey := k;
                        bs_entries := bs_entries st ++ [mkEntry k v] |})).
Proof.
  split; [|split; [|split]].
  - intros fuel block entries Hrun. unfold parseDataBlock in Hrun.
    destruct (blen block <? 4);
      [injection Hrun as <-; constructor|].
    destruct (readUInt32LE block (blen block - 4)) as [numRestarts | m |];
      cbn [bind] in Hrun; try discriminate.
    destruct (blen block - 4 - numRestarts * 4 <? 0);
      [injection Hrun as <-; constructor|].
    destruct (while fuel _ _ _) as [st' | m |] eqn:Hloop;
      cbn [bind] in Hrun; try discriminate.
    injection Hrun as <-.
    apply parseDataBlock_loop_chain in Hloop.
    destruct Hloop as (new & Hent & Hchain). cbn in Hent, Hchain.
    now rewrite Hent.
  - apply subarray_prefix.
  - apply subarray_prefix_whole.
  - intros block restartsStart st shared n1 nonShared n2 valueLen n3
      E1 E2 E3 o3 Hspan Hshared k v.
    unfold parseDataBlock_body. rewrite E1. cbn [bind].
    rewrite E2. cbn [bind]. rewrite E3. cbn [bind]. fold o3.
    destruct (Z.gtb_spec (o3 + nonShared + valueLen) restartsStart); [lia|].
    rewrite subarray_prefix_whole by lia.
    cbn [concat try_catch]. rewrite app_nil_r. reflexivity.
Qed.

Lemma parseDataBlock_key_reconstruction_witness :
  let block := [x05; x01; x01; "a"%byte; "1"%byte; x00; x00; x00; x00] in
  key_chain block 0 [] [mkEntry ["a"%byte] ["1"%byte]] /\
  parseDataBlock_body block 5 (mkBlockState 0 [] [])
  = Ok (Continue (mkBlockState 5 ["a"%byte] [mkEntry ["a"%byte] ["1"%byte]])).
Proof.
  intros block.
  destruct parseDataBlock_key_reconstruction as (Hchain & _ & _ & Hstep).
  split.
  - apply (Hchain 2%nat block). reflexivity.
  - apply (Hstep block 5 (mkBlockState 0 [] []) 5 1 1 1 1 1);
      try reflexivity; cbn; lia.
Defined.

(** C1, as stated, fails: the first entry of this block declares 5 shared
    bytes where the previous key is empty, and the entry is decoded and
    returned all the same. *)
Lemma parseDataBlock_shared_overrun_counterexample :
  let block := [x05; x01; x01; "a"%byte; "1"%byte; x00; x00; x00; x00] in
  readVarint block 0 = Ok (5, 1) /\
  blen (@nil byte) < 5 /\
  parseDataBlock 2 block = Ok [mkEntry ["a"%byte] ["1"%byte]] /\
  parseDataBlock 2 block <> Ok [].
Proof.
  intros block. repeat split. discriminate.
Qed.

(** ** The token in the decrypted cookie *)

Section Token.

Import Desktop.

Lemma indexOf_first_occurrence (buf v : Buffer) (n : nat) :
  indexOf buf v = Z.of_nat n -> first_occurrence v buf n.
Proof.
  unfold indexOf. intros Hidx.
  destruct (indexOf_from_spec v buf 0) as [[Hr _] | (m & Hfirst & Hr)];
    [lia|].
  replace n with m by lia. assumption.
Qed.

(** The scan runs over the printable bytes and stops at the end of the
    buffer or at the first byte outside the range. *)
Lemma scanToken_run (token post : Buffer) (i : Z) :
  Forall printable token ->
  post = [] \/ (exists b post', post = b :: post' /\ ~ printable b) ->
  scanToken (token ++ post) i = i + blen token.
Proof.
  intros Htok Hpost. revert i.
  induction Htok as [|a token Ha _ IH]; intros i.
  - change (blen []) with 0. rewrite Z.add_0_r. cbn [app].
    destruct Hpost as [-> | (b & post' & -> & Hb)]; [reflexivity|].
    cbn [scanToken]. unfold printable in Hb.
    destruct (Z.ltb_spec (byteZ b) 33); [reflexivity|].
    destruct (Z.gtb_spec (byteZ b) 126); [reflexivity | lia].
  - cbn [app scanToken]. unfold printable in Ha.
    destruct (Z.ltb_spec (byteZ a) 33); [lia|].
    destruct (Z.gtb_spec (byteZ a) 126); [lia|].
    cbn [orb]. rewrite IH, blen_cons. lia.
Qed.

End Token.

(** C6: once the cookie is decrypted, the plaintext without the marker
    [xoxd-] is returned whole as text; with the marker, the candidate is
    the run of printable bytes that starts at the first occurrence of the
    marker and ends before the first byte outside 0x21..0x7E or at the end
    of the plaintext, and the result is its percent-decoding, or the
    candidate itself when the decoding fails. *)
Theorem decryptChromiumCookieValue_token
    (pbkdf2Sync : string -> Buffer -> Z -> Z -> string -> Buffer)
    (decipher : Buffer -> Buffer -> Buffer -> option Buffer)
    (toString_utf8 : Buffer -> string)
    (decodeURIComponent : string -> option string)
    (encrypted : Buffer) (password : string) (plain : Buffer) :
  encrypted <> [] ->
  decipher (Desktop.derivedKey pbkdf2Sync password) Desktop.iv
    (Desktop.ciphertext toString_utf8 encrypted) = Some plain ->
  let marker := list_byte_of_string "xoxd-" in
  let result :=
    Desktop.decryptChromiumCookieValue pbkdf2Sync decipher toString_utf8
      decodeURIComponent encrypted password in
  ((forall i, ~ occurs_at marker plain i) ->
   result = Ok (toString_utf8 plain)) /\
  (forall pre token post,
      plain = pre ++ token ++ post ->
      first_occurrence marker plain (List.length pre) ->
      Forall printable token ->
      post = [] \/ (exists b post', post = b :: post' /\ ~ printable b) ->
      result = Ok match decodeURIComponent (toString_utf8 token) with
                  | Some decoded => decoded
                  | None => toString_utf8 token
                  end).
Proof.
  intros Hne Hdec marker result.
  assert (Hres : result
    = let idx := indexOf plain marker in
      if idx =? -1 then Ok (toString_utf8 plain)
      else
        let end_ := Desktop.scanToken (skipn (Z.to_nat idx) plain) idx in
        let rawToken := toString_utf8 (subarray plain idx end_) in
        try_catch (call (decodeURIComponent rawToken)) (Ok rawToken)).
  { unfold result, Desktop.decryptChromiumCookieValue.
    destruct (Z.eqb_spec (blen encrypted) 0) as [H0|_].
    - destruct encrypted; [contradiction | discriminate].
    - rewrite Hdec. reflexivity. }
  rewrite Hres. clear Hres. cbv zeta. unfold indexOf.
  destruct (indexOf_from_spec marker plain 0)
    as [[Hr Hno] | (n & Hfirst & Hr)]; rewrite Hr.
  - split; [reflexivity|].
    intros pre token post _ [Hocc _] _ _. exfalso. exact (Hno _ Hocc).
  - split; [intros Hno; exfalso; destruct Hfirst as [Hocc _];
            exact (Hno _ Hocc)|].
    intros pre token post Hplain Hfirst' Htok Hpost.
    assert (n = List.length pre)
      by (eapply first_occurrence_unique; eassumption).
    subst n.
    destruct (Z.eqb_spec (0 + Z.of_nat (List.length pre)) (-1)); [lia|].
    rewrite Z.add_0_l, Nat2Z.id.
    change (Z.of_nat (List.length pre)) with (blen pre).
    assert (Hskip : skipn (List.length pre) plain = token ++ post).
    { rewrite Hplain, skipn_app, skipn_all, Nat.sub_diag. reflexivity. }
    rewrite Hskip, scanToken_run by assumption.
    rewrite (subarray_at plain pre token post) by auto.
    destruct (decodeURIComponent (toString_utf8 token)); reflexivity.
Qed.

Lemma decryptChromiumCookieValue_token_witness :
  let pbkdf2Sync :=
    fun (_ : string) (_ : Buffer) (_ _ : Z) (_ : string) => @nil byte in
  let decipher := fun (_ _ data : Buffer) => Some data in
  let decodeURIComponent := fun s : string =>
    if String.eqb s "xoxd-ABC%2B123" then Some "xoxd-ABC+123"%string
    else None in
  Desktop.decryptChromiumCookieValue pbkdf2Sync decipher string_of_list_byte
    decodeURIComponent
    (list_byte_of_string "v10" ++ x00 :: x01
       :: list_byte_of_string "xoxd-ABC%2B123" ++ [x0a; "x"%byte])
    "peanuts"
  = Ok "xoxd-ABC+123"%string.
Proof.
  intros pbkdf2Sync decipher decodeURIComponent.
  refine (proj2 (decryptChromiumCookieValue_token pbkdf2Sync decipher
                   string_of_list_byte decodeURIComponent _ "peanuts"
                   (x00 :: x01 :: list_byte_of_string "xoxd-ABC%2B123"
                      ++ [x0a; "x"%byte]) _ _)
            [x00; x01] (list_byte_of_string "xoxd-ABC%2B123")
            [x0a; "x"%byte] _ _ _ _).
  - discriminate.
  - reflexivity.
  - reflexivity.
  - apply indexOf_first_occurrence. reflexivity.
  - repeat constructor; vm_compute; discriminate.
  - right. exists x0a, ["x"%byte]. split; [reflexivity|].
    intros [H _]. vm_compute in H. apply H. reflexivity.
Defined.

(** * Further properties of the reader *)

(** ** Both varint readers *)

Section VarintReaders.

Lemma continues_and32 (b : byte) :
  continues b = negb (and32 (num (Some b)) 128 =? 0).
Proof.
  pose proof (byteZ_range b). rewrite and32_byte by lia. reflexivity.
Qed.

(** A run of continuation bytes: the reader fails on the fifth one, or at
    the end of the buffer when there are fewer. *)
Lemma readVarint_loop_unterminated (bs : Buffer) :
  forall (n k : nat) (done rest : Buffer) (r : Z),
    forallb continues bs = true ->
    List.length done = k -> (n + k = 5)%nat ->
    readVarint_loop n (done ++ bs ++ rest) 0 r (7 * Z.of_nat k) (Z.of_nat k)
    = if (5 <=? k + List.length bs)%nat then Throw "Varint too long"
      else readVarint_loop (n - List.length bs) (done ++ bs ++ rest) 0
             (snd (fold_left
                     (fun '(j, acc) b =>
                        (Z.succ j,
                         or32 acc (shl32 (and32 (num (Some b)) 127) (7 * j))))
                     bs (Z.of_nat k, r)))
             (7 * Z.of_nat (k + List.length bs))
             (Z.of_nat (k + List.length bs)).
Proof.
  induction bs as [|b bs IH]; intros n k done rest r Hc Hd Hn.
  - cbn [List.length fold_left snd]. rewrite Nat.add_0_r, Nat.sub_0_r.
    destruct (Nat.leb_spec 5 k); [|reflexivity].
    destruct n; [reflexivity | lia].
  - cbn [forallb] in Hc. apply andb_prop in Hc as [Hb Hc].
    destruct n as [|n].
    { destruct (Nat.leb_spec 5 (k + List.length (b :: bs)));
        [reflexivity | lia]. }
    assert (Hk : Z.of_nat k = blen done) by (unfold blen; lia).
    assert (Hat : at_ (done ++ (b :: bs) ++ rest) (0 + Z.of_nat k) = Some b).
    { rewrite Z.add_0_l, Hk. apply at_middle. }
    assert (Hin : (0 + Z.of_nat k <? blen (done ++ (b :: bs) ++ rest)) = true).
    { apply Z.ltb_lt. cbn [app]. rewrite blen_app, blen_cons.
      pose proof (blen_nonneg (bs ++ rest)). lia. }
    rewrite readVarint_loop_S. cbv zeta. rewrite Hin, Hat.
    rewrite continues_and32 in Hb. apply negb_true_iff in Hb. rewrite Hb.
    cbn [List.length].
    destruct (Z.geb_spec (7 * Z.of_nat k + 7) 35) as [Hge | Hlt].
    + destruct (Nat.leb_spec 5 (k + S (List.length bs))); [reflexivity | lia].
    + replace (7 * Z.of_nat k + 7) with (7 * Z.of_nat (S k)) by lia.
      replace (Z.of_nat k + 1) with (Z.of_nat (S k)) by lia.
      replace (done ++ (b :: bs) ++ rest) with ((done ++ [b]) ++ bs ++ rest)
        by (rewrite <- app_assoc; reflexivity).
      rewrite IH; [ | assumption | rewrite length_app; cbn; lia | lia ].
      replace (S k + List.length bs)%nat with (k + S (List.length bs))%nat
        by lia.
      destruct (Nat.leb_spec 5 (k + S (List.length bs))); [reflexivity|].
      cbn [fold_left]. replace (Z.succ (Z.of_nat k)) with (Z.of_nat (S k))
        by lia.
      reflexivity.
Qed.

(** Where the 32-bit reader succeeds, the capped 64-bit reader consumes the
    same bytes and returns the same bits as an unsigned number. *)
Lemma readVarint64_loop_agrees (buf : Buffer) (offset : Z) (n : nat) :
  forall (m k : nat) (r v c : Z),
    (k < 5)%nat -> (m + k = 10)%nat ->
    readVarint_loop n buf offset r (7 * Z.of_nat k) (Z.of_nat k) = Ok (v, c) ->
    readVarint64_loop m buf offset r (7 * Z.of_nat k) (Z.of_nat k)
    = Ok (v mod 2 ^ 32, c).
Proof.
  induction n as [|n IH]; intros m k r v c Hk Hm Hrun; [discriminate|].
  destruct m as [|m]; [lia|].
  rewrite readVarint_loop_S in Hrun. cbv zeta in Hrun.
  cbn [readVarint64_loop].
  destruct (offset + Z.of_nat k <? blen buf); [|discriminate].
  destruct (Z.ltb_spec (Z.of_nat k) 10); [|lia].
  destruct (Z.ltb_spec (7 * Z.of_nat k) 32); [|lia].
  cbn [andb].
  destruct (and32 (num (at_ buf (offset + Z.of_nat k))) 128 =? 0).
  - injection Hrun as <- <-. reflexivity.
  - destruct (Z.geb_spec (7 * Z.of_nat k + 7) 35); [discriminate|].
    replace (7 * Z.of_nat k + 7) with (7 * Z.of_nat (S k)) in * by lia.
    replace (Z.of_nat k + 1) with (Z.of_nat (S k)) in * by lia.
    apply IH; [lia | lia | assumption].
Qed.

End VarintReaders.

(** X1: the varint the test builder writes for a number below 2^31 has at
    most 5 bytes, and the reader finds the number behind any prefix and
    before any suffix, consuming exactly these bytes. *)
Theorem encodeVarint_round_trip (pre post : Buffer) (v : Z) :
  0 <= v < 2 ^ 31 ->
  1 <= blen (encodeVarint v) <= 5 /\
  readVarint (pre ++ encodeVarint v ++ post) (blen pre)
  = Ok (v, blen (encodeVarint v)).
Proof.
  intros Hv. split; [split|].
  - apply encodeVarint_nonempty.
  - unfold encodeVarint, blen. cbn [encodeVarint_loop].
    repeat match goal with |- context [if ?c then _ else _] => destruct c end;
      cbn [List.length]; lia.
  - now apply readVarint_encodeVarint.
Qed.

Lemma encodeVarint_round_trip_witness :
  readVarint ([xff] ++ encodeVarint 300 ++ [x80]) 1 = Ok (300, 2).
Proof.
  exact (proj2 (encodeVarint_round_trip [xff] [x80] 300 ltac:(lia))).
Defined.

(** X2: a varint whose first five bytes all carry the continuation bit is
    refused as too long, and one that the end of the buffer cuts short
    before its last byte is refused as truncated. *)
Theorem readVarint_unterminated (pre bs rest : Buffer) :
  forallb continues bs = true ->
  ((5 <= List.length bs)%nat ->
   readVarint (pre ++ bs ++ rest) (blen pre) = Throw "Varint too long") /\
  ((List.length bs < 5)%nat ->
   readVarint (pre ++ bs) (blen pre)
   = Throw "Unexpected end of buffer reading varint").
Proof.
  intros Hc. split; intros Hlen.
  - replace (blen pre) with (blen pre + 0) by lia.
    rewrite readVarint_app_r by lia. unfold readVarint.
    pose proof (readVarint_loop_unterminated bs 5 0 [] rest 0 Hc eq_refl
                  eq_refl) as H.
    cbn [app Z.of_nat Z.mul] in H. rewrite H.
    destruct (Nat.leb_spec 5 (0 + List.length bs)); [reflexivity | lia].
  - replace (blen pre) with (blen pre + 0) by lia.
    rewrite readVarint_app_r by lia. unfold readVarint.
    pose proof (readVarint_loop_unterminated bs 5 0 [] [] 0 Hc eq_refl
                  eq_refl) as H.
    cbn [app Z.of_nat Z.mul] in H. rewrite app_nil_r in H. rewrite H.
    destruct (Nat.leb_spec 5 (0 + List.length bs)); [lia|].
    destruct (5 - List.length bs)%nat as [|n] eqn:E; [lia|].
    rewrite readVarint_loop_S.
    destruct (Z.ltb_spec (0 + Z.of_nat (0 + List.length bs)) (blen bs));
      [unfold blen in *; lia | reflexivity].
Qed.

Lemma readVarint_unterminated_witness :
  readVarint ([x01] ++ [x80; xff; x81; x90; xa0] ++ [x01]) 1
  = Throw "Varint too long" /\
  readVarint ([x01] ++ [x80; xff]) 1
  = Throw "Unexpected end of buffer reading varint".
Proof.
  split.
  - apply (proj1 (readVarint_unterminated [x01] [x80; xff; x81; x90; xa0]
                    [x01] eq_refl)). cbn. lia.
  - apply (proj2 (readVarint_unterminated [x01] [x80; xff] [] eq_refl)).
    cbn. lia.
Defined.

Lemma readVarint64_of_readVarint (buf : Buffer) (offset v n : Z) :
  readVarint buf offset = Ok (v, n) ->
  readVarint64 buf offset = Ok (v mod 2 ^ 32, n).
Proof.
  intros Hrun. unfold readVarint64.
  apply (readVarint64_loop_agrees buf offset 5 10 0 0 v n); [lia | lia|].
  exact Hrun.
Qed.

(** X3: wherever [readVarint] succeeds, [readVarint64] succeeds on the same
    bytes, consumes as many, and returns the same 32 bits read as an
    unsigned number. *)
Theorem readVarint64_agrees_with_readVarint (buf : Buffer) (offset v n : Z) :
  readVarint buf offset = Ok (v, n) ->
  readVarint64 buf offset = Ok (v mod 2 ^ 32, n).
Proof. apply readVarint64_of_readVarint. Qed.

Lemma readVarint64_agrees_with_readVarint_witness :
  readVarint [xfa; xff; xff; xff; x0f] 0 = Ok (-6, 5) /\
  readVarint64 [xfa; xff; xff; xff; x0f] 0 = Ok (4294967290, 5).
Proof.
  split; [reflexivity|].
  exact (readVarint64_agrees_with_readVarint [xfa; xff; xff; xff; x0f] 0
           (-6) 5 eq_refl).
Defined.

Section SignedVarint.

Lemma readVarint_loop_spec (n : nat) (buf : Buffer) (offset : Z) :
  0 <= offset ->
  forall (k : nat) (v m : Z),
    let bs := skipn (Z.to_nat offset) buf in
    forallb continues (firstn k bs) = true ->
    (k <= List.length bs)%nat -> (k < 5)%nat ->
    readVarint_loop n buf offset (toInt32 (varint_value (firstn k bs)))
      (7 * Z.of_nat k) (Z.of_nat k) = Ok (v, m) ->
    exists j : nat,
      m = Z.of_nat j /\ (k < j <= 5)%nat /\ (j <= List.length bs)%nat /\
      terminated (firstn j bs) = true /\
      v = toInt32 (varint_value (firstn j bs)).
Proof.
  intros Ho. induction n as [|n IH]; intros k v m bs Hc Hk Hk5 Hrun;
    [discriminate|].
  rewrite readVarint_loop_S in Hrun. cbv zeta in Hrun.
  destruct (Z.ltb_spec (offset + Z.of_nat k) (blen buf)) as [Hin|];
    [|discriminate].
  apply blen_skipn in Hin; [|assumption]. fold bs in Hin.
  rewrite at_skipn in Hrun by assumption. fold bs in Hrun.
  destruct (nth_error bs k) as [b|] eqn:Hb;
    [|apply nth_error_None in Hb; lia].
  pose proof (byteZ_range b) as Hbr.
  rewrite !and32_byte in Hrun by lia. cbn [num] in Hrun.
  pose proof (varint_value_range (firstn k bs)) as HV.
  rewrite length_firstn, Nat.min_l in HV by lia.
  assert (Hp : 2 ^ (7 * Z.of_nat k) <= 2 ^ 28)
    by (apply Z.pow_le_mono_r; lia).
  rewrite (toInt32_small (varint_value (firstn k bs))) in Hrun by lia.
  rewrite or32_shl32_group in Hrun
    by (try lia; apply land_127_range).
  assert (Hsnoc : varint_value (firstn (S k) bs)
                  = varint_value (firstn k bs)
                    + Z.land (byteZ b) 127 * 2 ^ (7 * Z.of_nat k)).
  { rewrite (firstn_snoc bs k b Hb), varint_value_snoc.
    rewrite length_firstn, Nat.min_l by lia. reflexivity. }
  rewrite <- Hsnoc in Hrun.
  destruct (Z.eqb_spec (Z.land (byteZ b) 128) 0) as [Hstop | Hgo].
  - injection Hrun as <- <-. exists (S k).
    repeat split; try lia.
    rewrite (firstn_snoc bs k b Hb). apply terminated_snoc; [assumption|].
    unfold continues. now rewrite Hstop.
  - destruct (Z.geb_spec (7 * Z.of_nat k + 7) 35); [discriminate|].
    replace (7 * Z.of_nat k + 7) with (7 * Z.of_nat (S k)) in Hrun by lia.
    replace (Z.of_nat k + 1) with (Z.of_nat (S k)) in Hrun by lia.
    apply IH in Hrun.
    + destruct Hrun as (j & Hm & Hj & Hlen & Hterm & Hv).
      exists j. repeat split; try assumption; lia.
    + fold bs. rewrite (firstn_snoc bs k b Hb), forallb_app, Hc. cbn.
      unfold continues. destruct (Z.eqb_spec (Z.land (byteZ b) 128) 0);
        [contradiction | reflexivity].
    + fold bs. lia.
    + lia.
Qed.

End SignedVarint.

(** X4: a successful [readVarint] consumes one complete varint of at most 5
    bytes and returns its value wrapped to a signed 32-bit number, so a
    5-byte varint with bit 31 set reads as a negative number. *)
Theorem readVarint_signed_value (buf : Buffer) (offset v n : Z) :
  0 <= offset ->
  readVarint buf offset = Ok (v, n) ->
  let bs := firstn (Z.to_nat n) (skipn (Z.to_nat offset) buf) in
  1 <= n <= 5 /\
  blen bs = n /\
  terminated bs = true /\
  v = toInt32 (varint_value bs) /\
  (v < 0 <-> 2 ^ 31 <= varint_value bs mod 2 ^ 32).
Proof.
  intros Ho Hrun bs. unfold readVarint in Hrun.
  destruct (readVarint_loop_spec 5 buf offset Ho 0 v n) as
    (j & Hn & Hj & Hlen & Hterm & Hv); try (reflexivity || assumption).
  { simpl. lia. }
  { lia. }
  subst n. unfold bs. rewrite Nat2Z.id.
  assert (Hb : blen (firstn j (skipn (Z.to_nat offset) buf)) = Z.of_nat j).
  { unfold blen. rewrite length_firstn. lia. }
  repeat split; try assumption; try lia.
  - intros Hneg. rewrite Hv in Hneg. unfold toInt32 in Hneg.
    set (V := varint_value (firstn j (skipn (Z.to_nat offset) buf))) in *.
    pose proof (Z.mod_pos_bound V (2 ^ 32) ltac:(lia)).
    pose proof (Z.mod_pos_bound (V + 2 ^ 31) (2 ^ 32) ltac:(lia)).
    destruct (Z.lt_ge_cases (V mod 2 ^ 32) (2 ^ 31)) as [Hlow|]; [|lia].
    exfalso.
    assert (E : (V + 2 ^ 31) mod 2 ^ 32 = V mod 2 ^ 32 + 2 ^ 31).
    { rewrite <- Zplus_mod_idemp_l. apply Z.mod_small. lia. }
    lia.
  - intros Hhigh. rewrite Hv. unfold toInt32.
    set (V := varint_value (firstn j (skipn (Z.to_nat offset) buf))) in *.
    pose proof (Z.mod_pos_bound V (2 ^ 32) ltac:(lia)).
    assert (E : (V + 2 ^ 31) mod 2 ^ 32 = V mod 2 ^ 32 - 2 ^ 31).
    { rewrite <- Zplus_mod_idemp_l.
      replace (V mod 2 ^ 32 + 2 ^ 31)
        with (V mod 2 ^ 32 - 2 ^ 31 + 1 * 2 ^ 32) by lia.
      rewrite Z_mod_plus_full. apply Z.mod_small. lia. }
    lia.
Qed.

Lemma readVarint_signed_value_witness :
  let buf := [x00; xfa; xff; xff; xff; x0f; x07] in
  readVarint buf 1 = Ok (-6, 5) /\
  -6 = toInt32 (varint_value (firstn 5 (skipn 1 buf))).
Proof.
  intros buf. split; [reflexivity|].
  exact (proj1 (proj2 (proj2 (proj2
    (readVarint_signed_value buf 1 (-6) 5 ltac:(lia) eq_refl))))).
Defined.

Lemma parseBlockHandle_encoded (pre post : Buffer) (off size : Z) :
  0 <= off < 2 ^ 31 -> 0 <= size < 2 ^ 31 ->
  parseBlockHandle (pre ++ encodeVarint off ++ encodeVarint size ++ post)
    (blen pre)
  = Ok {| h_offset := off; h_size := size;
          h_bytesRead := blen (encodeVarint off) + blen (encodeVarint size) |}.
Proof.
  intros Hoff Hsize. unfold parseBlockHandle.
  rewrite (readVarint64_of_readVarint _ _ off (blen (encodeVarint off)))
    by (now apply readVarint_encodeVarint).
  cbn [bind].
  rewrite (readVarint64_of_readVarint _ _ size (blen (encodeVarint size))).
  - cbn [bind]. rewrite !Z.mod_small by lia. reflexivity.
  - rewrite <- blen_app, app_assoc. now apply readVarint_encodeVarint.
Qed.

(** X5: a block handle written as two varints below 2^31 is read back as
    this offset and this size behind any prefix, and the bytes consumed are
    those of the two varints. *)
Theorem parseBlockHandle_round_trip (pre post : Buffer) (off size : Z) :
  0 <= off < 2 ^ 31 -> 0 <= size < 2 ^ 31 ->
  parseBlockHandle (pre ++ encodeVarint off ++ encodeVarint size ++ post)
    (blen pre)
  = Ok {| h_offset := off; h_size := size;
          h_bytesRead := blen (encodeVarint off) + blen (encodeVarint size) |}.
Proof. apply parseBlockHandle_encoded. Qed.

Lemma parseBlockHandle_round_trip_witness :
  parseBlockHandle ([x09] ++ encodeVarint 300 ++ encodeVarint 70000 ++ [x01]) 1
  = Ok {| h_offset := 300; h_size := 70000; h_bytesRead := 5 |}.
Proof.
  exact (parseBlockHandle_round_trip [x09] [x01] 300 70000 ltac:(lia)
           ltac:(lia)).
Defined.

(** ** No exception leaves the reader *)

Section NoThrow.

Lemma try_catch_no_throw {A} (c h : Res A) :
  (forall m, h <> Throw m) -> forall m, try_catch c h <> Throw m.
Proof. intros Hh m. destruct c; cbn; [discriminate | apply Hh | discriminate]. Qed.

Lemma bind_no_throw {A B} (c : Res A) (k : A -> Res B) :
  (forall m, c <> Throw m) -> (forall a m, k a <> Throw m) ->
  forall m, bind c k <> Throw m.
Proof.
  intros Hc Hk m. destruct c as [a | msg |]; cbn;
    [apply Hk | exfalso; exact (Hc msg eq_refl) | discriminate].
Qed.

Lemma for_of_no_throw {A S} (l : list A) (body : A -> S -> Res S) :
  (forall a s m, body a s <> Throw m) ->
  forall s m, for_of l body s <> Throw m.
Proof.
  intros Hb. induction l as [|a l IH]; intros s m; cbn [for_of];
    [discriminate|].
  apply bind_no_throw; [apply Hb | intros; apply IH].
Qed.

(** A loop whose body never throws from the states it reaches never
    throws. *)
Lemma while_no_throw {S} (Inv : S -> Prop) (cond : S -> bool)
    (body : S -> Res (Step S)) :
  (forall s, Inv s -> cond s = true ->
             (forall m, body s <> Throw m) /\
             (forall s', body s = Ok (Continue s') -> Inv s')) ->
  forall fuel s, Inv s -> forall m, while fuel cond body s <> Throw m.
Proof.
  intros Hbody. induction fuel as [|fuel IH]; intros s Hs m; [discriminate|].
  rewrite while_S. destruct (cond s) eqn:Hc; [|discriminate].
  destruct (Hbody s Hs Hc) as [Hno Hinv].
  destruct (body s) as [[s' | s'] | m' |] eqn:E;
    [ apply IH; now apply Hinv | discriminate
    | exfalso; exact (Hno m' eq_refl) | discriminate ].
Qed.

Lemma parseDataBlock_no_throw (fuel : nat) (block : Buffer) (m : string) :
  parseDataBlock fuel block <> Throw m.
Proof.
  unfold parseDataBlock.
  destruct (Z.ltb_spec (blen block) 4); [discriminate|].
  unfold readUInt32LE.
  destruct (Z.ltb_spec (blen block - 4) 0); [lia|].
  destruct (Z.gtb_spec (blen block - 4 + 4) (blen block)); [lia|].
  cbn [orb bind].
  destruct (_ <? 0); [discriminate|].
  apply bind_no_throw; [|discriminate].
  apply (while_no_throw (fun _ => True)); [|exact I].
  intros s _ _. split; [|trivial].
  apply try_catch_no_throw. discriminate.
Qed.

Lemma parseLogBatch_no_throw (fuel : nat) (batch : Buffer)
    (entries : list LevelDBEntry) (m : string) :
  parseLogBatch fuel batch entries <> Throw m.
Proof.
  unfold parseLogBatch. destruct (blen batch <? 12); [discriminate|].
  apply bind_no_throw; [|discriminate].
  apply (while_no_throw (fun _ => True)); [|exact I].
  intros s _ _. split; [|trivial].
  apply try_catch_no_throw. discriminate.
Qed.

(** One iteration of the log reader from an offset that is not negative:
    it does not throw, and the offset stays non-negative. *)
Lemma parseLogFile_body_safe (fuel : nat) (data : Buffer) (st : LogState) :
  0 <= lg_offset st ->
  (forall m, parseLogFile_body fuel data st <> Throw m) /\
  (forall st', parseLogFile_body fuel data st = Ok (Continue st') ->
               lg_offset st < lg_offset st').
Proof.
  intros Ho. unfold parseLogFile_body. cbv zeta.
  pose proof (Z.rem_bound_pos (lg_offset st) BLOCK_SIZE Ho eq_refl) as Hrem.
  set (remaining := BLOCK_SIZE - Z.rem (lg_offset st) BLOCK_SIZE) in *.
  assert (Hremaining : 0 < remaining) by (unfold remaining; lia).
  clearbody remaining.
  assert (Hcont : forall o p e st',
             lg_offset st < o ->
             Ok (Continue (mkLogState o p e)) = Ok (Continue st') ->
             lg_offset st < lg_offset st').
  { intros o p e st' Hlt H. injection H as <-. exact Hlt. }
  destruct (_ <? 7).
  { split; [discriminate|]. intros st'. apply Hcont. lia. }
  destruct (Z.gtb_spec (lg_offset st + 7) (blen data)).
  { split; discriminate. }
  unfold readUInt16LE at 1 2.
  destruct (Z.ltb_spec (lg_offset st + 4) 0); [lia|].
  destruct (Z.gtb_spec (lg_offset st + 4 + 2) (blen data)); [lia|].
  cbn [orb bind].
  set (length := num (at_ data (lg_offset st + 4))
                 + 256 * num (at_ data (lg_offset st + 4 + 1))).
  assert (0 <= length).
  { unfold length. pose proof (num_range (at_ data (lg_offset st + 4))).
    pose proof (num_range (at_ data (lg_offset st + 4 + 1))). lia. }
  clearbody length.
  destruct (_ || _).
  { split; [discriminate|]. intros st'. apply Hcont. lia. }
  repeat match goal with
         | |- context [if ?c then _ else _] => destruct c
         end;
    (split; [ intros m;
              first [ discriminate
                    | apply bind_no_throw;
                      [apply parseLogBatch_no_throw | discriminate] ]
            | intros st';
              first [ apply Hcont; lia
                    | destruct (parseLogBatch _ _ _); cbn [bind];
                      first [discriminate | apply Hcont; lia] ] ]).
Qed.

Lemma parseLogData_no_throw (fuel : nat) (data : Buffer) (m : string) :
  parseLogData fuel data <> Throw m.
Proof.
  unfold parseLogData. apply bind_no_throw; [|discriminate].
  apply (while_no_throw (fun st => 0 <= lg_offset st)); [|cbn; lia].
  intros s Hs _. destruct (parseLogFile_body_safe fuel data s Hs) as [Hno Hinc].
  split; [exact Hno|]. intros s' H. specialize (Hinc s' H). lia.
Qed.

End NoThrow.

(** C10 (amended): the decoder raises no error, on any batch.  On a put
    whose declared length is below 2^31 and passes the end of the batch:
    when it is the value length, the entry is appended with the whole key
    and the value bytes that remain; when it is the key length, the value
    length cannot be read behind the key, the record is dropped and
    decoding stops, the entries of the records before it being kept. *)
Theorem parseLogBatch_put_overrun (fuel : nat) (header : Buffer)
    (ops : list BatchOp) (k avail : Buffer) (declared : Z)
    (entries : list LevelDBEntry) :
  List.length header = 12%nat ->
  (List.length ops + 1 < fuel)%nat ->
  blen header + blen (encode_ops ops) + blen k + blen avail + 12 < 2 ^ 31 ->
  blen avail < declared < 2 ^ 31 ->
  (forall batch entries' m, parseLogBatch fuel batch entries' <> Throw m) /\
  parseLogBatch fuel
    (header ++ encode_ops ops
       ++ x01 :: encodeVarint (blen k) ++ k ++ encodeVarint declared ++ avail)
    entries
  = Ok (entries ++ puts_of ops ++ [mkEntry k avail]) /\
  parseLogBatch fuel
    (header ++ encode_ops ops ++ x01 :: encodeVarint declared ++ avail)
    entries
  = Ok (entries ++ puts_of ops).
Proof.
  intros Hh Hfuel Hlen Hd.
  pose proof (blen_nonneg header). pose proof (blen_nonneg (encode_ops ops)).
  pose proof (blen_nonneg k). pose proof (blen_nonneg avail).
  assert (Hv5 : forall v, blen (encodeVarint v) <= 5).
  { intros v. unfold encodeVarint, blen. cbn [encodeVarint_loop].
    repeat match goal with |- context [if ?c then _ else _] => destruct c end;
      cbn [List.length]; lia. }
  pose proof (Hv5 (blen k)). pose proof (Hv5 declared).
  pose proof (encodeVarint_nonempty (blen k)).
  pose proof (encodeVarint_nonempty declared).
  split; [intros batch entries' m; apply parseLogBatch_no_throw|].
  split.
  - set (record := x01 :: encodeVarint (blen k) ++ k
                     ++ encodeVarint declared ++ avail).
    set (batch := header ++ encode_ops ops ++ record).
    assert (Hbl : blen batch
                  = blen header + blen (encode_ops ops) + 1
                    + blen (encodeVarint (blen k)) + blen k
                    + blen (encodeVarint declared) + blen avail).
    { unfold batch, record. rewrite !blen_app, blen_cons, !blen_app. lia. }
    assert (Hh' : blen header = 12) by (unfold blen; lia).
    unfold parseLogBatch.
    destruct (Z.ltb_spec (blen batch) 12); [lia|].
    rewrite <- Hh'.
    replace fuel
      with (List.length ops + S (S (fuel - S (S (List.length ops)))))%nat
      by lia.
    unfold batch. rewrite parseLogBatch_loop_ops by (fold batch; lia).
    fold batch. rewrite while_S. cbn [ba_offset].
    destruct (Z.ltb_spec (blen header + blen (encode_ops ops)) (blen batch));
      [|lia].
    rewrite <- blen_app.
    assert (Hb : batch = (header ++ encode_ops ops) ++ record)
      by (unfold batch; now rewrite <- app_assoc).
    destruct (parseLogBatch_body_value_overrun (header ++ encode_ops ops)
                k avail declared (entries ++ puts_of ops))
      as (o & Ho & Hbody); [lia | lia |].
    fold record in Ho, Hbody. rewrite <- Hb in Ho, Hbody.
    rewrite Hbody, while_S. cbn [ba_offset ba_entries bind].
    destruct (Z.ltb_spec o (blen batch)); [lia|].
    cbn [ba_entries]. now rewrite <- app_assoc.
  - apply parseLogBatch_records; try assumption; try lia.
    + rewrite !blen_app, blen_cons, blen_app. lia.
    + apply key_overrun_stops. lia.
Qed.

Lemma parseLogBatch_put_overrun_witness :
  let header := repeat x00 12 in
  parseLogBatch 3
    (header ++ encode_ops [Put ["a"%byte] ["b"%byte]]
       ++ x01 :: encodeVarint (blen ["k"%byte]) ++ ["k"%byte]
       ++ encodeVarint 9 ++ ["v"%byte; "w"%byte])
    []
  = Ok ([] ++ puts_of [Put ["a"%byte] ["b"%byte]]
          ++ [mkEntry ["k"%byte] ["v"%byte; "w"%byte]]) /\
  parseLogBatch 3
    (header ++ encode_ops [Put ["a"%byte] ["b"%byte]]
       ++ x01 :: encodeVarint 9 ++ ["v"%byte; "w"%byte])
    []
  = Ok ([] ++ puts_of [Put ["a"%byte] ["b"%byte]]).
Proof.
  intros header.
  refine (proj2 (parseLogBatch_put_overrun 3 header
                   [Put ["a"%byte] ["b"%byte]] ["k"%byte]
                   ["v"%byte; "w"%byte] 9 [] _ _ _ _)).
  - reflexivity.
  - simpl. lia.
  - vm_compute. reflexivity.
  - vm_compute. split; reflexivity.
Defined.

(** C10, as stated, fails when it is the key length that passes the end of
    the batch: the put declares a key of 5 bytes where 1 byte remains, and
    no entry is appended. *)
Lemma parseLogBatch_key_overrun_counterexample :
  let batch := repeat x00 12 ++ [x01; x05; "a"%byte] in
  readVarint batch 13 = Ok (5, 1) /\
  blen batch - 14 < 5 /\
  parseLogBatch 2 batch [] = Ok [] /\
  (forall fuel e, parseLogBatch fuel batch [] <> Ok [e]).
Proof.
  intros batch. repeat split.
  intros [|fuel] e; discriminate.
Qed.

(** X6: none of the three decoders of byte buffers lets an exception out,
    whatever the bytes are: a data block, a write batch and the content of a
    log file each give a result or keep running. *)
Theorem decoders_never_throw (fuel : nat) (buf : Buffer)
    (entries : list LevelDBEntry) (m : string) :
  parseDataBlock fuel buf <> Throw m /\
  parseLogBatch fuel buf entries <> Throw m /\
  parseLogData fuel buf <> Throw m.
Proof.
  split; [apply parseDataBlock_no_throw|].
  split; [apply parseLogBatch_no_throw | apply parseLogData_no_throw].
Qed.

Section FilesNoThrow.

Variable readFile : string -> option Buffer.
Variable readdir : string -> option (list string).
Variable join : string -> string -> string.
Variable snappyUncompress : Buffer -> Z -> option Buffer.
Variable spreadable : nat -> bool.

Lemma try_or_return_no_throw {A B} (c : Res A) (h : Res B) (k : A -> Res B) :
  (forall m, h <> Throw m) -> (forall a m, k a <> Throw m) ->
  forall m, try_or_return c h k <> Throw m.
Proof.
  intros Hh Hk m. destruct c; cbn; [apply Hk | apply Hh | discriminate].
Qed.

Lemma parseSSTable_no_throw (fuel : nat) (filePath m : string) :
  parseSSTable readFile snappyUncompress spreadable fuel filePath <> Throw m.
Proof.
  unfold parseSSTable. apply try_or_return_no_throw; [discriminate|].
  intros data m'. destruct (_ <? 48); [discriminate|].
  destruct (negb _); [discriminate|].
  apply try_catch_no_throw. discriminate.
Qed.

Lemma parseLogFile_no_throw (fuel : nat) (filePath m : string) :
  parseLogFile readFile fuel filePath <> Throw m.
Proof.
  unfold parseLogFile. apply try_or_return_no_throw; [discriminate|].
  intros data m'. apply parseLogData_no_throw.
Qed.

Lemma for_of_push_throws {A} (parse : A -> Res (list LevelDBEntry))
    (l : list A) :
  (forall a m, parse a <> Throw m) ->
  forall entries m,
    for_of l (fun a entries =>
                fileEntries <- parse a ;;
                push_spread spreadable entries fileEntries) entries
    = Throw m ->
    exists a fileEntries,
      In a l /\ parse a = Ok fileEntries /\
      spreadable (List.length fileEntries) = false.
Proof.
  intros Hparse. induction l as [|a l IH]; intros entries m; cbn [for_of];
    [discriminate|].
  destruct (parse a) as [fileEntries | m' |] eqn:Ha;
    [| exfalso; exact (Hparse a m' Ha) | discriminate].
  cbn [bind]. unfold push_spread at 1.
  destruct (spreadable (List.length fileEntries)) eqn:Hfit; cbn [bind].
  - intros Hrest. apply IH in Hrest.
    destruct Hrest as (a' & es & Hin & Hes & Hno).
    exists a', es. repeat split; [now right | assumption | assumption].
  - intros _. exists a, fileEntries.
    repeat split; [now left | assumption | assumption].
Qed.

Lemma readChromiumLevelDB_throws (fuel : nat) (dir m : string) :
  readChromiumLevelDB readFile readdir join snappyUncompress spreadable fuel
    dir = Throw m ->
  oversized_file readFile readdir join snappyUncompress spreadable fuel dir.
Proof.
  unfold readChromiumLevelDB, oversized_file.
  destruct (readdir dir) as [files|]; cbn [await try_or_return];
    [|discriminate].
  fold is_table. change (fun f : string => endsWith f ".log") with is_log.
  intros Hrun. exists files.
  destruct (for_of (filter is_table files) _ []) as [entries | m' |] eqn:Ht;
    cbn [bind] in Hrun; [| | discriminate].
  - destruct (for_of (filter is_log files) _ entries) as [entries' | m' |]
      eqn:Hl; cbn [bind] in Hrun; try discriminate.
    apply (for_of_push_throws
             (fun f => parseLogFile readFile fuel (join dir f))) in Hl;
      [|intros f m''; apply parseLogFile_no_throw].
    destruct Hl as (f & es & Hin & Hes & Hno).
    apply filter_In in Hin. destruct Hin as [Hin Hlog].
    exists f, es. repeat split; [assumption | now right | assumption].
  - apply (for_of_push_throws
             (fun f => parseSSTable readFile snappyUncompress spreadable fuel
                         (join dir f))) in Ht;
      [|intros f m''; apply parseSSTable_no_throw].
    destruct Ht as (f & es & Hin & Hes & Hno).
    apply filter_In in Hin. destruct Hin as [Hin Htable].
    exists f, es. repeat split; [assumption | now left | assumption].
Qed.

Lemma findKeysContaining_throws (fuel : nat) (dir : string)
    (substring : Buffer) (m : string) :
  findKeysContaining readFile readdir join snappyUncompress spreadable fuel
    dir substring = Throw m ->
  oversized_file readFile readdir join snappyUncompress spreadable fuel dir.
Proof.
  unfold findKeysContaining.
  destruct (readChromiumLevelDB _ _ _ _ _ _ _) as [all | m' |] eqn:Hscan;
    cbn [bind]; try discriminate.
  intros _. eapply readChromiumLevelDB_throws. exact Hscan.
Qed.

End FilesNoThrow.

(** X7: the readers of one file let no exception out, whatever the file
    system holds and whatever the decompressor does: an unreadable file, a
    truncated table, a failed decompression or a block with too many
    entries for one [push] never reaches the caller of [parseSSTable] or
    [parseLogFile].  The scan of a directory and the query throw in one
    case only: a table or a log of the listing has more entries than one
    [push] accepts. *)
Theorem readers_throw_only_past_push_limit
    (readFile : string -> option Buffer)
    (readdir : string -> option (list string))
    (join : string -> string -> string)
    (snappyUncompress : Buffer -> Z -> option Buffer)
    (spreadable : nat -> bool) (fuel : nat)
    (path : string) (substring : Buffer) (m : string) :
  parseSSTable readFile snappyUncompress spreadable fuel path <> Throw m /\
  parseLogFile readFile fuel path <> Throw m /\
  (readChromiumLevelDB readFile readdir join snappyUncompress spreadable fuel
     path = Throw m ->
   oversized_file readFile readdir join snappyUncompress spreadable fuel
     path) /\
  (findKeysContaining readFile readdir join snappyUncompress spreadable fuel
     path substring = Throw m ->
   oversized_file readFile readdir join snappyUncompress spreadable fuel
     path).
Proof.
  split; [apply parseSSTable_no_throw|].
  split; [apply parseLogFile_no_throw|].
  split; [apply readChromiumLevelDB_throws | apply findKeysContaining_throws].
Qed.

Lemma readers_throw_only_past_push_limit_witness :
  let log := createTestLogFile
               [mkTest (list_byte_of_string "k1") (list_byte_of_string "a");
                mkTest (list_byte_of_string "k2") (list_byte_of_string "b")] in
  let readFile := fun _ : string => Some log in
  let readdir := fun _ : string => Some ["000003.log"%string] in
  let join := fun _ f : string => f in
  oversized_file readFile readdir join (fun _ _ => None) (accepts 1) 4 "db".
Proof.
  intros log readFile readdir join.
  apply (proj1 (proj2 (proj2
           (readers_throw_only_past_push_limit readFile readdir join
              (fun _ _ => None) (accepts 1) 4 "db" []
              "RangeError: Maximum call stack size exceeded")))).
  vm_compute. reflexivity.
Defined.

(** ** The table builder against the table reader *)

Ltac app_norm := repeat (rewrite <- ?app_assoc; cbn [app]); reflexivity.

Section BlockRoundTrip.

Lemma sharedLength_spec (prevKey keyBuf : Buffer) :
  let s := sharedLength prevKey keyBuf in
  0 <= s <= blen prevKey /\ s <= blen keyBuf /\
  firstn (Z.to_nat s) prevKey = firstn (Z.to_nat s) keyBuf.
Proof.
  assert (Hzero : forall a b : Buffer,
             0 <= 0 <= blen a /\ 0 <= blen b /\
             firstn (Z.to_nat 0) a = firstn (Z.to_nat 0) b).
  { intros a b. pose proof (blen_nonneg a). pose proof (blen_nonneg b).
    repeat split; lia. }
  revert keyBuf. induction prevKey as [|p prevKey IH]; intros [|k keyBuf];
    cbn [sharedLength]; cbv zeta; try apply Hzero.
  destruct (byte_eq_dec p k) as [-> | _]; [|apply Hzero].
  destruct (IH keyBuf) as (H1 & H2 & H3). rewrite !blen_cons.
  repeat split; try lia.
  replace (Z.to_nat (1 + sharedLength prevKey keyBuf))
    with (S (Z.to_nat (sharedLength prevKey keyBuf))) by lia.
  cbn [firstn]. now rewrite H3.
Qed.

Lemma subarray_from_skipn (buf : Buffer) (s : Z) :
  0 <= s <= blen buf -> subarray_from buf s = skipn (Z.to_nat s) buf.
Proof.
  intros Hs. unfold subarray_from. rewrite subarray_nonneg by lia.
  rewrite Z.min_id, Z.min_l by lia.
  apply firstn_all2. rewrite length_skipn. unfold blen in *. lia.
Qed.

Lemma readUInt32LE_at (pre rest : Buffer) (v : Z) :
  0 <= v < 2 ^ 32 ->
  readUInt32LE (pre ++ uint32LE v ++ rest) (blen pre) = Ok v.
Proof.
  intros Hv. pose proof (blen_nonneg pre). pose proof (blen_nonneg rest).
  unfold readUInt32LE, uint32LE. cbn [app].
  rewrite blen_app, !blen_cons.
  destruct (Z.ltb_spec (blen pre) 0); [lia|].
  destruct (Z.gtb_spec (blen pre + 4)
              (blen pre + (1 + (1 + (1 + (1 + blen rest)))))); [lia|].
  cbn [orb].
  set (b0 := byte_of_Z v). set (b1 := byte_of_Z (v / 256)).
  set (b2 := byte_of_Z (v / 65536)). set (b3 := byte_of_Z (v / 16777216)).
  assert (Hat : forall (d : Buffer) (b : byte) (r whole : Buffer) (i : Z),
             whole = pre ++ d ++ b :: r -> i = blen pre + blen d ->
             at_ whole i = Some b).
  { intros d b r whole i -> ->. rewrite app_assoc, <- blen_app.
    apply at_middle. }
  rewrite (Hat [] b0 (b1 :: b2 :: b3 :: rest) (pre ++ b0 :: b1 :: b2 :: b3 :: rest) (blen pre) eq_refl)
    by (change (blen []) with 0; lia).
  rewrite (Hat [b0] b1 (b2 :: b3 :: rest) (pre ++ b0 :: b1 :: b2 :: b3 :: rest) (blen pre + 1) eq_refl
             eq_refl).
  rewrite (Hat [b0; b1] b2 (b3 :: rest) (pre ++ b0 :: b1 :: b2 :: b3 :: rest) (blen pre + 2) eq_refl
             eq_refl).
  rewrite (Hat [b0; b1; b2] b3 rest (pre ++ b0 :: b1 :: b2 :: b3 :: rest) (blen pre + 3) eq_refl
             eq_refl).
  unfold b0, b1, b2, b3.
  cbn [num]. rewrite !byteZ_byte_of_Z_mod. f_equal.
  pose proof (Z.div_mod v 256 ltac:(lia)).
  pose proof (Z.div_mod (v / 256) 256 ltac:(lia)).
  pose proof (Z.div_mod (v / 256 / 256) 256 ltac:(lia)).
  replace (v / 65536) with (v / 256 / 256)
    by (rewrite Z.div_div by lia; reflexivity).
  replace (v / 16777216) with (v / 256 / 256 / 256)
    by (rewrite !Z.div_div by lia; reflexivity).
  assert (0 <= v / 256 / 256 / 256 < 256).
  { split; [repeat apply Z.div_pos; lia|].
    repeat (apply Z.div_lt_upper_bound; [lia|]). lia. }
  rewrite (Z.mod_small (v / 256 / 256 / 256)) by lia. lia.
Qed.

(** The bytes the builder writes for one entry behind the key [prevKey]. *)
Lemma dataBlockEntries_cons (prevKey : Buffer) (e : TestEntry)
    (entries : list TestEntry) :
  dataBlockEntries prevKey (e :: entries)
  = (encodeVarint (sharedLength prevKey (t_key e))
       ++ encodeVarint (blen (t_key e) - sharedLength prevKey (t_key e))
       ++ encodeVarint (blen (t_value e))
       ++ skipn (Z.to_nat (sharedLength prevKey (t_key e))) (t_key e)
       ++ t_value e)
      :: dataBlockEntries (t_key e) entries.
Proof.
  cbn [dataBlockEntries concat]. f_equal.
  destruct (sharedLength_spec prevKey (t_key e)) as (H1 & H2 & _).
  rewrite subarray_from_skipn by lia. now rewrite app_nil_r.
Qed.

(** One iteration of the block parser on an entry the builder wrote behind
    the key the parser holds: the entry is decoded with its whole key. *)
Lemma parseDataBlock_body_built (pre post prevKey : Buffer) (e : TestEntry)
    (tail : list TestEntry) (restartsStart : Z)
    (entries : list LevelDBEntry) :
  let bytes := hd [] (dataBlockEntries prevKey (e :: tail)) in
  blen (t_key e) < 2 ^ 31 ->
  blen bytes < 2 ^ 31 ->
  blen pre + blen bytes <= restartsStart ->
  parseDataBlock_body (pre ++ bytes ++ post) restartsStart
    {| bs_offset := blen pre; bs_prevKey := prevKey; bs_entries := entries |}
  = Ok (Continue {| bs_offset := blen pre + blen bytes;
                    bs_prevKey := t_key e;
                    bs_entries :=
                      entries ++ [mkEntry (t_key e) (t_value e)] |}).
Proof.
  intros bytes Hkey Hfit Hspan. unfold bytes in *. clear bytes.
  rewrite dataBlockEntries_cons in *. cbn [hd] in *.
  destruct (sharedLength_spec prevKey (t_key e)) as (Hs1 & Hs2 & Hs3).
  set (s := sharedLength prevKey (t_key e)) in *.
  set (k := t_key e) in *. set (v := t_value e) in *.
  set (delta := skipn (Z.to_nat s) k) in *.
  assert (Hdelta : blen delta = blen k - s).
  { unfold delta, blen in *. rewrite length_skipn. lia. }
  set (e1 := encodeVarint s) in *.
  set (e2 := encodeVarint (blen k - s)) in *.
  set (e3 := encodeVarint (blen v)) in *.
  pose proof (blen_nonneg pre). pose proof (blen_nonneg v).
  pose proof (encodeVarint_nonempty s).
  pose proof (encodeVarint_nonempty (blen k - s)).
  pose proof (encodeVarint_nonempty (blen v)).
  fold e1 e2 e3 in H1, H2, H3.
  rewrite !blen_app in Hfit, Hspan.
  set (block := pre ++ (e1 ++ e2 ++ e3 ++ delta ++ v) ++ post).
  unfold parseDataBlock_body. cbn [bs_offset bs_prevKey bs_entries].
  rewrite (readVarint_at block pre (e2 ++ e3 ++ delta ++ v ++ post) s);
    [ | unfold block, e1; app_norm | reflexivity | lia ].
  cbn [bind]. fold e1.
  rewrite (readVarint_at block (pre ++ e1) (e3 ++ delta ++ v ++ post)
             (blen k - s));
    [ | unfold block, e2; app_norm | now rewrite blen_app | lia ].
  cbn [bind]. fold e2.
  rewrite (readVarint_at block (pre ++ e1 ++ e2) (delta ++ v ++ post)
             (blen v));
    [ | unfold block, e3; app_norm | rewrite !blen_app; lia | lia ].
  cbn [bind]. fold e3.
  destruct (Z.gtb_spec (blen pre + blen e1 + blen e2 + blen e3
                        + (blen k - s) + blen v) restartsStart); [lia|].
  rewrite (subarray_at block (pre ++ e1 ++ e2 ++ e3) delta (v ++ post));
    [ | unfold block; app_norm | rewrite !blen_app; lia | lia ].
  rewrite (subarray_at block (pre ++ e1 ++ e2 ++ e3 ++ delta) v post);
    [ | unfold block; app_norm | rewrite !blen_app; lia | lia ].
  rewrite subarray_prefix by lia.
  cbn [concat try_catch]. rewrite app_nil_r, Hs3.
  replace (firstn (Z.to_nat s) k ++ delta) with k
    by (unfold delta; now rewrite firstn_skipn).
  do 3 f_equal. rewrite !blen_app. lia.
Qed.

Lemma blen_concat_cons (b : Buffer) (bs : list Buffer) :
  blen (concat (b :: bs)) = blen b + blen (concat bs).
Proof. cbn [concat]. apply blen_app. Qed.

(** The parser runs through the entries the builder wrote, one iteration
    each, and holds the builder's previous key at every entry. *)
Lemma parseDataBlock_loop_built (tests : list TestEntry) :
  forall (fuel : nat) (pre post prevKey : Buffer)
         (entries : list LevelDBEntry),
    let bytes := concat (dataBlockEntries prevKey tests) in
    let block := pre ++ bytes ++ post in
    let restartsStart := blen pre + blen bytes in
    Forall (fun t => blen (t_key t) < 2 ^ 31) tests ->
    blen block < 2 ^ 31 ->
    exists lastKey,
      while (List.length tests + fuel)
        (fun st => bs_offset st <? restartsStart)
        (parseDataBlock_body block restartsStart)
        {| bs_offset := blen pre; bs_prevKey := prevKey;
           bs_entries := entries |}
      = while fuel (fun st => bs_offset st <? restartsStart)
          (parseDataBlock_body block restartsStart)
          {| bs_offset := restartsStart; bs_prevKey := lastKey;
             bs_entries :=
               entries
                 ++ map (fun t => mkEntry (t_key t) (t_value t)) tests |}.
Proof.
  induction tests as [|e tests IH];
    intros fuel pre post prevKey entries bytes block restartsStart Hkeys Hlen.
  - exists prevKey. unfold restartsStart, bytes.
    cbn [dataBlockEntries concat List.length Nat.add map].
    change (blen []) with 0. now rewrite Z.add_0_r, app_nil_r.
  - inversion Hkeys as [|? ? Hkey Hkeys']; subst.
    set (b := hd [] (dataBlockEntries prevKey (e :: tests))).
    assert (Hb : dataBlockEntries prevKey (e :: tests)
                 = b :: dataBlockEntries (t_key e) tests).
    { unfold b. now rewrite dataBlockEntries_cons. }
    assert (Hbytes : bytes = b ++ concat (dataBlockEntries (t_key e) tests)).
    { unfold bytes. now rewrite Hb. }
    pose proof (blen_nonneg pre). pose proof (blen_nonneg post).
    pose proof (blen_nonneg (concat (dataBlockEntries (t_key e) tests))).
    assert (Hbpos : 1 <= blen b).
    { unfold b. rewrite dataBlockEntries_cons. cbn [hd].
      rewrite blen_app.
      pose proof (encodeVarint_nonempty (sharedLength prevKey (t_key e))).
      match goal with |- 1 <= _ + blen ?l => pose proof (blen_nonneg l) end.
      lia. }
    assert (Hblock : block
                     = pre ++ b
                         ++ (concat (dataBlockEntries (t_key e) tests)
                               ++ post)).
    { unfold block. rewrite Hbytes. app_norm. }
    assert (Hbl : blen block
                  = blen pre + blen b
                    + blen (concat (dataBlockEntries (t_key e) tests))
                    + blen post).
    { rewrite Hblock, !blen_app. lia. }
    assert (Hrs : restartsStart
                  = blen pre + blen b
                    + blen (concat (dataBlockEntries (t_key e) tests))).
    { unfold restartsStart. rewrite Hbytes, blen_app. lia. }
    cbn [List.length Nat.add]. rewrite while_S. cbn [bs_offset].
    destruct (Z.ltb_spec (blen pre) restartsStart); [|lia].
    pose proof (parseDataBlock_body_built pre
                  (concat (dataBlockEntries (t_key e) tests) ++ post)
                  prevKey e tests restartsStart entries) as Hbody.
    cbv zeta in Hbody. fold b in Hbody. rewrite <- Hblock in Hbody.
    rewrite Hbody by (assumption || lia).
    destruct (IH fuel (pre ++ b) post (t_key e)
                (entries ++ [mkEntry (t_key e) (t_value e)]))
      as [lastKey HIH].
    { assumption. }
    { cbv zeta. rewrite <- app_assoc. rewrite <- Hblock. exact Hlen. }
    cbv zeta in HIH.
    replace ((pre ++ b) ++ concat (dataBlockEntries (t_key e) tests) ++ post)
      with block in HIH by (rewrite Hblock; app_norm).
    replace (blen (pre ++ b)
             + blen (concat (dataBlockEntries (t_key e) tests)))
      with restartsStart in HIH by (rewrite Hrs, blen_app; lia).
    rewrite blen_app in HIH.
    exists lastKey. rewrite HIH. cbn [map].
    now rewrite <- app_assoc.
Qed.

(** A block made of the entries the builder writes, a restart array of
    [numRestarts] offsets and their count decodes to these entries. *)
Lemma parseDataBlock_built (fuel : nat) (tests : list TestEntry)
    (restarts : Buffer) (numRestarts : Z) :
  let block :=
    concat (dataBlockEntries [] tests) ++ restarts ++ uint32LE numRestarts in
  blen restarts = 4 * numRestarts ->
  Forall (fun t => blen (t_key t) < 2 ^ 31) tests ->
  blen block < 2 ^ 31 ->
  (List.length tests < fuel)%nat ->
  parseDataBlock fuel block
  = Ok (map (fun t => mkEntry (t_key t) (t_value t)) tests).
Proof.
  intros block Hr Hkeys Hlen Hfuel.
  set (bytes := concat (dataBlockEntries [] tests)) in *.
  pose proof (blen_nonneg bytes). pose proof (blen_nonneg restarts).
  assert (Hbl : blen block = blen bytes + blen restarts + 4).
  { unfold block. rewrite !blen_app. unfold uint32LE, blen at 3.
    cbn [List.length]. lia. }
  unfold parseDataBlock.
  destruct (Z.ltb_spec (blen block) 4); [lia|].
  replace (blen block - 4) with (blen (bytes ++ restarts))
    by (rewrite blen_app; lia).
  unfold block at 1. rewrite app_assoc.
  rewrite <- (app_nil_r (uint32LE numRestarts)).
  rewrite readUInt32LE_at by lia.
  cbn [bind].
  replace (blen (bytes ++ restarts) - numRestarts * 4) with (0 + blen bytes)
    by (rewrite blen_app; lia).
  destruct (Z.ltb_spec (0 + blen bytes) 0); [lia|].
  replace fuel with (List.length tests + S (fuel - S (List.length tests)))%nat
    by lia.
  destruct (parseDataBlock_loop_built tests (S (fuel - S (List.length tests)))
              [] (restarts ++ uint32LE numRestarts) [] []) as [lastKey Hloop].
  { assumption. }
  { cbv zeta. cbn [app]. exact Hlen. }
  cbv zeta in Hloop. cbn [app] in Hloop. change (blen []) with 0 in Hloop.
  fold bytes block in Hloop. rewrite Hloop.
  rewrite while_S. cbn [bs_offset].
  destruct (Z.ltb_spec (0 + blen bytes) (0 + blen bytes)); [lia|].
  reflexivity.
Qed.

End BlockRoundTrip.

(** X8: a data block made of the entries the test builder writes (each key
    stored as the length of the prefix it shares with the key before and
    the rest of its bytes), followed by any restart array and its count,
    decodes to exactly these keys and values, in order; the restart array
    is never consulted. *)
Theorem parseDataBlock_round_trip (fuel : nat) (tests : list TestEntry)
    (restarts : Buffer) (numRestarts : Z) :
  let block :=
    concat (dataBlockEntries [] tests) ++ restarts ++ uint32LE numRestarts in
  blen restarts = 4 * numRestarts ->
  Forall (fun t => blen (t_key t) < 2 ^ 31) tests ->
  blen block < 2 ^ 31 ->
  (List.length tests < fuel)%nat ->
  parseDataBlock fuel block
  = Ok (map (fun t => mkEntry (t_key t) (t_value t)) tests).
Proof. apply parseDataBlock_built. Qed.

Lemma parseDataBlock_round_trip_witness :
  let tests := [mkTest (list_byte_of_string "a") (list_byte_of_string "1");
                mkTest (list_byte_of_string "ab") (list_byte_of_string "2");
                mkTest (list_byte_of_string "b") (list_byte_of_string "3")] in
  parseDataBlock 4
    (concat (dataBlockEntries [] tests)
       ++ (uint32LE 0 ++ uint32LE 7) ++ uint32LE 2)
  = Ok [mkEntry (list_byte_of_string "a") (list_byte_of_string "1");
        mkEntry (list_byte_of_string "ab") (list_byte_of_string "2");
        mkEntry (list_byte_of_string "b") (list_byte_of_string "3")].
Proof.
  intros tests.
  apply (parseDataBlock_round_trip 4 tests (uint32LE 0 ++ uint32LE 7) 2).
  - reflexivity.
  - repeat constructor.
  - vm_compute. reflexivity.
  - cbn. lia.
Defined.

Section TableRoundTrip.

Lemma equals_refl (a : Buffer) : equals a a = true.
Proof.
  unfold equals. destruct (list_eq_dec byte_eq_dec a a); congruence.
Qed.

Lemma blen_alloc (n : Z) : 0 <= n -> blen (alloc n) = n.
Proof. intros Hn. unfold blen, alloc. rewrite repeat_length. lia. Qed.

Lemma encodeVarint_length (v : Z) : 1 <= blen (encodeVarint v) <= 5.
Proof.
  split; [apply encodeVarint_nonempty|].
  unfold encodeVarint, blen. cbn [encodeVarint_loop].
  repeat match goal with |- context [if ?c then _ else _] => destruct c end;
    cbn [List.length]; lia.
Qed.

(** The last [blen suffix] bytes of a buffer, taken with a negative index. *)
Lemma subarray_from_suffix (front suffix : Buffer) :
  1 <= blen suffix ->
  subarray_from (front ++ suffix) (- blen suffix) = suffix.
Proof.
  intros Hs. pose proof (blen_nonneg front).
  unfold subarray_from, subarray, clampIndex. rewrite blen_app.
  destruct (Z.ltb_spec (- blen suffix) 0); [|lia].
  destruct (Z.ltb_spec (blen front + blen suffix) 0); [lia|].
  rewrite Z.max_l, Z.min_l by lia.
  replace (Z.to_nat (blen front + blen suffix + - blen suffix))
    with (List.length front) by (unfold blen; lia).
  rewrite skipn_app, skipn_all, Nat.sub_diag. cbn [app skipn].
  apply firstn_all2. unfold blen in *. lia.
Qed.

(** A block without its 5-byte trailer, and the tag the trailer starts
    with. *)
Lemma block_trailer (content : Buffer) (tag c1 c2 c3 c4 : byte) :
  let raw := content ++ [tag; c1; c2; c3; c4] in
  at_rel raw (-5) = Some tag /\ subarray raw 0 (-5) = content.
Proof.
  intros raw. pose proof (blen_nonneg content).
  assert (Hl : blen raw = blen content + 5).
  { unfold raw. rewrite blen_app. reflexivity. }
  split.
  - unfold at_rel. destruct (Z.ltb_spec (-5) 0); [|lia].
    replace (blen raw + -5) with (blen content) by lia.
    apply at_middle.
  - unfold subarray, clampIndex.
    destruct (Z.ltb_spec 0 0); [lia|]. destruct (Z.ltb_spec (-5) 0); [|lia].
    rewrite Z.min_l, Z.max_l by lia. rewrite Hl.
    replace (Z.to_nat (blen content + 5 + -5 - 0)) with (List.length content)
      by (unfold blen; lia).
    cbn [Z.to_nat skipn]. unfold raw.
    rewrite firstn_app, firstn_all, Nat.sub_diag. cbn. apply app_nil_r.
Qed.

Lemma decompressBlock_none (snappyUncompress : Buffer -> Z -> option Buffer)
    (blockData : Buffer) :
  decompressBlock snappyUncompress blockData (Some x00) = Ok blockData.
Proof. reflexivity. Qed.

(** A table with one data block: the data block, the index block with one
    entry whose value is the handle of the data block, anything for the
    metaindex block, and the footer with the two handles, padding and the
    magic. *)
Lemma parseSSTable_one_block (readFile : string -> option Buffer)
    (snappyUncompress : Buffer -> Z -> option Buffer)
    (spreadable : nat -> bool) (fuel : nat)
    (filePath : string) (content index metaBlock padding indexKey : Buffer)
    (metaOff metaSize indexOff indexSize : Z)
    (entries : list LevelDBEntry) :
  let trailer := [x00; x00; x00; x00; x00] in
  let handles :=
    encodeVarint metaOff ++ encodeVarint metaSize
      ++ encodeVarint indexOff ++ encodeVarint indexSize in
  let footer := handles ++ padding ++ LEVELDB_MAGIC in
  let data :=
    (content ++ trailer) ++ (index ++ trailer) ++ metaBlock ++ footer in
  readFile filePath = Some data ->
  blen handles + blen padding = 40 ->
  0 <= metaOff < 2 ^ 31 -> 0 <= metaSize < 2 ^ 31 ->
  indexOff = blen content + 5 -> indexSize = blen index ->
  blen data < 2 ^ 31 ->
  parseDataBlock fuel index
  = Ok [mkEntry indexKey (encodeVarint 0 ++ encodeVarint (blen content))] ->
  parseDataBlock fuel content = Ok entries ->
  parseSSTable readFile snappyUncompress spreadable fuel filePath
  = Ok (if spreadable (List.length entries) then entries else []).
Proof.
  intros trailer handles footer data Hread Hpad Hmo Hms Hio His Hlen
    Hindex Hcontent.
  pose proof (blen_nonneg content). pose proof (blen_nonneg index).
  pose proof (blen_nonneg metaBlock). pose proof (blen_nonneg padding).
  assert (Hfl : blen footer = 48).
  { unfold footer. rewrite !blen_app. change (blen LEVELDB_MAGIC) with 8.
    lia. }
  assert (Hdl : blen data
                = blen content + 5 + (blen index + 5) + blen metaBlock + 48).
  { unfold data. rewrite !blen_app, Hfl. change (blen trailer) with 5. lia. }
  unfold parseSSTable. rewrite Hread. cbn [await try_or_return].
  destruct (Z.ltb_spec (blen data) 48); [lia|].
  assert (Hfooter : subarray_from data (-48) = footer).
  { replace (-48) with (- blen footer) by lia.
    unfold data. rewrite !app_assoc.
    apply subarray_from_suffix. lia. }
  rewrite Hfooter.
  assert (Hmagic : subarray footer 40 48 = LEVELDB_MAGIC).
  { apply (subarray_at footer (handles ++ padding) LEVELDB_MAGIC []).
    - unfold footer. now rewrite app_nil_r, <- app_assoc.
    - rewrite blen_app. lia.
    - reflexivity. }
  rewrite Hmagic, equals_refl. cbn [negb].
  assert (Hmeta : parseBlockHandle footer 0
                  = Ok {| h_offset := metaOff; h_size := metaSize;
                          h_bytesRead := blen (encodeVarint metaOff)
                                         + blen (encodeVarint metaSize) |}).
  { pose proof (parseBlockHandle_encoded []
                  (encodeVarint indexOff ++ encodeVarint indexSize
                     ++ padding ++ LEVELDB_MAGIC) metaOff metaSize Hmo Hms)
      as H'.
    cbn [app] in H'. change (blen []) with 0 in H'.
    unfold footer, handles. rewrite <- H'. f_equal. app_norm. }
  rewrite Hmeta. cbn [bind h_bytesRead].
  assert (Hidx : parseBlockHandle footer
                   (blen (encodeVarint metaOff)
                    + blen (encodeVarint metaSize))
                 = Ok {| h_offset := indexOff; h_size := indexSize;
                         h_bytesRead := blen (encodeVarint indexOff)
                                        + blen (encodeVarint indexSize) |}).
  { pose proof (parseBlockHandle_encoded
                  (encodeVarint metaOff ++ encodeVarint metaSize)
                  (padding ++ LEVELDB_MAGIC) indexOff indexSize
                  ltac:(lia) ltac:(lia)) as H'.
    rewrite blen_app in H'.
    unfold footer, handles. rewrite <- H'. f_equal. app_norm. }
  rewrite Hidx. cbn [bind h_offset h_size].
  destruct (Z.gtb_spec (indexOff + indexSize + 5) (blen data - 48)); [lia|].
  assert (Hraw : subarray data indexOff (indexOff + indexSize + 5)
                 = index ++ trailer).
  { apply (subarray_at data (content ++ trailer) (index ++ trailer)
             (metaBlock ++ footer)).
    - unfold data. app_norm.
    - rewrite blen_app. change (blen trailer) with 5. lia.
    - rewrite blen_app. change (blen trailer) with 5. lia. }
  rewrite Hraw.
  destruct (block_trailer index x00 x00 x00 x00 x00) as [Htag Hdata].
  fold trailer in Htag, Hdata. rewrite Htag, Hdata.
  rewrite decompressBlock_none. cbn [bind]. rewrite Hindex. cbn [bind for_of].
  unfold parseSSTable_block. cbn [value].
  assert (Hblock : parseBlockHandle
                     (encodeVarint 0 ++ encodeVarint (blen content)) 0
                   = Ok {| h_offset := 0; h_size := blen content;
                           h_bytesRead :=
                             blen (encodeVarint 0)
                             + blen (encodeVarint (blen content)) |}).
  { pose proof (parseBlockHandle_encoded [] [] 0 (blen content)
                  ltac:(lia) ltac:(lia)) as H'.
    cbn [app] in H'. change (blen []) with 0 in H'.
    now rewrite app_nil_r in H'. }
  rewrite Hblock. cbn [bind h_offset h_size].
  destruct (Z.gtb_spec (0 + blen content + 5) (blen data)); [lia|].
  assert (Hraw' : subarray data 0 (0 + blen content + 5)
                  = content ++ trailer).
  { apply (subarray_at data [] (content ++ trailer)
             ((index ++ trailer) ++ metaBlock ++ footer)).
    - unfold data. app_norm.
    - reflexivity.
    - rewrite blen_app. change (blen trailer) with 5. lia. }
  rewrite Hraw'.
  destruct (block_trailer content x00 x00 x00 x00 x00) as [Htag' Hdata'].
  fold trailer in Htag', Hdata'. rewrite Htag', Hdata'.
  rewrite decompressBlock_none. cbn [bind]. rewrite Hcontent.
  cbn [bind]. unfold push_spread.
  destruct (spreadable (List.length entries)); reflexivity.
Qed.

Lemma createTestSSTable_layout (tests : list TestEntry) :
  let trailer := [x00; x00; x00; x00; x00] in
  let content :=
    concat (dataBlockEntries [] tests) ++ uint32LE 0 ++ uint32LE 1 in
  let lastKey := match rev tests with e :: _ => t_key e | [] => [] end in
  let handle := encodeVarint 0 ++ encodeVarint (blen content) in
  let index :=
    concat (dataBlockEntries [] [mkTest lastKey handle])
      ++ uint32LE 0 ++ uint32LE 1 in
  let metaBlock := (uint32LE 0 ++ uint32LE 1) ++ trailer in
  let handles :=
    encodeVarint (blen (content ++ trailer) + blen (index ++ trailer))
      ++ encodeVarint (blen (uint32LE 0 ++ uint32LE 1))
      ++ encodeVarint (blen (content ++ trailer))
      ++ encodeVarint (blen index) in
  createTestSSTable tests
  = (content ++ trailer) ++ (index ++ trailer) ++ metaBlock
      ++ handles ++ alloc (40 - blen handles) ++ LEVELDB_MAGIC.
Proof.
  cbv zeta. unfold createTestSSTable. cbv zeta.
  rewrite dataBlockEntries_cons.
  cbn [t_key t_value sharedLength dataBlockEntries Z.to_nat skipn].
  rewrite !concat_app. cbn [concat]. rewrite !Z.sub_0_r, !app_nil_r.
  unfold LEVELDB_MAGIC.
  repeat rewrite <- app_assoc. reflexivity.
Qed.

Lemma parseSSTable_built (readFile : string -> option Buffer)
    (snappyUncompress : Buffer -> Z -> option Buffer)
    (spreadable : nat -> bool) (fuel : nat)
    (filePath : string) (tests : list TestEntry) :
  readFile filePath = Some (createTestSSTable tests) ->
  Forall (fun t => blen (t_key t) < 2 ^ 31) tests ->
  blen (createTestSSTable tests) < 2 ^ 31 ->
  (List.length tests < fuel)%nat -> (1 < fuel)%nat ->
  parseSSTable readFile snappyUncompress spreadable fuel filePath
  = Ok (if spreadable (List.length tests)
        then map (fun t => mkEntry (t_key t) (t_value t)) tests
        else []).
Proof.
  intros Hread Hkeys Hlen Hfuel Hfuel1.
  pose proof (createTestSSTable_layout tests) as Hlayout.
  cbv zeta in Hlayout. rewrite Hlayout in Hread, Hlen. clear Hlayout.
  set (trailer := [x00; x00; x00; x00; x00]) in *.
  set (content := concat (dataBlockEntries [] tests)
                    ++ uint32LE 0 ++ uint32LE 1) in *.
  set (lastKey := match rev tests with e :: _ => t_key e | [] => [] end) in *.
  set (handle := encodeVarint 0 ++ encodeVarint (blen content)) in *.
  set (index := concat (dataBlockEntries [] [mkTest lastKey handle])
                  ++ uint32LE 0 ++ uint32LE 1) in *.
  set (metaBlock := (uint32LE 0 ++ uint32LE 1) ++ trailer) in *.
  set (metaOff := blen (content ++ trailer) + blen (index ++ trailer)) in *.
  set (metaSize := blen (uint32LE 0 ++ uint32LE 1)) in *.
  set (indexOff := blen (content ++ trailer)) in *.
  set (handles := encodeVarint metaOff ++ encodeVarint metaSize
                    ++ encodeVarint indexOff ++ encodeVarint (blen index))
    in *.
  pose proof (blen_nonneg content). pose proof (blen_nonneg index).
  pose proof (encodeVarint_length metaOff).
  pose proof (encodeVarint_length metaSize).
  pose proof (encodeVarint_length indexOff).
  pose proof (encodeVarint_length (blen index)).
  assert (Hh : blen handles
               = blen (encodeVarint metaOff) + blen (encodeVarint metaSize)
                 + blen (encodeVarint indexOff)
                 + blen (encodeVarint (blen index))).
  { unfold handles. rewrite !blen_app. lia. }
  assert (Hpadding : blen (alloc (40 - blen handles)) = 40 - blen handles)
    by (apply blen_alloc; lia).
  assert (Hio : indexOff = blen content + 5).
  { unfold indexOff. rewrite blen_app. reflexivity. }
  assert (Hmo : metaOff = blen content + 5 + (blen index + 5)).
  { unfold metaOff. rewrite blen_app. change (blen trailer) with 5. lia. }
  assert (Hdl : blen content + blen index + 10 < 2 ^ 31).
  { rewrite !blen_app in Hlen. change (blen trailer) with 5 in Hlen.
    pose proof (blen_nonneg metaBlock). pose proof (blen_nonneg handles).
    pose proof (blen_nonneg (alloc (40 - blen handles))).
    pose proof (blen_nonneg LEVELDB_MAGIC). lia. }
  assert (HlastKey : blen lastKey < 2 ^ 31).
  { unfold lastKey. destruct (rev tests) as [|e l] eqn:E; [reflexivity|].
    rewrite Forall_forall in Hkeys. apply Hkeys.
    apply in_rev. rewrite E. now left. }
  rewrite <- (length_map (fun t => mkEntry (t_key t) (t_value t)) tests).
  apply (parseSSTable_one_block readFile snappyUncompress spreadable fuel
           filePath content index metaBlock (alloc (40 - blen handles))
           lastKey metaOff metaSize indexOff (blen index)).
  - exact Hread.
  - fold handles. lia.
  - lia.
  - unfold metaSize. split; [apply blen_nonneg | reflexivity].
  - exact Hio.
  - reflexivity.
  - exact Hlen.
  - fold handle.
    apply (parseDataBlock_built fuel [mkTest lastKey handle] (uint32LE 0) 1).
    + reflexivity.
    + constructor; [exact HlastKey | constructor].
    + fold index. lia.
    + cbn [List.length]. lia.
  - apply (parseDataBlock_built fuel tests (uint32LE 0) 1).
    + reflexivity.
    + exact Hkeys.
    + fold content. lia.
    + exact Hfuel.
Qed.

End TableRoundTrip.

(** X9: the table reader finds and decodes the footer, the index block and
    the data block of the table the test builder writes, prefix
    compression included.  When the entries of the block are few enough
    to be the arguments of one [push], it returns exactly the keys and
    values put into the table, in order; when they are not, the block is
    skipped and it returns no entry. *)
Theorem parseSSTable_round_trip (readFile : string -> option Buffer)
    (snappyUncompress : Buffer -> Z -> option Buffer)
    (spreadable : nat -> bool) (fuel : nat)
    (filePath : string) (tests : list TestEntry) :
  readFile filePath = Some (createTestSSTable tests) ->
  Forall (fun t => blen (t_key t) < 2 ^ 31) tests ->
  blen (createTestSSTable tests) < 2 ^ 31 ->
  (List.length tests < fuel)%nat -> (1 < fuel)%nat ->
  parseSSTable readFile snappyUncompress spreadable fuel filePath
  = Ok (if spreadable (List.length tests)
        then map (fun t => mkEntry (t_key t) (t_value t)) tests
        else []).
Proof. apply parseSSTable_built. Qed.

Lemma parseSSTable_round_trip_witness :
  let tests := [mkTest (list_byte_of_string "key1")
                  (list_byte_of_string "value1");
                mkTest (list_byte_of_string "key2")
                  (list_byte_of_string "value2");
                mkTest (list_byte_of_string "key3")
                  (list_byte_of_string "value3")] in
  parseSSTable (fun _ => Some (createTestSSTable tests)) (fun _ _ => None)
    (accepts 1000) 4 "000001.ldb"
  = Ok (map (fun t => mkEntry (t_key t) (t_value t)) tests) /\
  parseSSTable (fun _ => Some (createTestSSTable tests)) (fun _ _ => None)
    (accepts 2) 4 "000001.ldb"
  = Ok [].
Proof.
  intros tests.
  assert (Hkeys : Forall (fun t => blen (t_key t) < 2 ^ 31) tests)
    by (repeat constructor).
  assert (Hlen : blen (createTestSSTable tests) < 2 ^ 31)
    by (vm_compute; reflexivity).
  assert (Hfuel : (List.length tests < 4)%nat) by (cbn; lia).
  assert (Hfuel1 : (1 < 4)%nat) by lia.
  split.
  - exact (parseSSTable_round_trip (fun _ => Some (createTestSSTable tests))
             (fun _ _ => None) (accepts 1000) 4 "000001.ldb" tests
             eq_refl Hkeys Hlen Hfuel Hfuel1).
  - exact (parseSSTable_round_trip (fun _ => Some (createTestSSTable tests))
             (fun _ _ => None) (accepts 2) 4 "000001.ldb" tests
             eq_refl Hkeys Hlen Hfuel Hfuel1).
Defined.

(** ** Logs of several records *)


Section LogSequences.

Lemma mod_small_offset (o : Z) : 0 <= o <= 32761 -> o mod 32768 <= 32761.
Proof. intros H. rewrite Z.mod_small; lia. Qed.

Lemma blen_full_record (b : LogBatch) :
  well_formed_batch b ->
  blen (full_record b) = 7 + blen (batch_payload b) /\
  19 <= blen (full_record b).
Proof.
  intros [Hc Hh]. unfold full_record. rewrite blen_logRecord by assumption.
  split; [reflexivity|]. unfold batch_payload. rewrite blen_app.
  pose proof (blen_nonneg (encode_ops (lb_ops b))). unfold blen at 1. lia.
Qed.

(** The reader runs through a sequence of FULL records that lies in the
    first block, one iteration each, and appends the puts of each batch. *)
Lemma parseLogData_loop_full (fuel : nat) (batches : list LogBatch) :
  forall (n : nat) (pre post : Buffer) (pendingRecord : list Buffer)
         (entries : list LevelDBEntry),
    let data := pre ++ concat (map full_record batches) ++ post in
    Forall well_formed_batch batches ->
    Forall (fun b => (List.length (lb_ops b) < fuel)%nat) batches ->
    blen pre + blen (concat (map full_record batches)) <= 32768 ->
    exists pendingRecord',
      while (List.length batches + n) (fun st => lg_offset st <? blen data)
        (parseLogFile_body fuel data)
        (mkLogState (blen pre) pendingRecord entries)
      = while n (fun st => lg_offset st <? blen data)
          (parseLogFile_body fuel data)
          (mkLogState (blen pre + blen (concat (map full_record batches)))
             pendingRecord'
             (entries ++ concat (map (fun b => puts_of (lb_ops b)) batches))).
Proof.
  induction batches as [|b batches IH];
    intros n pre post pendingRecord entries data Hwf Hfuel Hfit.
  - exists pendingRecord. cbn [map concat List.length Nat.add].
    change (blen []) with 0. now rewrite Z.add_0_r, app_nil_r.
  - inversion Hwf as [|? ? Hb Hwf']; subst.
    inversion Hfuel as [|? ? Hfb Hfuel']; subst.
    destruct (blen_full_record b Hb) as [Hrl Hr19].
    destruct Hb as [Hcrc Hheader].
    pose proof (blen_nonneg pre). pose proof (blen_nonneg post).
    pose proof (blen_nonneg (concat (map full_record batches))).
    cbn [map concat] in Hfit. rewrite blen_app in Hfit.
    assert (Hd : data = pre ++ logRecord (lb_crc b) 1 (batch_payload b)
                         ++ (concat (map full_record batches) ++ post)).
    { unfold data. cbn [map concat]. unfold full_record at 1. app_norm. }
    assert (Hdl : blen data
                  = blen pre + blen (full_record b)
                    + blen (concat (map full_record batches)) + blen post).
    { rewrite Hd, !blen_app. fold (full_record b). lia. }
    cbn [List.length Nat.add]. rewrite while_S. cbn [lg_offset].
    destruct (Z.ltb_spec (blen pre) (blen data)); [|lia].
    rewrite (parseLogFile_body_FULL fuel data pre (lb_crc b)
               (batch_payload b)
               (concat (map full_record batches) ++ post) (blen pre)
               pendingRecord entries);
      [ | assumption | lia | reflexivity | apply mod_small_offset; lia
        | exact Hd ].
    assert (Hbatch : parseLogBatch fuel (batch_payload b) entries
                     = Ok (entries ++ puts_of (lb_ops b))).
    { unfold batch_payload. rewrite <- (app_nil_r (encode_ops (lb_ops b))).
      apply parseLogBatch_records;
        [ assumption
        | rewrite app_nil_r; fold (batch_payload b); lia
        | constructor | assumption ]. }
    rewrite Hbatch. cbn [bind].
    destruct (IH n (pre ++ full_record b) post []
                (entries ++ puts_of (lb_ops b))) as [p' HIH];
      [assumption | assumption | rewrite blen_app; lia |].
    cbv zeta in HIH.
    replace ((pre ++ full_record b) ++ concat (map full_record batches)
               ++ post) with data in HIH by (unfold data; cbn; app_norm).
    rewrite blen_app, Hrl in HIH.
    replace (blen pre + 7 + blen (batch_payload b))
      with (blen pre + (7 + blen (batch_payload b))) by lia.
    exists p'. rewrite HIH. cbn [map concat].
    rewrite blen_app, Hrl, <- app_assoc. do 2 f_equal. lia.
Qed.

Lemma uint16LE_eq (declared : Z) :
  uint16LE declared = [byte_of_Z declared; byte_of_Z (declared / 256)].
Proof. reflexivity. Qed.

(** At a torn tail that starts in the first block the reader stops or
    moves behind the end of the file, with the entries it has. *)
Lemma parseLogData_loop_torn (fuel n : nat) (pre tail : Buffer)
    (pendingRecord : list Buffer) (entries : list LevelDBEntry) :
  torn_tail tail ->
  blen pre + blen tail <= 32768 ->
  exists st,
    while (S (S n)) (fun st => lg_offset st <? blen (pre ++ tail))
      (parseLogFile_body fuel (pre ++ tail))
      (mkLogState (blen pre) pendingRecord entries) = Ok st /\
    lg_entries st = entries.
Proof.
  intros Htorn Hfit. pose proof (blen_nonneg pre). pose proof (blen_nonneg tail).
  rewrite while_S. cbn [lg_offset]. rewrite blen_app.
  destruct (Z.ltb_spec (blen pre) (blen pre + blen tail));
    [|eexists; split; reflexivity].
  unfold parseLogFile_body. cbn [lg_offset lg_pendingRecord lg_entries].
  cbv zeta. rewrite Z.rem_mod_nonneg by (unfold BLOCK_SIZE; lia).
  unfold BLOCK_SIZE. rewrite Z.mod_small by lia. rewrite blen_app.
  destruct Htorn as [t Hshort | crc declared type partial Hcrc Hd Hcut].
  - destruct (Z.ltb_spec (32768 - blen pre) 7).
    + rewrite while_S. cbn [lg_offset].
      destruct (Z.ltb_spec (blen pre + (32768 - blen pre))
                  (blen pre + blen t)); [lia|].
      eexists; split; reflexivity.
    + destruct (Z.gtb_spec (blen pre + 7) (blen pre + blen t)); [|lia].
      eexists; split; reflexivity.
  - assert (Hc4 : blen crc = 4) by (unfold blen; lia).
    pose proof (blen_nonneg partial).
    assert (Htl : blen (crc ++ uint16LE declared ++ [type] ++ partial)
                  = 7 + blen partial).
    { unfold uint16LE, blen in *. rewrite !length_app. cbn [List.length].
      lia. }
    rewrite Htl in *.
    destruct (Z.ltb_spec (32768 - blen pre) 7); [lia|].
    destruct (Z.gtb_spec (blen pre + 7) (blen pre + (7 + blen partial)));
      [lia|].
    assert (Hlen : readUInt16LE
                     (pre ++ crc ++ uint16LE declared ++ [type] ++ partial)
                     (blen pre + 4) = Ok declared).
    { rewrite uint16LE_eq. cbn [app]. rewrite app_assoc, <- Hc4, <- blen_app.
      apply readUInt16LE_at. lia. }
    rewrite Hlen. cbn [bind].
    assert (Hskip : ((declared =? 0)
                     || (blen pre + 7 + declared
                         >? blen pre + (7 + blen partial))) = true).
    { destruct Hcut as [-> | Hcut]; [reflexivity|].
      apply orb_true_iff. right. apply Z.gtb_lt. lia. }
    rewrite Hskip. rewrite while_S. cbn [lg_offset].
    destruct (Z.ltb_spec (blen pre + (32768 - blen pre))
                (blen pre + (7 + blen partial))); [lia|].
    eexists; split; reflexivity.
Qed.

Lemma parseLogData_full_then_torn (fuel : nat) (batches : list LogBatch)
    (tail : Buffer) :
  Forall well_formed_batch batches ->
  Forall (fun b => (List.length (lb_ops b) < fuel)%nat) batches ->
  torn_tail tail ->
  blen (concat (map full_record batches) ++ tail) <= 32768 ->
  (List.length batches + 1 < fuel)%nat ->
  parseLogData fuel (concat (map full_record batches) ++ tail)
  = Ok (concat (map (fun b => puts_of (lb_ops b)) batches)).
Proof.
  intros Hwf Hops Htorn Hfit Hfuel. rewrite blen_app in Hfit.
  pose proof (blen_nonneg tail).
  pose proof (blen_nonneg (concat (map full_record batches))).
  unfold parseLogData.
  replace fuel
    with (List.length batches + S (S (fuel - S (S (List.length batches)))))%nat
    by lia.
  destruct (parseLogData_loop_full
              (List.length batches + S (S (fuel - S (S (List.length batches)))))
              batches (S (S (fuel - S (S (List.length batches))))) [] tail []
              []) as [p' Hloop].
  { assumption. }
  { eapply Forall_impl; [|exact Hops]. cbv beta. intros b Hb. lia. }
  { change (blen []) with 0. lia. }
  cbv zeta in Hloop. cbn [app] in Hloop. change (blen []) with 0 in Hloop.
  rewrite Hloop. clear Hloop. rewrite Z.add_0_l.
  destruct (parseLogData_loop_torn
              (List.length batches + S (S (fuel - S (S (List.length batches)))))
              (fuel - S (S (List.length batches)))
              (concat (map full_record batches)) tail p'
              (concat (map (fun b => puts_of (lb_ops b)) batches)) Htorn)
    as (st & Hst & Hent); [lia|].
  cbn [app] in Hst |- *. rewrite Hst. cbn [bind]. now rewrite Hent.
Qed.

End LogSequences.

(** X10: a log file that lies within one block and holds well-formed FULL
    records, followed by nothing or by the start of a record that a write
    did not complete, yields the puts of all complete batches in order;
    the torn end adds nothing and raises nothing. *)
Theorem parseLogData_full_records (fuel : nat) (batches : list LogBatch)
    (tail : Buffer) :
  Forall well_formed_batch batches ->
  Forall (fun b => (List.length (lb_ops b) < fuel)%nat) batches ->
  torn_tail tail ->
  blen (concat (map full_record batches) ++ tail) <= 32768 ->
  (List.length batches + 1 < fuel)%nat ->
  parseLogData fuel (concat (map full_record batches) ++ tail)
  = Ok (concat (map (fun b => puts_of (lb_ops b)) batches)).
Proof. apply parseLogData_full_then_torn. Qed.

Lemma parseLogData_full_records_witness :
  let crc := [x00; x00; x00; x00] in
  let header := repeat x00 12 in
  let b1 := mkLogBatch crc header [Put ["a"%byte] ["1"%byte]] in
  let b2 := mkLogBatch crc header
              [Delete ["a"%byte]; Put ["b"%byte] ["2"%byte]] in
  let tail := crc ++ uint16LE 40 ++ [x01] ++ header in
  parseLogData 4 (concat (map full_record [b1; b2]) ++ tail)
  = Ok [mkEntry ["a"%byte] ["1"%byte]; mkEntry ["b"%byte] ["2"%byte]].
Proof.
  intros crc header b1 b2 tail.
  apply (parseLogData_full_records 4 [b1; b2] tail).
  - repeat constructor.
  - repeat constructor.
  - apply (torn_payload crc 40 x01 header); [reflexivity | lia|].
    right. vm_compute. reflexivity.
  - apply Z.leb_le. vm_compute. reflexivity.
  - cbn. lia.
Defined.

Section LogBuilder.

Lemma createTestLogFile_eq (tests : list TestEntry) :
  createTestLogFile tests
  = logRecord (uint32LE 0) 1
      (([x01; x00; x00; x00; x00; x00; x00; x00]
          ++ uint32LE (Z.of_nat (List.length tests)))
         ++ encode_ops (map (fun t => Put (t_key t) (t_value t)) tests)).
Proof.
  unfold createTestLogFile. cbv zeta. f_equal. cbn [concat].
  rewrite <- app_assoc. do 2 f_equal.
  unfold encode_ops. rewrite map_map. reflexivity.
Qed.

Lemma puts_of_map_Put (tests : list TestEntry) :
  puts_of (map (fun t => Put (t_key t) (t_value t)) tests)
  = map (fun t => mkEntry (t_key t) (t_value t)) tests.
Proof. induction tests as [|t tests IH]; cbn; [reflexivity | now rewrite IH]. Qed.

Lemma parseLogData_built (fuel : nat) (tests : list TestEntry) :
  blen (createTestLogFile tests) <= 65542 ->
  (List.length tests + 1 < fuel)%nat ->
  parseLogData fuel (createTestLogFile tests)
  = Ok (map (fun t => mkEntry (t_key t) (t_value t)) tests).
Proof.
  intros Hlen Hfuel. rewrite createTestLogFile_eq in *.
  set (header := [x01; x00; x00; x00; x00; x00; x00; x00]
                   ++ uint32LE (Z.of_nat (List.length tests))) in *.
  set (ops := map (fun t => Put (t_key t) (t_value t)) tests) in *.
  rewrite blen_logRecord in Hlen by reflexivity.
  pose proof (blen_nonneg (encode_ops ops)).
  assert (Hpl : blen (header ++ encode_ops ops) = 12 + blen (encode_ops ops)).
  { rewrite blen_app. reflexivity. }
  assert (Hbatch : parseLogBatch fuel (header ++ encode_ops ops) []
                   = Ok (puts_of ops)).
  { rewrite <- (app_nil_r (encode_ops ops)).
    apply (parseLogBatch_records fuel header [] ops []);
      [ reflexivity | rewrite app_nil_r; lia | constructor
      | unfold ops; rewrite length_map; lia ]. }
  destruct fuel as [|[|fuel]]; try lia.
  unfold parseLogData. rewrite while_S. cbn [lg_offset].
  rewrite blen_logRecord by reflexivity.
  destruct (Z.ltb_spec 0 (7 + blen (header ++ encode_ops ops))); [|lia].
  rewrite (parseLogFile_body_FULL _ _ [] (uint32LE 0)
             (header ++ encode_ops ops) []);
    [ | reflexivity | lia | reflexivity | cbn; lia | now rewrite app_nil_r ].
  rewrite Hbatch. cbn [bind]. rewrite while_S. cbn [lg_offset].
  destruct (Z.ltb_spec (0 + 7 + blen (header ++ encode_ops ops))
              (7 + blen (header ++ encode_ops ops))); [lia|].
  cbn [bind lg_entries]. unfold ops. now rewrite puts_of_map_Put.
Qed.

End LogBuilder.

(** X11: the log reader returns exactly the keys and values the test
    builder put into a log file, in order, whatever count the builder
    wrote into the batch header. *)
Theorem parseLogData_round_trip (fuel : nat) (tests : list TestEntry) :
  blen (createTestLogFile tests) <= 65542 ->
  (List.length tests + 1 < fuel)%nat ->
  parseLogData fuel (createTestLogFile tests)
  = Ok (map (fun t => mkEntry (t_key t) (t_value t)) tests).
Proof. apply parseLogData_built. Qed.

Lemma parseLogData_round_trip_witness :
  let tests := [mkTest (list_byte_of_string "logkey1")
                  (list_byte_of_string "logvalue1");
                mkTest (list_byte_of_string "logkey2")
                  (list_byte_of_string "logvalue2")] in
  parseLogData 4 (createTestLogFile tests)
  = Ok (map (fun t => mkEntry (t_key t) (t_value t)) tests).
Proof.
  intros tests. apply (parseLogData_round_trip 4 tests).
  - apply Z.leb_le. vm_compute. reflexivity.
  - cbn. lia.
Defined.

Section Fragments.

Lemma strict_eq_type (type c : Z) :
  0 <= type < 256 -> strict_eq (Some (byte_of_Z type)) c = (type =? c).
Proof. intros Ht. cbn [strict_eq]. now rewrite byteZ_byte_of_Z. Qed.

Lemma blen_any_record (r : LogRec) :
  List.length (lr_crc r) = 4%nat ->
  blen (any_record r) = 7 + blen (lr_payload r).
Proof. intros Hc. unfold any_record. now apply blen_logRecord. Qed.

(** Records that are neither FULL nor FIRST, met with no fragment open,
    leave nothing behind them. *)
Lemma parseLogData_loop_orphans (fuel : nat) (recs : list LogRec) :
  forall (m : nat) (pre : Buffer) (entries : list LevelDBEntry),
    let data := pre ++ concat (map any_record recs) in
    Forall (fun r => List.length (lr_crc r) = 4%nat /\
                     0 <= lr_type r < 256 /\
                     lr_type r <> 1 /\ lr_type r <> 2) recs ->
    blen data <= 32768 ->
    (List.length recs < m)%nat ->
    exists st,
      while m (fun st => lg_offset st <? blen data)
        (parseLogFile_body fuel data) (mkLogState (blen pre) [] entries)
      = Ok st /\ lg_entries st = entries.
Proof.
  induction recs as [|r recs IH]; intros m pre entries data Hrecs Hfit Hm.
  - destruct m as [|m]; [lia|]. rewrite while_S. cbn [lg_offset].
    unfold data. cbn [map concat]. rewrite app_nil_r.
    destruct (Z.ltb_spec (blen pre) (blen pre)); [lia|].
    eexists; split; reflexivity.
  - inversion Hrecs as [|? ? (Hcrc & Hty & Hn1 & Hn2) Hrecs']; subst.
    destruct m as [|m]; [cbn in Hm; lia|]. cbn [List.length] in Hm.
    pose proof (blen_nonneg pre). pose proof (blen_nonneg (lr_payload r)).
    pose proof (blen_nonneg (concat (map any_record recs))).
    assert (Hd : data = pre ++ logRecord (lr_crc r) (lr_type r) (lr_payload r)
                         ++ concat (map any_record recs)).
    { reflexivity. }
    assert (Hdl : blen data
                  = blen pre + (7 + blen (lr_payload r))
                    + blen (concat (map any_record recs))).
    { rewrite Hd, !blen_app, blen_logRecord by assumption. lia. }
    destruct (Z.eq_dec (blen (lr_payload r)) 0) as [Hempty | Hnonempty].
    + (* no payload: the reader gives up on this block *)
      destruct (parseLogData_loop_torn fuel (m - 1) pre
                  (logRecord (lr_crc r) (lr_type r) (lr_payload r)
                     ++ concat (map any_record recs)) [] entries)
        as (st & Hst & Hent).
      * rewrite logRecord_eq, Hempty.
        replace (lr_crc r ++ byte_of_Z 0 :: byte_of_Z (0 / 256)
                   :: byte_of_Z (lr_type r) :: lr_payload r)
          with (lr_crc r ++ uint16LE 0 ++ [byte_of_Z (lr_type r)]
                  ++ lr_payload r) by reflexivity.
        rewrite <- !app_assoc.
        apply torn_payload; [assumption | lia | now left].
      * rewrite blen_app, blen_logRecord by assumption. lia.
      * rewrite <- Hd in Hst.
        destruct m as [|m]; [lia|].
        replace (S (S (S m - 1))) with (S (S m)) in Hst by lia.
        exists st. split; assumption.
    + rewrite while_S. cbn [lg_offset].
      destruct (Z.ltb_spec (blen pre) (blen data)); [|lia].
      assert (Hbody : parseLogFile_body fuel data (mkLogState (blen pre) [] entries)
                      = Ok (Continue (mkLogState
                                        (blen pre + 7 + blen (lr_payload r))
                                        [] entries))).
      { pose proof (parseLogFile_body_record fuel pre (lr_crc r)
                      (lr_payload r) (concat (map any_record recs))
                      (lr_type r) [] entries) as Hb.
        cbv zeta in Hb. rewrite <- Hd in Hb. rewrite Hb; [ | assumption | lia
                                     | apply mod_small_offset; lia ].
        rewrite !strict_eq_type by assumption.
        unfold LOG_RECORD_FULL, LOG_RECORD_FIRST, LOG_RECORD_MIDDLE,
          LOG_RECORD_LAST.
        destruct (Z.eqb_spec (lr_type r) 1); [contradiction|].
        destruct (Z.eqb_spec (lr_type r) 2); [contradiction|].
        destruct (lr_type r =? 3); [reflexivity|].
        destruct (lr_type r =? 4); reflexivity. }
      rewrite Hbody.
      destruct (IH m (pre ++ any_record r) entries) as (st & Hst & Hent).
      * assumption.
      * cbv zeta. rewrite <- app_assoc. fold data. exact Hfit.
      * lia.
      * cbv zeta in Hst. rewrite <- app_assoc in Hst.
        change (pre ++ any_record r ++ concat (map any_record recs))
          with data in Hst.
        rewrite blen_app, blen_any_record in Hst by assumption.
        replace (blen pre + 7 + blen (lr_payload r))
          with (blen pre + (7 + blen (lr_payload r))) by lia.
        exists st. split; assumption.
Qed.

End Fragments.

(** X12: a log file within one block that holds no FULL and no FIRST
    record, only MIDDLE, LAST or unknown types, yields no entry and no
    error, whatever the payloads are. *)
Theorem parseLogData_orphan_fragments (fuel : nat) (recs : list LogRec) :
  Forall (fun r => List.length (lr_crc r) = 4%nat /\
                   0 <= lr_type r < 256 /\
                   lr_type r <> 1 /\ lr_type r <> 2) recs ->
  blen (concat (map any_record recs)) <= 32768 ->
  (List.length recs < fuel)%nat ->
  parseLogData fuel (concat (map any_record recs)) = Ok [].
Proof.
  intros Hrecs Hfit Hfuel. unfold parseLogData.
  destruct (parseLogData_loop_orphans fuel recs fuel [] [] Hrecs Hfit Hfuel)
    as (st & Hst & Hent).
  cbv zeta in Hst. cbn [app] in Hst. change (blen []) with 0 in Hst.
  rewrite Hst. cbn [bind]. now rewrite Hent.
Qed.

Lemma parseLogData_orphan_fragments_witness :
  let crc := [x00; x00; x00; x00] in
  let batch := repeat x00 12 ++ encode_ops [Put ["a"%byte] ["1"%byte]] in
  parseLogData 4
    (concat (map any_record [mkLogRec crc 3 batch; mkLogRec crc 4 batch;
                             mkLogRec crc 9 batch]))
  = Ok [].
Proof.
  intros crc batch.
  apply (parseLogData_orphan_fragments 4).
  - repeat constructor; cbn; lia.
  - apply Z.leb_le. vm_compute. reflexivity.
  - cbn. lia.
Defined.

Section Reassembly.

Lemma parseLogData_loop_middles (fuel : nat) (middles : list LogRec) :
  forall (n : nat) (pre post : Buffer) (pendingRecord : list Buffer)
         (entries : list LevelDBEntry),
    let data := pre ++ concat (map any_record middles) ++ post in
    pendingRecord <> [] ->
    Forall (fun r => List.length (lr_crc r) = 4%nat /\ lr_type r = 3 /\
                     1 <= blen (lr_payload r) <= 65535) middles ->
    (forall i, (i < List.length middles)%nat ->
               (blen pre
                + blen (concat (map any_record (firstn i middles))))
                 mod 32768 <= 32761) ->
    while (List.length middles + n) (fun st => lg_offset st <? blen data)
      (parseLogFile_body fuel data)
      (mkLogState (blen pre) pendingRecord entries)
    = while n (fun st => lg_offset st <? blen data)
        (parseLogFile_body fuel data)
        (mkLogState (blen pre + blen (concat (map any_record middles)))
           (pendingRecord ++ map lr_payload middles) entries).
Proof.
  induction middles as [|r middles IH];
    intros n pre post pendingRecord entries data Hp Hrecs Hpos.
  - cbn [map concat List.length Nat.add]. change (blen []) with 0.
    now rewrite Z.add_0_r, app_nil_r.
  - inversion Hrecs as [|? ? (Hcrc & Hty & Hpl) Hrecs']; subst.
    pose proof (blen_nonneg pre). pose proof (blen_nonneg post).
    pose proof (blen_nonneg (concat (map any_record middles))).
    assert (Hd : data = pre ++ logRecord (lr_crc r) 3 (lr_payload r)
                         ++ (concat (map any_record middles) ++ post)).
    { unfold data. cbn [map concat]. unfold any_record at 1. rewrite Hty.
      app_norm. }
    assert (Hrl : blen (any_record r) = 7 + blen (lr_payload r))
      by now apply blen_any_record.
    assert (Hdl : blen data
                  = blen pre + (7 + blen (lr_payload r))
                    + blen (concat (map any_record middles)) + blen post).
    { unfold data. cbn [map concat]. rewrite !blen_app, Hrl. lia. }
    cbn [List.length Nat.add]. rewrite while_S. cbn [lg_offset].
    destruct (Z.ltb_spec (blen pre) (blen data)); [|lia].
    rewrite (parseLogFile_body_MIDDLE fuel data pre (lr_crc r)
               (lr_payload r)
               (concat (map any_record middles) ++ post) (blen pre)
               pendingRecord entries);
      [ | assumption | assumption | reflexivity
        | specialize (Hpos 0%nat ltac:(cbn; lia)); cbn [firstn map concat] in Hpos;
          change (blen []) with 0 in Hpos; now rewrite Z.add_0_r in Hpos
        | exact Hd | assumption ].
    specialize (IH n (pre ++ any_record r) post
                  (pendingRecord ++ [lr_payload r]) entries).
    cbv zeta in IH.
    replace ((pre ++ any_record r) ++ concat (map any_record middles) ++ post)
      with data in IH by (unfold data; cbn [map concat]; app_norm).
    rewrite blen_app, Hrl in IH.
    replace (blen pre + 7 + blen (lr_payload r))
      with (blen pre + (7 + blen (lr_payload r))) by lia.
    rewrite IH.
    + cbn [map concat]. rewrite blen_app, Hrl, <- app_assoc.
      do 2 f_equal. lia.
    + intros E. apply app_eq_nil in E as [_ E]. discriminate.
    + assumption.
    + intros i Hi. specialize (Hpos (S i) ltac:(cbn; lia)).
      cbn [firstn map concat] in Hpos. rewrite blen_app, Hrl in Hpos.
      replace (blen pre + (7 + blen (lr_payload r))
               + blen (concat (map any_record (firstn i middles))))
        with (blen pre
              + (7 + blen (lr_payload r)
                 + blen (concat (map any_record (firstn i middles)))))
        by lia.
      exact Hpos.
Qed.

Lemma parseLogData_fragments (fuel : nat) (first last : LogRec)
    (middles : list LogRec) :
  List.length (lr_crc first) = 4%nat -> lr_type first = 2 ->
  1 <= blen (lr_payload first) <= 65535 ->
  Forall (fun r => List.length (lr_crc r) = 4%nat /\ lr_type r = 3 /\
                   1 <= blen (lr_payload r) <= 65535) middles ->
  List.length (lr_crc last) = 4%nat -> lr_type last = 4 ->
  1 <= blen (lr_payload last) <= 65535 ->
  (forall i, (i <= List.length middles)%nat ->
             (blen (any_record first)
              + blen (concat (map any_record (firstn i middles))))
               mod 32768 <= 32761) ->
  (List.length middles + 3 <= fuel)%nat ->
  parseLogData fuel
    (any_record first ++ concat (map any_record middles) ++ any_record last)
  = parseLogBatch fuel
      (lr_payload first ++ concat (map lr_payload middles)
         ++ lr_payload last) [].
Proof.
  intros Hc1 Ht1 Hp1 Hmid Hc2 Ht2 Hp2 Hpos Hfuel.
  set (data := any_record first ++ concat (map any_record middles)
                 ++ any_record last).
  pose proof (blen_nonneg (concat (map any_record middles))).
  assert (Hfl : blen (any_record first) = 7 + blen (lr_payload first))
    by now apply blen_any_record.
  assert (Hll : blen (any_record last) = 7 + blen (lr_payload last))
    by now apply blen_any_record.
  assert (Hdl : blen data
                = 7 + blen (lr_payload first)
                  + blen (concat (map any_record middles))
                  + (7 + blen (lr_payload last))).
  { unfold data. rewrite !blen_app, Hfl, Hll. lia. }
  unfold parseLogData.
  remember fuel as outer eqn:Ho in |- * at 1.
  assert (Houter : (List.length middles + 3 <= outer)%nat) by lia.
  clear Ho.
  destruct outer as [|outer]; [lia|].
  rewrite while_S. cbn [lg_offset].
  destruct (Z.ltb_spec 0 (blen data)); [|lia].
  rewrite (parseLogFile_body_FIRST fuel data [] (lr_crc first)
             (lr_payload first)
             (concat (map any_record middles) ++ any_record last) 0 [] []);
    [ | assumption | assumption | reflexivity | cbn; lia
      | unfold data, any_record at 1; now rewrite Ht1 ].
  replace outer
    with (List.length middles + S (S (outer - S (S (List.length middles)))))%nat
    by lia.
  pose proof (parseLogData_loop_middles fuel middles
                (S (S (outer - S (S (List.length middles)))))
                (any_record first) (any_record last) [lr_payload first] [])
    as Hloop.
  cbv zeta in Hloop. fold data in Hloop. rewrite Hfl in Hloop.
  replace (0 + 7 + blen (lr_payload first))
    with (7 + blen (lr_payload first)) by lia.
  rewrite Hloop; [ | discriminate | assumption
                   | intros i Hi; rewrite <- Hfl; apply Hpos; lia ].
  clear Hloop. rewrite while_S. cbn [lg_offset].
  destruct (Z.ltb_spec (7 + blen (lr_payload first)
                        + blen (concat (map any_record middles)))
              (blen data)); [|lia].
  rewrite (parseLogFile_body_LAST fuel data
             (any_record first ++ concat (map any_record middles))
             (lr_crc last) (lr_payload last) []);
    [ | assumption | assumption
      | rewrite blen_app, Hfl; reflexivity
      | specialize (Hpos (List.length middles) (Nat.le_refl _));
        rewrite firstn_all, Hfl in Hpos; exact Hpos
      | unfold data, any_record at 3; rewrite Ht2, app_nil_r; app_norm
      | intros E; destruct (map lr_payload middles); discriminate ].
  replace (concat (([lr_payload first] ++ map lr_payload middles)
                     ++ [lr_payload last]))
    with (lr_payload first ++ concat (map lr_payload middles)
            ++ lr_payload last)
    by (rewrite concat_app; cbn [app concat]; now rewrite app_nil_r, <- app_assoc).
  destruct (parseLogBatch fuel _ []) as [es | msg |]; cbn [bind];
    try reflexivity.
  rewrite while_S. cbn [lg_offset].
  destruct (Z.ltb_spec (7 + blen (lr_payload first)
                        + blen (concat (map any_record middles)) + 7
                        + blen (lr_payload last)) (blen data)); [lia|].
  reflexivity.
Qed.

End Reassembly.

(** X13: a FIRST record, any number of MIDDLE records and a LAST record,
    none of them empty and each header starting where at least 7 bytes are
    left in its block, are decoded as the one write batch made of their
    payloads in order. *)
Theorem parseLogData_reassembles (fuel : nat) (first last : LogRec)
    (middles : list LogRec) :
  List.length (lr_crc first) = 4%nat -> lr_type first = 2 ->
  1 <= blen (lr_payload first) <= 65535 ->
  Forall (fun r => List.length (lr_crc r) = 4%nat /\ lr_type r = 3 /\
                   1 <= blen (lr_payload r) <= 65535) middles ->
  List.length (lr_crc last) = 4%nat -> lr_type last = 4 ->
  1 <= blen (lr_payload last) <= 65535 ->
  (forall i, (i <= List.length middles)%nat ->
             (blen (any_record first)
              + blen (concat (map any_record (firstn i middles))))
               mod 32768 <= 32761) ->
  (List.length middles + 3 <= fuel)%nat ->
  parseLogData fuel
    (any_record first ++ concat (map any_record middles) ++ any_record last)
  = parseLogBatch fuel
      (lr_payload first ++ concat (map lr_payload middles)
         ++ lr_payload last) [].
Proof. apply parseLogData_fragments. Qed.

Lemma parseLogData_reassembles_witness :
  let crc := [x00; x00; x00; x00] in
  let first := mkLogRec crc 2 (repeat x00 12 ++ [x01]) in
  let middle := mkLogRec crc 3 [x01; "k"%byte] in
  let last := mkLogRec crc 4 [x01; "v"%byte] in
  parseLogData 4 (any_record first ++ concat (map any_record [middle])
                    ++ any_record last)
  = Ok [mkEntry ["k"%byte] ["v"%byte]].
Proof.
  intros crc first middle last.
  assert (Hle : forall x y : Z, (x <=? y) = true -> x <= y)
    by (intros x y H; now apply Z.leb_le).
  etransitivity.
  - apply (parseLogData_reassembles 4 first last [middle]).
    + reflexivity.
    + reflexivity.
    + split; apply Hle; vm_compute; reflexivity.
    + constructor; [|constructor].
      split; [reflexivity|]. split; [reflexivity|].
      split; apply Hle; vm_compute; reflexivity.
    + reflexivity.
    + reflexivity.
    + split; apply Hle; vm_compute; reflexivity.
    + intros [|[|i]] Hi; [ apply Hle; vm_compute; reflexivity
                         | apply Hle; vm_compute; reflexivity
                         | cbn in Hi; lia ].
    + cbn. lia.
  - vm_compute. reflexivity.
Defined.

(** ** The scanner and the query *)

Lemma filter_filter_implied {A} (f g : A -> bool) (l : list A) :
  (forall x, f x = true -> g x = true) ->
  filter f (filter g l) = filter f l.
Proof.
  intros Himp. induction l as [|x l IH]; [reflexivity|].
  cbn [filter]. destruct (g x) eqn:Hg.
  - cbn [filter]. now rewrite IH.
  - destruct (f x) eqn:Hf; [|exact IH].
    apply Himp in Hf. congruence.
Qed.

Lemma filter_true {A} (f : A -> bool) (l : list A) :
  (forall x, f x = true) -> filter f l = l.
Proof.
  intros Hf. induction l as [|x l IH]; [reflexivity|].
  cbn [filter]. now rewrite Hf, IH.
Qed.

Lemma contains_run_trans (p q k : Buffer) :
  contains_run p q -> contains_run q k -> contains_run p k.
Proof.
  intros (a & b & ->) (c & d & ->).
  exists (c ++ a), (b ++ d). now rewrite <- !app_assoc.
Qed.

Lemma includes_refines (p q k : Buffer) :
  contains_run p q -> includes k q = true -> includes k p = true.
Proof.
  intros Hpq Hq. apply includes_spec. apply includes_spec in Hq.
  eapply contains_run_trans; eassumption.
Qed.

Lemma bind_ok_id {A} (r : Res A) : (x <- r ;; Ok x) = r.
Proof. destruct r; reflexivity. Qed.

(** X14: the names of a listing that end in none of [.ldb], [.sst] and
    [.log] have no influence on the scan: the result is the same as on
    the listing without them.  A directory that cannot be listed gives an
    empty result. *)
Theorem readChromiumLevelDB_ignores_other_names
    (readFile : string -> option Buffer)
    (readdir : string -> option (list string))
    (join : string -> string -> string)
    (snappyUncompress : Buffer -> Z -> option Buffer)
    (spreadable : nat -> bool) (fuel : nat)
    (dir : string) :
  readChromiumLevelDB readFile readdir join snappyUncompress spreadable fuel dir
  = readChromiumLevelDB readFile
      (fun d => option_map (filter is_scanned) (readdir d)) join
      snappyUncompress spreadable fuel dir /\
  (readdir dir = None ->
   readChromiumLevelDB readFile readdir join snappyUncompress spreadable fuel
     dir
   = Ok []).
Proof.
  split.
  - unfold readChromiumLevelDB. destruct (readdir dir) as [files|];
      [|reflexivity].
    cbn [option_map await try_or_return].
    fold is_table. change (fun f : string => endsWith f ".log") with is_log.
    rewrite !filter_filter_implied; [reflexivity | |];
      intros f Hf; unfold is_scanned; rewrite Hf;
      [apply orb_true_r | reflexivity].
  - intros Hdir. unfold readChromiumLevelDB. now rewrite Hdir.
Qed.

(** X15: the query with the empty pattern returns the whole scan. *)
Theorem findKeysContaining_empty_pattern
    (readFile : string -> option Buffer)
    (readdir : string -> option (list string))
    (join : string -> string -> string)
    (snappyUncompress : Buffer -> Z -> option Buffer)
    (spreadable : nat -> bool) (fuel : nat)
    (dir : string) :
  findKeysContaining readFile readdir join snappyUncompress spreadable fuel
    dir []
  = readChromiumLevelDB readFile readdir join snappyUncompress spreadable fuel
    dir.
Proof.
  unfold findKeysContaining.
  destruct (readChromiumLevelDB _ _ _ _ _ _ _) as [all | m |];
    cbn [bind]; try reflexivity.
  rewrite filter_true; [reflexivity|].
  intros e. apply includes_spec. now exists [], (key e).
Qed.

(** X16: a query for a pattern can be answered from the result of the
    query for any run of bytes the pattern contains: filtering that result
    by the longer pattern gives the result of the query for it. *)
Theorem findKeysContaining_refines
    (readFile : string -> option Buffer)
    (readdir : string -> option (list string))
    (join : string -> string -> string)
    (snappyUncompress : Buffer -> Z -> option Buffer)
    (spreadable : nat -> bool) (fuel : nat)
    (dir : string) (short long : Buffer) (found : list LevelDBEntry) :
  contains_run short long ->
  findKeysContaining readFile readdir join snappyUncompress spreadable fuel
    dir short
  = Ok found ->
  findKeysContaining readFile readdir join snappyUncompress spreadable fuel
    dir long
  = Ok (filter (fun e => includes (key e) long) found).
Proof.
  intros Hsub. unfold findKeysContaining.
  destruct (readChromiumLevelDB _ _ _ _ _ _ _) as [all | m |];
    cbn [bind]; try discriminate.
  intros H. injection H as <-.
  rewrite filter_filter_implied; [reflexivity|].
  intros e. now apply includes_refines.
Qed.

Lemma findKeysContaining_refines_witness :
  let e1 := mkEntry (list_byte_of_string "x localConfig_v2")
              (list_byte_of_string "a") in
  let e2 := mkEntry (list_byte_of_string "x localConfig_v9")
              (list_byte_of_string "b") in
  let log := createTestLogFile
               (map (fun e => mkTest (key e) (value e)) [e1; e2]) in
  let readFile := fun _ : string => Some log in
  let readdir := fun _ : string => Some ["000003.log"%string] in
  let join := fun _ f : string => f in
  findKeysContaining readFile readdir join (fun _ _ => None)
    (accepts 1000) 4 "db"
    Teams.localConfigV2
  = Ok (filter (fun e => includes (key e) Teams.localConfigV2) [e1; e2]).
Proof.
  intros e1 e2 log readFile readdir join.
  apply (findKeysContaining_refines readFile readdir join (fun _ _ => None)
    (accepts 1000) 4
           "db" Teams.localConfigV Teams.localConfigV2 [e1; e2]).
  - exists [], ["2"%byte]. reflexivity.
  - vm_compute. reflexivity.
Defined.

(** ** The local configuration *)

Lemma names_config_spec (e : LevelDBEntry) :
  includes (key e) Teams.localConfigV2
  || includes (key e) Teams.localConfigV3 = true <-> names_config e.
Proof.
  unfold names_config. rewrite orb_true_iff.
  now rewrite <- !includes_spec.
Qed.

Lemma value_empty (v : Buffer) : (blen v >? 0) = false <-> v = [].
Proof.
  rewrite Z.gtb_ltb, Z.ltb_ge. destruct v as [|b v].
  - cbn. split; [reflexivity | lia].
  - rewrite blen_cons. pose proof (blen_nonneg v).
    split; [lia | discriminate].
Qed.

Lemma findConfigBuf_select (entries : list LevelDBEntry) :
  match Teams.findConfigBuf entries with
  | Some v =>
      exists before e after,
        entries = before ++ e :: after /\ Forall passed_over before /\
        names_config e /\ value e = v /\ v <> []
  | None => Forall passed_over entries
  end.
Proof.
  induction entries as [|e entries IH]; cbn [Teams.findConfigBuf].
  - constructor.
  - destruct (includes (key e) Teams.localConfigV2
              || includes (key e) Teams.localConfigV3) eqn:Hname;
      cbn [andb].
    + destruct (blen (value e) >? 0) eqn:Hlen.
      * exists [], e, entries. repeat split.
        -- constructor.
        -- now apply names_config_spec.
        -- intros Hv. apply value_empty in Hv. congruence.
      * assert (Hpass : passed_over e)
          by (right; now apply value_empty).
        destruct (Teams.findConfigBuf entries) as [v|].
        -- destruct IH as (before & e' & after & -> & Hb & He & Hv & Hne).
           exists (e :: before), e', after. repeat split; auto.
        -- now constructor.
    + assert (Hpass : passed_over e).
      { left. intros Hn. apply names_config_spec in Hn. congruence. }
      destruct (Teams.findConfigBuf entries) as [v|].
      * destruct IH as (before & e' & after & -> & Hb & He & Hv & Hne).
        exists (e :: before), e', after. repeat split; auto.
      * now constructor.
Qed.

Lemma findConfigBuf_filter (all : list LevelDBEntry) :
  Teams.findConfigBuf
    (filter (fun e => includes (key e) Teams.localConfigV) all)
  = Teams.findConfigBuf all.
Proof.
  induction all as [|e all IH]; [reflexivity|].
  cbn [filter Teams.findConfigBuf].
  destruct (includes (key e) Teams.localConfigV) eqn:Hv.
  - cbn [Teams.findConfigBuf]. now rewrite IH.
  - assert (includes (key e) Teams.localConfigV2
            || includes (key e) Teams.localConfigV3 = false) as ->.
    { apply not_true_is_false. intros H. apply orb_true_iff in H.
      assert (includes (key e) Teams.localConfigV = true); [|congruence].
      destruct H as [H|H]; (eapply includes_refines; [|exact H]).
      - now exists [], ["2"%byte].
      - now exists [], ["3"%byte]. }
    exact IH.
Qed.

Lemma config_query (readFile : string -> option Buffer)
    (readdir : string -> option (list string))
    (join : string -> string -> string)
    (snappyUncompress : Buffer -> Z -> option Buffer)
    (spreadable : nat -> bool) (fuel : nat)
    (dir : string) (all : list LevelDBEntry) :
  readChromiumLevelDB readFile readdir join snappyUncompress spreadable fuel dir
  = Ok all ->
  exists found,
    findKeysContaining readFile readdir join snappyUncompress spreadable fuel
      dir
      Teams.localConfigV = Ok found /\
    Teams.findConfigBuf found = Teams.findConfigBuf all.
Proof.
  intros Hall. unfold findKeysContaining. rewrite Hall. cbn [bind].
  eexists. split; [reflexivity|]. apply findConfigBuf_filter.
Qed.

(** X17: the configuration that [extractTeamsFromSlackLevelDb] selects is
    the value of the first entry that names [localConfig_v2] or
    [localConfig_v3] and has a value of at least one byte; every entry
    before it lacks one of the two.  No configuration is selected exactly
    when every entry does. *)
Theorem findConfigBuf_first_usable (entries : list LevelDBEntry) :
  match Teams.findConfigBuf entries with
  | Some v =>
      exists before e after,
        entries = before ++ e :: after /\ Forall passed_over before /\
        names_config e /\ value e = v /\ v <> []
  | None => Forall passed_over entries
  end.
Proof. apply findConfigBuf_select. Qed.

(** X18: the query for [localConfig_v] that precedes the selection loses
    nothing: on a scan that succeeds the query succeeds, and the selection
    from its result is the selection from the whole scan. *)
Theorem findConfigBuf_after_query
    (readFile : string -> option Buffer)
    (readdir : string -> option (list string))
    (join : string -> string -> string)
    (snappyUncompress : Buffer -> Z -> option Buffer)
    (spreadable : nat -> bool) (fuel : nat)
    (dir : string) (all : list LevelDBEntry) :
  readChromiumLevelDB readFile readdir join snappyUncompress spreadable fuel dir
  = Ok all ->
  exists found,
    findKeysContaining readFile readdir join snappyUncompress spreadable fuel
      dir
      Teams.localConfigV = Ok found /\
    Teams.findConfigBuf found = Teams.findConfigBuf all.
Proof. apply config_query. Qed.

Lemma findConfigBuf_after_query_witness :
  let e1 := mkEntry (list_byte_of_string "other") (list_byte_of_string "a") in
  let e2 := mkEntry (list_byte_of_string "x localConfig_v3")
              (list_byte_of_string "b") in
  let log := createTestLogFile
               (map (fun e => mkTest (key e) (value e)) [e1; e2]) in
  let readFile := fun _ : string => Some log in
  let readdir := fun _ : string => Some ["000003.log"%string] in
  let join := fun _ f : string => f in
  exists found,
    findKeysContaining readFile readdir join (fun _ _ => None)
      (accepts 1000) 4 "db"
      Teams.localConfigV = Ok found /\
    Teams.findConfigBuf found = Teams.findConfigBuf [e1; e2].
Proof.
  intros e1 e2 log readFile readdir join.
  apply (findConfigBuf_after_query readFile readdir join (fun _ _ => None)
    (accepts 1000) 4
           "db" [e1; e2]).
  vm_compute. reflexivity.
Defined.

(** ** Inputs on which a decoder does not return *)

Lemma while_fuel_short {S} (cond : S -> bool) (body : S -> Res (Step S))
    (k : nat) :
  forall (n : nat) (s : S),
    while (n + k) cond body s = OutOfFuel -> while n cond body s = OutOfFuel.
Proof.
  induction n as [|n IH]; intros s H; [reflexivity|].
  cbn [Nat.add] in H. rewrite while_S in *.
  destruct (cond s); [|discriminate].
  destruct (body s) as [[s' | s'] | m |]; try discriminate; auto.
Qed.

Lemma while_fixed_state {S} (cond : S -> bool) (body : S -> Res (Step S))
    (s : S) :
  cond s = true -> body s = Ok (Continue s) ->
  forall n, while n cond body s = OutOfFuel.
Proof.
  intros Hc Hb. induction n as [|n IH]; [reflexivity|].
  now rewrite while_S, Hc, Hb.
Qed.

Lemma parseLogBatch_delete_back (header : Buffer) (ops : list BatchOp)
    (rest : Buffer) (entries : list LevelDBEntry) (fuel : nat) :
  List.length header = 12%nat ->
  blen (header ++ encode_ops ops ++ x00 :: rest) < 2 ^ 31 ->
  readVarint (x00 :: rest) 1 = Ok (-6, 5) ->
  parseLogBatch fuel (header ++ encode_ops ops ++ x00 :: rest) entries
  = OutOfFuel.
Proof.
  intros Hh Hlen Hread.
  assert (Hbh : blen header = 12) by (unfold blen; lia).
  pose proof (blen_nonneg (encode_ops ops)) as Hops.
  pose proof (blen_nonneg rest) as Hrest.
  unfold parseLogBatch.
  set (batch := header ++ encode_ops ops ++ x00 :: rest) in *.
  assert (Hbl : blen batch
                = 12 + blen (encode_ops ops) + (1 + blen rest)).
  { unfold batch. rewrite !blen_app, blen_cons. lia. }
  destruct (Z.ltb_spec (blen batch) 12); [lia|].
  assert (Hloop : while fuel (fun st => ba_offset st <? blen batch)
                    (parseLogBatch_body batch)
                    {| ba_offset := 12; ba_entries := entries |}
                  = OutOfFuel); [|now rewrite Hloop].
  apply (while_fuel_short _ _ (List.length ops)).
  rewrite Nat.add_comm, <- Hbh.
  unfold batch. rewrite parseLogBatch_loop_ops by exact Hlen.
  fold batch.
  apply while_fixed_state; cbn [ba_offset].
  - apply Z.ltb_lt. lia.
  - unfold parseLogBatch_body. cbn [ba_offset ba_entries].
    assert (Hsplit : batch = (header ++ encode_ops ops) ++ x00 :: rest)
      by (unfold batch; now rewrite <- app_assoc).
    assert (Hpre : blen header + blen (encode_ops ops)
                   = blen (header ++ encode_ops ops))
      by now rewrite blen_app.
    rewrite Hpre, Hsplit, at_middle.
    cbn [strict_eq]. change (byteZ x00 =? 1) with false.
    change (byteZ x00 =? 0) with true. cbv iota.
    rewrite readVarint_app_r by lia. rewrite Hread.
    cbn [bind try_catch]. do 3 f_equal. lia.
Qed.

Lemma parseDataBlock_entry_back (block : Buffer)
    (numRestarts shared n1 nonShared n2 valueLen n3 : Z) (fuel : nat) :
  4 <= blen block ->
  readUInt32LE block (blen block - 4) = Ok numRestarts ->
  0 < blen block - 4 - numRestarts * 4 ->
  readVarint block 0 = Ok (shared, n1) ->
  readVarint block n1 = Ok (nonShared, n2) ->
  readVarint block (n1 + n2) = Ok (valueLen, n3) ->
  n1 + n2 + n3 + nonShared + valueLen = 0 ->
  parseDataBlock fuel block = OutOfFuel.
Proof.
  intros Hlen Hrestarts Hstart H1 H2 H3 Hback.
  unfold parseDataBlock.
  destruct (Z.ltb_spec (blen block) 4); [lia|].
  rewrite Hrestarts. cbn [bind].
  set (restartsStart := blen block - 4 - numRestarts * 4) in *.
  destruct (Z.ltb_spec restartsStart 0); [lia|].
  assert (Hloop : forall n prevKey entries,
             while n (fun st => bs_offset st <? restartsStart)
               (parseDataBlock_body block restartsStart)
               {| bs_offset := 0; bs_prevKey := prevKey;
                  bs_entries := entries |} = OutOfFuel).
  { induction n as [|n IH]; intros prevKey entries; [reflexivity|].
    rewrite while_S. cbn [bs_offset].
    destruct (Z.ltb_spec 0 restartsStart); [|lia].
    unfold parseDataBlock_body. cbn [bs_offset bs_prevKey bs_entries].
    rewrite H1. cbn [bind]. rewrite Z.add_0_l, H2. cbn [bind].
    rewrite H3. cbn [bind].
    destruct (Z.gtb_spec (n1 + n2 + n3 + nonShared + valueLen)
                restartsStart); [lia|].
    cbn [try_catch].
    replace (n1 + n2 + n3 + nonShared + valueLen) with 0 by lia.
    apply IH. }
  now rewrite Hloop.
Qed.

(** X19: a write batch with a delete record whose key length decodes to
    -6 is never decoded: after the five bytes of that length the offset is
    back at the record, and [parseLogBatch] returns for no number of
    iterations. *)
Theorem parseLogBatch_negative_key_length_loops (header : Buffer)
    (ops : list BatchOp) (rest : Buffer) (entries : list LevelDBEntry)
    (fuel : nat) :
  List.length header = 12%nat ->
  blen (header ++ encode_ops ops ++ x00 :: rest) < 2 ^ 31 ->
  readVarint (x00 :: rest) 1 = Ok (-6, 5) ->
  parseLogBatch fuel (header ++ encode_ops ops ++ x00 :: rest) entries
  = OutOfFuel.
Proof. apply parseLogBatch_delete_back. Qed.

Lemma parseLogBatch_negative_key_length_loops_witness :
  parseLogBatch 1000
    (repeat x00 12
     ++ encode_ops [Put [x6b] [x76]]
     ++ x00 :: [xfa; xff; xff; xff; x0f]) []
  = OutOfFuel.
Proof.
  apply (parseLogBatch_negative_key_length_loops (repeat x00 12)
           [Put [x6b] [x76]] [xfa; xff; xff; xff; x0f] [] 1000).
  - reflexivity.
  - apply Z.ltb_lt. vm_compute. reflexivity.
  - vm_compute. reflexivity.
Defined.

(** X20: a data block whose first entry has lengths that add up, with the
    bytes of the three lengths themselves, to zero is never decoded: every
    iteration of [parseDataBlock] appends an entry and starts again at
    offset 0, so the function returns for no number of iterations. *)
Theorem parseDataBlock_negative_length_loops (block : Buffer)
    (numRestarts shared n1 nonShared n2 valueLen n3 : Z) (fuel : nat) :
  4 <= blen block ->
  readUInt32LE block (blen block - 4) = Ok numRestarts ->
  0 < blen block - 4 - numRestarts * 4 ->
  readVarint block 0 = Ok (shared, n1) ->
  readVarint block n1 = Ok (nonShared, n2) ->
  readVarint block (n1 + n2) = Ok (valueLen, n3) ->
  n1 + n2 + n3 + nonShared + valueLen = 0 ->
  parseDataBlock fuel block = OutOfFuel.
Proof. apply parseDataBlock_entry_back. Qed.

Lemma parseDataBlock_negative_length_loops_witness :
  parseDataBlock 1000
    ([x00; xf9; xff; xff; xff; x0f; x00] ++ uint32LE 0 ++ uint32LE 1)
  = OutOfFuel.
Proof.
  apply (parseDataBlock_negative_length_loops
           ([x00; xf9; xff; xff; xff; x0f; x00] ++ uint32LE 0 ++ uint32LE 1)
           1 0 1 (-7) 5 0 1 1000).
  - apply Z.leb_le. vm_compute. reflexivity.
  - vm_compute. reflexivity.
  - apply Z.ltb_lt. vm_compute. reflexivity.
  - vm_compute. reflexivity.
  - vm_compute. reflexivity.
  - vm_compute. reflexivity.
  - reflexivity.
Defined.

(** ** The caller's array of [parseLogBatch] *)

Lemma readVarint_loop_returns (n : nat) (buf : Buffer) (offset : Z) :
  forall result shift bytesRead,
    readVarint_loop n buf offset result shift bytesRead <> OutOfFuel.
Proof.
  induction n as [|n IH]; intros result shift bytesRead; [discriminate|].
  rewrite readVarint_loop_S.
  destruct (offset + bytesRead <? blen buf); [|discriminate].
  cbv zeta. destruct (and32 _ 128 =? 0); [discriminate|].
  destruct (shift + 7 >=? 35); [discriminate | apply IH].
Qed.

Lemma readVarint_returns (buf : Buffer) (offset : Z) :
  readVarint buf offset <> OutOfFuel.
Proof. apply readVarint_loop_returns. Qed.

(** What one iteration does is decided by the batch and the offset alone:
    it stops, or moves to an offset and appends entries. *)
Lemma parseLogBatch_body_shape (batch : Buffer) (o : Z) :
  exists d : option (Z * list LevelDBEntry),
    forall entries,
      parseLogBatch_body batch {| ba_offset := o; ba_entries := entries |}
      = Ok match d with
           | Some (o', new) =>
               Continue {| ba_offset := o'; ba_entries := entries ++ new |}
           | None => Break {| ba_offset := o; ba_entries := entries |}
           end.
Proof.
  unfold parseLogBatch_body. cbn [ba_offset ba_entries].
  destruct (strict_eq (at_ batch o) 1).
  - destruct (readVarint batch (o + 1)) as [[keyLen n1] | m |] eqn:H1;
      [| exists None; reflexivity | now apply readVarint_returns in H1].
    cbn [bind].
    destruct (readVarint batch (o + 1 + n1 + keyLen)) as [[valueLen n2] | m |]
      eqn:H2;
      [| exists None; reflexivity | now apply readVarint_returns in H2].
    eexists (Some (_, [_])). intros entries. reflexivity.
  - destruct (strict_eq (at_ batch o) 0); [|exists None; reflexivity].
    destruct (readVarint batch (o + 1)) as [[keyLen n1] | m |] eqn:H1;
      [| exists None; reflexivity | now apply readVarint_returns in H1].
    exists (Some (o + 1 + (n1 + keyLen), [])). intros entries.
    cbn [bind try_catch]. now rewrite app_nil_r.
Qed.

Lemma parseLogBatch_loop_appends (batch : Buffer) (fuel : nat) :
  forall (o : Z) (entries : list LevelDBEntry) (st : BatchState),
    while fuel (fun st => ba_offset st <? blen batch)
      (parseLogBatch_body batch)
      {| ba_offset := o; ba_entries := entries |} = Ok st ->
    exists new,
      forall entries',
        while fuel (fun st => ba_offset st <? blen batch)
          (parseLogBatch_body batch)
          {| ba_offset := o; ba_entries := entries' |}
        = Ok {| ba_offset := ba_offset st; ba_entries := entries' ++ new |}.
Proof.
  induction fuel as [|fuel IH]; intros o entries st Hrun; [discriminate|].
  rewrite while_S in Hrun. cbn [ba_offset] in Hrun.
  destruct (parseLogBatch_body_shape batch o) as [d Hbody].
  destruct (o <? blen batch) eqn:Hcond.
  - rewrite Hbody in Hrun. destruct d as [[o' add]|].
    + apply IH in Hrun. destruct Hrun as [new Hnew].
      exists (add ++ new). intros entries'.
      rewrite while_S. cbn [ba_offset]. rewrite Hcond, Hbody.
      rewrite Hnew. now rewrite app_assoc.
    + injection Hrun as <-. exists []. intros entries'.
      rewrite while_S. cbn [ba_offset]. rewrite Hcond, Hbody.
      now rewrite app_nil_r.
  - injection Hrun as <-. exists []. intros entries'.
    rewrite while_S. cbn [ba_offset]. rewrite Hcond.
    now rewrite app_nil_r.
Qed.

Lemma parseLogBatch_append_only (fuel : nat) (batch : Buffer)
    (entries result : list LevelDBEntry) :
  parseLogBatch fuel batch entries = Ok result ->
  exists new,
    parseLogBatch fuel batch [] = Ok new /\
    forall entries',
      parseLogBatch fuel batch entries' = Ok (entries' ++ new).
Proof.
  unfold parseLogBatch. destruct (blen batch <? 12).
  - intros _. exists []. split; [reflexivity|].
    intros entries'. now rewrite app_nil_r.
  - destruct (while _ _ _ _) as [st | m |] eqn:Hrun; try discriminate.
    intros _. apply parseLogBatch_loop_appends in Hrun.
    destruct Hrun as [new Hnew]. exists new.
    split; [|intros entries']; now rewrite Hnew.
Qed.

(** X21: [parseLogBatch] only appends to the array it is given, and what
    it appends does not depend on the array: when it returns for one
    array, it returns for every array, with that array followed by the
    entries it decodes into an empty one. *)
Theorem parseLogBatch_appends (fuel : nat) (batch : Buffer)
    (entries result : list LevelDBEntry) :
  parseLogBatch fuel batch entries = Ok result ->
  exists new,
    parseLogBatch fuel batch [] = Ok new /\
    forall entries',
      parseLogBatch fuel batch entries' = Ok (entries' ++ new).
Proof. apply parseLogBatch_append_only. Qed.

Lemma parseLogBatch_appends_witness :
  let batch := repeat x00 12 ++ encode_ops [Put [x6b] [x76]; Delete [x6b]] in
  exists new,
    parseLogBatch 3 batch [] = Ok new /\
    forall entries',
      parseLogBatch 3 batch entries' = Ok (entries' ++ new).
Proof.
  intros batch.
  apply (parseLogBatch_appends 3 batch [mkEntry [x61] [x62]]
           [mkEntry [x61] [x62]; mkEntry [x6b] [x76]]).
  vm_compute. reflexivity.
Defined.

(** ** The token found in a decrypted cookie *)

Lemma printable_dec (b : byte) : {printable b} + {~ printable b}.
Proof.
  unfold printable.
  destruct (Z_le_dec 33 (byteZ b)); [|right; lia].
  destruct (Z_le_dec (byteZ b) 126); [left | right]; lia.
Qed.

(** Every buffer starts with a longest run of printable bytes. *)
Lemma printable_run (l : Buffer) :
  exists run post,
    l = run ++ post /\ Forall printable run /\
    (post = [] \/ exists b post', post = b :: post' /\ ~ printable b).
Proof.
  induction l as [|b l (run & post & -> & Hrun & Hpost)].
  - exists [], []. repeat split; [constructor | now left].
  - destruct (printable_dec b) as [Hb | Hb].
    + exists (b :: run), post. repeat split; [now constructor | assumption].
    + exists [], (b :: run ++ post).
      repeat split; [constructor | right; eauto].
Qed.

Lemma marker_printable : Forall printable (list_byte_of_string "xoxd-").
Proof. repeat constructor; vm_compute; discriminate. Qed.

Lemma decrypt_token_run
    (pbkdf2Sync : string -> Buffer -> Z -> Z -> string -> Buffer)
    (decipher : Buffer -> Buffer -> Buffer -> option Buffer)
    (toString_utf8 : Buffer -> string)
    (decodeURIComponent : string -> option string)
    (encrypted : Buffer) (password : string) (plain : Buffer) (i : nat) :
  encrypted <> [] ->
  decipher (Desktop.derivedKey pbkdf2Sync password) Desktop.iv
    (Desktop.ciphertext toString_utf8 encrypted) = Some plain ->
  occurs_at (list_byte_of_string "xoxd-") plain i ->
  exists rest,
    let token := list_byte_of_string "xoxd-" ++ rest in
    Forall printable token /\ contains_run token plain /\
    Desktop.decryptChromiumCookieValue pbkdf2Sync decipher toString_utf8
      decodeURIComponent encrypted password
    = Ok match decodeURIComponent (toString_utf8 token) with
         | Some decoded => decoded
         | None => toString_utf8 token
         end.
Proof.
  intros Hne Hdec Hocc.
  set (marker := list_byte_of_string "xoxd-") in *.
  unfold Desktop.decryptChromiumCookieValue.
  destruct (Z.eqb_spec (blen encrypted) 0) as [H0|_];
    [destruct encrypted; [contradiction | discriminate]|].
  rewrite Hdec. cbn [call bind]. fold marker. unfold indexOf.
  destruct (indexOf_from_spec marker plain 0)
    as [[_ Hno] | (n & [(pre & post0 & Hplain & Hpre) Hmin] & ->)];
    [exfalso; exact (Hno _ Hocc)|].
  destruct (printable_run post0) as (rest & post & -> & Hrest & Hpost).
  exists rest. cbv zeta.
  assert (Htok : Forall printable (marker ++ rest))
    by (apply Forall_app; split; [apply marker_printable | assumption]).
  split; [exact Htok|].
  split; [exists pre, post; rewrite Hplain; now rewrite <- app_assoc|].
  subst n.
  destruct (Z.eqb_spec (0 + Z.of_nat (List.length pre)) (-1)); [lia|].
  rewrite Z.add_0_l, Nat2Z.id.
  change (Z.of_nat (List.length pre)) with (blen pre).
  assert (Hplain' : plain = pre ++ (marker ++ rest) ++ post)
    by (rewrite Hplain; now rewrite <- app_assoc).
  assert (Hskip : skipn (List.length pre) plain = (marker ++ rest) ++ post).
  { rewrite Hplain', skipn_app, skipn_all, Nat.sub_diag. reflexivity. }
  rewrite Hskip, scanToken_run by assumption.
  rewrite (subarray_at plain pre (marker ++ rest) post) by auto.
  destruct (decodeURIComponent (toString_utf8 (marker ++ rest)));
    reflexivity.
Qed.

Lemma ciphertext_versioned (toString_utf8 : Buffer -> string)
    (version data : Buffer) (name : string) :
  List.length version = 3%nat ->
  toString_utf8 version = name ->
  String.eqb name "v10" || String.eqb name "v11" = true ->
  Desktop.ciphertext toString_utf8 (version ++ data) = data.
Proof.
  intros Hlen Hname Hv. unfold Desktop.ciphertext.
  assert (Hb : blen version = 3) by (unfold blen; lia).
  assert (H1 : subarray (version ++ data) 0 3 = version).
  { apply (subarray_at _ [] version data); [reflexivity | reflexivity | ].
    rewrite Hb. reflexivity. }
  rewrite H1, Hname, Hv. unfold subarray_from.
  apply (subarray_at _ version data []).
  - now rewrite app_nil_r.
  - now rewrite Hb.
  - rewrite blen_app. lia.
Qed.

Lemma decrypt_versions_agree
    (pbkdf2Sync : string -> Buffer -> Z -> Z -> string -> Buffer)
    (decipher : Buffer -> Buffer -> Buffer -> option Buffer)
    (toString_utf8 : Buffer -> string)
    (decodeURIComponent : string -> option string)
    (data : Buffer) (password : string) :
  toString_utf8 (list_byte_of_string "v10") = "v10"%string ->
  toString_utf8 (list_byte_of_string "v11") = "v11"%string ->
  let decrypt :=
    Desktop.decryptChromiumCookieValue pbkdf2Sync decipher toString_utf8
      decodeURIComponent in
  Desktop.ciphertext toString_utf8 (list_byte_of_string "v10" ++ data)
  = data /\
  decrypt (list_byte_of_string "v10" ++ data) password
  = decrypt (list_byte_of_string "v11" ++ data) password.
Proof.
  intros H10 H11 decrypt.
  assert (C10 : Desktop.ciphertext toString_utf8
                  (list_byte_of_string "v10" ++ data) = data)
    by (eapply ciphertext_versioned; [reflexivity | exact H10 | reflexivity]).
  assert (C11 : Desktop.ciphertext toString_utf8
                  (list_byte_of_string "v11" ++ data) = data)
    by (eapply ciphertext_versioned; [reflexivity | exact H11 | reflexivity]).
  split; [exact C10|].
  unfold decrypt, Desktop.decryptChromiumCookieValue.
  rewrite C10, C11. reflexivity.
Qed.

(** X22: when the decrypted cookie contains [xoxd-] there is a token:
    the result is the percent-decoding (or, when that fails, the text) of a
    run of bytes of the plaintext that begins with [xoxd-] and consists of
    printable bytes only. *)
Theorem decryptChromiumCookieValue_token_exists
    (pbkdf2Sync : string -> Buffer -> Z -> Z -> string -> Buffer)
    (decipher : Buffer -> Buffer -> Buffer -> option Buffer)
    (toString_utf8 : Buffer -> string)
    (decodeURIComponent : string -> option string)
    (encrypted : Buffer) (password : string) (plain : Buffer) (i : nat) :
  encrypted <> [] ->
  decipher (Desktop.derivedKey pbkdf2Sync password) Desktop.iv
    (Desktop.ciphertext toString_utf8 encrypted) = Some plain ->
  occurs_at (list_byte_of_string "xoxd-") plain i ->
  exists rest,
    let token := list_byte_of_string "xoxd-" ++ rest in
    Forall printable token /\ contains_run token plain /\
    Desktop.decryptChromiumCookieValue pbkdf2Sync decipher toString_utf8
      decodeURIComponent encrypted password
    = Ok match decodeURIComponent (toString_utf8 token) with
         | Some decoded => decoded
         | None => toString_utf8 token
         end.
Proof. apply decrypt_token_run. Qed.

Lemma decryptChromiumCookieValue_token_exists_witness :
  let pbkdf2Sync :=
    fun (_ : string) (_ : Buffer) (_ _ : Z) (_ : string) => @nil byte in
  let decipher := fun (_ _ data : Buffer) => Some data in
  let decodeURIComponent := fun _ : string => @None string in
  let encrypted := list_byte_of_string "v11 d=xoxd-12 xoxd-34" in
  exists rest,
    let token := list_byte_of_string "xoxd-" ++ rest in
    Forall printable token /\
    contains_run token (list_byte_of_string " d=xoxd-12 xoxd-34") /\
    Desktop.decryptChromiumCookieValue pbkdf2Sync decipher
      string_of_list_byte decodeURIComponent encrypted "peanuts"
    = Ok match decodeURIComponent (string_of_list_byte token) with
         | Some decoded => decoded
         | None => string_of_list_byte token
         end.
Proof.
  intros pbkdf2Sync decipher decodeURIComponent encrypted.
  apply (decryptChromiumCookieValue_token_exists pbkdf2Sync decipher
           string_of_list_byte decodeURIComponent encrypted "peanuts"
           (list_byte_of_string " d=xoxd-12 xoxd-34") 3).
  - discriminate.
  - reflexivity.
  - exists (list_byte_of_string " d="), (list_byte_of_string "12 xoxd-34").
    split; reflexivity.
Defined.

(** X23: the two version prefixes are treated alike: with a decoder that
    reads the three ASCII bytes as the text they spell, the prefix is cut
    off the ciphertext, and a cookie stored as [v10] decrypts to the same
    result as the same data stored as [v11]. *)
Theorem decryptChromiumCookieValue_version_prefix
    (pbkdf2Sync : string -> Buffer -> Z -> Z -> string -> Buffer)
    (decipher : Buffer -> Buffer -> Buffer -> option Buffer)
    (toString_utf8 : Buffer -> string)
    (decodeURIComponent : string -> option string)
    (data : Buffer) (password : string) :
  toString_utf8 (list_byte_of_string "v10") = "v10"%string ->
  toString_utf8 (list_byte_of_string "v11") = "v11"%string ->
  let decrypt :=
    Desktop.decryptChromiumCookieValue pbkdf2Sync decipher toString_utf8
      decodeURIComponent in
  Desktop.ciphertext toString_utf8 (list_byte_of_string "v10" ++ data)
  = data /\
  decrypt (list_byte_of_string "v10" ++ data) password
  = decrypt (list_byte_of_string "v11" ++ data) password.
Proof. apply decrypt_versions_agree. Qed.

Lemma decryptChromiumCookieValue_version_prefix_witness :
  let pbkdf2Sync :=
    fun (_ : string) (_ : Buffer) (_ _ : Z) (_ : string) => @nil byte in
  let decipher := fun (_ _ data : Buffer) => Some data in
  let decodeURIComponent := fun _ : string => @None string in
  let decrypt :=
    Desktop.decryptChromiumCookieValue pbkdf2Sync decipher
      string_of_list_byte decodeURIComponent in
  let data := list_byte_of_string "xoxd-1" in
  Desktop.ciphertext string_of_list_byte (list_byte_of_string "v10" ++ data)
  = data /\
  decrypt (list_byte_of_string "v10" ++ data) "peanuts"%string
  = decrypt (list_byte_of_string "v11" ++ data) "peanuts"%string.
Proof.
  intros pbkdf2Sync decipher decodeURIComponent decrypt data.
  apply (decryptChromiumCookieValue_version_prefix pbkdf2Sync decipher
           string_of_list_byte decodeURIComponent data "peanuts");
    reflexivity.
Defined.

(** ** The package version *)

Lemma or_else_truthy (a b : string) :
  Version.truthy b = true -> Version.truthy (Version.or_else a b) = true.
Proof.
  intros Hb. unfold Version.or_else.
  destruct (Version.truthy a) eqn:Ha; assumption.
Qed.

Lemma truthy_nonempty (s : string) :
  Version.truthy s = true -> s <> ""%string.
Proof.
  unfold Version.truthy. intros H ->. discriminate.
Qed.

Lemma searchPackage_nonempty (trim : string -> string) (w : Version.World)
    (n : nat) :
  forall dir v,
    Version.searchPackage trim w n dir = Ok (Some v) ->
    Version.truthy v = true.
Proof.
  induction n as [|n IH]; intros dir v; cbn [Version.searchPackage];
    [discriminate|].
  destruct (Version.existsSync w _).
  - destruct (Version.readFileSync w _) as [raw|]; [|discriminate].
    cbn [call bind].
    destruct (Version.JSON_version w raw) as [version|]; [|discriminate].
    cbn [call bind]. intros H. injection H as <-.
    now apply or_else_truthy.
  - destruct (String.eqb _ dir); [discriminate | apply IH].
Qed.

Lemma getPackageVersion_cached (trim : string -> string)
    (cachedVersion : option string) (w : Version.World) :
  let '(v, cache) := Version.getPackageVersion trim cachedVersion w in
  cache = Some v /\
  match cachedVersion with
  | Some c => v = c
  | None => v <> ""%string
  end /\
  forall w', Version.getPackageVersion trim cache w' = (v, cache).
Proof.
  unfold Version.getPackageVersion.
  destruct cachedVersion as [c|]; [now repeat split|].
  destruct (Version.truthy _) eqn:Hbuild;
    [repeat split; now apply truthy_nonempty|].
  destruct (Version.truthy (Version.or_else _ _)) eqn:Henv;
    [repeat split; now apply truthy_nonempty|].
  destruct (try_catch _ _) as [[v|] | m |] eqn:Hsearch;
    try (repeat split; discriminate).
  repeat split. apply truthy_nonempty.
  destruct (Version.modulePath w) as [p|]; [|discriminate].
  cbn [option_map call bind] in Hsearch.
  destruct (Version.searchPackage trim w 6 _) as [[v'|] | m |] eqn:Hs;
    try discriminate.
  injection Hsearch as ->. eapply searchPackage_nonempty; eassumption.
Qed.

(** X24: whatever the build constant, the environment and the file system
    hold, [getPackageVersion] leaves its result in the cache; a first call
    never returns the empty string, and every later call returns the
    cached version whatever has changed around it. *)
Theorem getPackageVersion_resolves_once (trim : string -> string)
    (cachedVersion : option string) (w : Version.World) :
  let '(v, cache) := Version.getPackageVersion trim cachedVersion w in
  cache = Some v /\
  match cachedVersion with
  | Some c => v = c
  | None => v <> ""%string
  end /\
  forall w', Version.getPackageVersion trim cache w' = (v, cache).
Proof. apply getPackageVersion_cached. Qed.
